(** * FiDcomp: the three-stage prompt compression pipeline of
    [src/compress_utils.py] (context, sentence and token selection),
    embedded as executable definitions, with the properties of its
    specification proved or refuted against them.

    Conventions of the embedding.
    - Python [int] is [Z]; list positions and lengths are [nat].
    - A numpy float is an [npfloat]: a rational, an infinity or NaN.
      Arithmetic on the scores is exact: rounding and signed zeros are not
      part of the model there. Where the code reads an integer off a
      float (the number of tokens [compress_tokens] keeps, the sentence
      budgets), Python's floats are doubles rounded to nearest (module
      [F64]) and the arithmetic of numpy's arrays is external.
    - Exceptions are values of [py_error], threaded by the [result] monad.
    - The two tokenizers, the sentence splitter and the float operations of
      numpy used by the adaptive budget are external libraries: they are
      the fields of the class [Externals] and every definition is
      parametric in them. *)

From Stdlib Require Import ZArith QArith Qcanon Qround Ascii String List Lia.
From stdpp Require Import base numbers list gmap strings pretty sorting.

Open Scope Z_scope.

(** ** Exceptions and the error monad *)

Inductive py_error : Type :=
  | InvalidQuestionMode   (* ValueError("Invalid question mode: ...") *)
  | InvalidMode           (* ValueError("Invalid mode: ...") *)
  | NumpyValueError       (* numpy: reduction or concatenation of nothing *)
  | AssertionError
  | IndexError
  | KeyError
  | OverflowError         (* int(inf), or an int too large for a float *)
  | NanValueError         (* ValueError: int(nan) *)
  | ZeroDivisionError.

Inductive result (A : Type) : Type :=
  | Ok (a : A)
  | Err (e : py_error).
Arguments Ok {A} a.
Arguments Err {A} e.

Definition rbind {A B} (m : result A) (k : A -> result B) : result B :=
  match m with
  | Ok a => k a
  | Err e => Err e
  end.

Global Instance result_ret : MRet result := fun A a => Ok a.
Global Instance result_bind : MBind result := fun A B k m => rbind m k.

Definition of_option {A} (e : py_error) (o : option A) : result A :=
  match o with
  | Some a => Ok a
  | None => Err e
  end.

(** [l[i]] for a position [i >= 0]. *)
Definition getitem {A} (l : list A) (i : nat) : result A :=
  of_option IndexError (l !! i).

(** [d[k]] for a dict. *)
Definition dict_get {V} (d : gmap Z V) (k : Z) : result V :=
  of_option KeyError (d !! k).

Fixpoint rmap {A B} (f : A -> result B) (l : list A) : result (list B) :=
  match l with
  | [] => Ok []
  | a :: l' => b ← f a; bs ← rmap f l'; Ok (b :: bs)
  end.

(** ** Python built-ins *)

Module Py.

(** [l[lo:hi]], Python's slice, for bounds of either sign: a negative bound
    counts from the end and every bound is clamped to the list. [None] is
    the omitted bound. *)
Definition norm_bound (len : nat) (b : Z) : nat :=
  if b <? 0 then Z.to_nat (Z.max 0 (Z.of_nat len + b))
  else Nat.min len (Z.to_nat b).

Definition slice {A} (l : list A) (lo hi : option Z) : list A :=
  let len := length l in
  let a := match lo with Some b => norm_bound len b | None => 0%nat end in
  let b := match hi with Some b => norm_bound len b | None => len end in
  take (b - a) (drop a l).

Definition str_slice (s : string) (lo hi : option Z) : string :=
  string_of_list_ascii (slice (list_ascii_of_string s) lo hi).

(** [s.find(sub)]: the lowest position of [sub] in [s], or [-1]. *)
Fixpoint find_from (sub s : string) (i : nat) : option nat :=
  if String.prefix sub s then Some i
  else match s with
       | EmptyString => None
       | String _ s' => find_from sub s' (S i)
       end.

Definition find (s sub : string) : Z :=
  match find_from sub s 0 with
  | Some i => Z.of_nat i
  | None => -1
  end.

(** [sub in s] *)
Definition contains (sub s : string) : bool :=
  match find_from sub s 0 with
  | Some _ => true
  | None => false
  end.

(** [s.split(c)] for a one-character separator. *)
Fixpoint split (c : ascii) (s : string) : list string :=
  match s with
  | EmptyString => [EmptyString]
  | String a s' =>
      if Ascii.eqb a c then EmptyString :: split c s'
      else match split c s' with
           | [] => [String a EmptyString]
           | w :: ws => String a w :: ws
           end
  end.

(** [sep.join(l)] *)
Fixpoint join (sep : string) (l : list string) : string :=
  match l with
  | [] => EmptyString
  | [w] => w
  | w :: ws => w +:+ sep +:+ join sep ws
  end.

(** Stable insertion sort: [sorted(l)], and the order numpy's sort gives
    to the short arrays of this program. *)
Section Sort.
Context {A : Type} (le : A -> A -> bool).

Fixpoint insert_sorted (x : A) (l : list A) : list A :=
  match l with
  | [] => [x]
  | y :: l' => if le x y then x :: y :: l' else y :: insert_sorted x l'
  end.

Definition sort_by (l : list A) : list A := foldr insert_sorted [] l.
End Sort.

Definition sorted_nat : list nat -> list nat := sort_by Nat.leb.
Definition sorted_Z : list Z -> list Z := sort_by Z.leb.

(** [enumerate(l)] *)
Definition enumerate {A} (l : list A) : list (nat * A) :=
  zip (seq 0 (length l)) l.

(** [re.sub(r' {2,}', ' ', s)]: every maximal run of two or more spaces
    becomes one space. *)
Fixpoint collapse_spaces (s : string) : string :=
  match s with
  | EmptyString => EmptyString
  | String a s' =>
      if Ascii.eqb a " "%char
      then match s' with
           | String b _ =>
               if Ascii.eqb b " "%char then collapse_spaces s'
               else String a (collapse_spaces s')
           | EmptyString => String a EmptyString
           end
      else String a (collapse_spaces s')
  end.

(** [str(n)] of an int *)
Definition str_of_Z (n : Z) : string := pretty n.
Definition str_of_nat (n : nat) : string := pretty n.

End Py.

(** ** numpy floats and array primitives *)

Module NP.

Inductive npfloat : Type :=
  | Real (q : Qc)
  | PosInf
  | NegInf
  | NaN.

Definition zero : npfloat := Real 0%Qc.
Definition of_Z (n : Z) : npfloat := Real (Q2Qc (inject_Z n)).
Definition of_nat (n : nat) : npfloat := of_Z (Z.of_nat n).

Definition add (a b : npfloat) : npfloat :=
  match a, b with
  | NaN, _ | _, NaN => NaN
  | PosInf, NegInf | NegInf, PosInf => NaN
  | PosInf, _ | _, PosInf => PosInf
  | NegInf, _ | _, NegInf => NegInf
  | Real x, Real y => Real (x + y)%Qc
  end.

Definition neg (a : npfloat) : npfloat :=
  match a with
  | Real x => Real (- x)%Qc
  | PosInf => NegInf
  | NegInf => PosInf
  | NaN => NaN
  end.

Definition mul (a b : npfloat) : npfloat :=
  match a, b with
  | NaN, _ | _, NaN => NaN
  | Real x, Real y => Real (x * y)%Qc
  | Real x, i | i, Real x =>
      if bool_decide (x = 0%Qc) then NaN
      else if bool_decide (0 < x)%Qc then i else neg i
  | PosInf, PosInf | NegInf, NegInf => PosInf
  | PosInf, NegInf | NegInf, PosInf => NegInf
  end.

Definition div (a b : npfloat) : npfloat :=
  match a, b with
  | NaN, _ | _, NaN => NaN
  | Real x, Real y =>
      if bool_decide (y = 0%Qc)
      then (if bool_decide (x = 0%Qc) then NaN
            else if bool_decide (0 < x)%Qc then PosInf else NegInf)
      else Real (x / y)%Qc
  | Real _, _ => zero
  | i, Real y => if bool_decide (0 <= y)%Qc then i else neg i
  | _, _ => NaN
  end.

(** [a != 0] *)
Definition ne0 (a : npfloat) : bool :=
  match a with
  | Real x => negb (bool_decide (x = 0%Qc))
  | _ => true
  end.

(** [a > b]; false as soon as one side is NaN. *)
Definition gt (a b : npfloat) : bool :=
  match a, b with
  | NaN, _ | _, NaN => false
  | Real x, Real y => bool_decide (y < x)%Qc
  | PosInf, PosInf => false
  | PosInf, _ => true
  | _, NegInf => match a with NegInf => false | _ => true end
  | _, _ => false
  end.

(** The order numpy sorts by: NaN after every number. *)
Definition sort_le (a b : npfloat) : bool :=
  match a, b with
  | _, NaN => true
  | NaN, _ => false
  | NegInf, _ => true
  | _, NegInf => false
  | _, PosInf => true
  | PosInf, _ => false
  | Real x, Real y => bool_decide (x <= y)%Qc
  end.

(** [np.sum(a)] *)
Definition sum (a : list npfloat) : npfloat := foldl add zero a.

(** [a.cumsum()] *)
Fixpoint cumsum_from (acc : npfloat) (a : list npfloat) : list npfloat :=
  match a with
  | [] => []
  | x :: a' => add acc x :: cumsum_from (add acc x) a'
  end.
Definition cumsum (a : list npfloat) : list npfloat :=
  match a with
  | [] => []
  | x :: a' => x :: cumsum_from x a'
  end.

(** [a.mean()]; the mean of an empty array is NaN (with a warning). *)
Definition mean (a : list npfloat) : npfloat :=
  div (sum a) (of_nat (length a)).

Definition max2 (a b : npfloat) : npfloat :=
  match a, b with
  | NaN, _ | _, NaN => NaN
  | _, _ => if gt b a then b else a
  end.

(** [a.max()]; raises on an empty array. *)
Definition max (a : list npfloat) : result npfloat :=
  match a with
  | [] => Err NumpyValueError
  | x :: a' => Ok (foldl max2 x a')
  end.

(** [np.argsort(a)], ascending. Positions with equal scores keep their
    input order, which is what numpy's default sort does on short arrays;
    it promises no order among them in general, and no property below
    depends on it. *)
Definition argsort (a : list npfloat) : list nat :=
  (Py.sort_by (fun p q : nat * npfloat => sort_le p.2 q.2) (Py.enumerate a)).*1.

(** [np.where(mask)[0][0]]: the first position that holds. *)
Fixpoint first_true (mask : list bool) : option nat :=
  match mask with
  | [] => None
  | true :: _ => Some 0%nat
  | false :: mask' => S <$> first_true mask'
  end.

(** [np.where(mask)[0]] *)
Definition where_true (mask : list bool) : list nat :=
  (filter (fun p : nat * bool => p.2 = true) (Py.enumerate mask)).*1.

(** [a[idx]] for an index array [idx]; raises when a position is outside. *)
Definition take_indices {A} (a : list A) (idx : list nat) : result (list A) :=
  rmap (getitem a) idx.

(** Truncation toward zero, and [.astype(int)]: the cast of a float to a
    64-bit integer. A float that is not finite, or whose truncation does
    not fit, gives the least 64-bit integer (the result of the conversion
    instruction of x86-64; numpy warns). *)
Definition trunc (q : Qc) : Z := Z.quot (Qnum q) (Zpos (Qden q)).
Definition astype_int (a : npfloat) : Z :=
  match a with
  | Real q =>
      let t := trunc q in
      if (- 2 ^ 63 <=? t) && (t <? 2 ^ 63) then t else - 2 ^ 63
  | _ => - 2 ^ 63
  end.

(** [np.sort(np.union1d(a, b))]: the sorted union without repetition. *)
Fixpoint dedup_adjacent (l : list nat) : list nat :=
  match l with
  | [] => []
  | x :: l' =>
      match l' with
      | y :: _ => if Nat.eqb x y then dedup_adjacent l' else x :: dedup_adjacent l'
      | [] => [x]
      end
  end.
Definition union1d (a b : list nat) : list nat :=
  dedup_adjacent (Py.sorted_nat (a ++ b)).

End NP.
Export NP (npfloat, Real, PosInf, NegInf, NaN).

(** ** Python floats

    A Python [float] is an IEEE 754 double: 53 significant bits, the
    least positive value [2^-1074], everything from [2^1024] on infinite.
    An operation returns the double nearest to its exact result, the one
    with an even significand when two are as near. A finite float is
    the rational it stands for; signed zeros are not told apart. *)

Module F64.

(** [floor(log2(n/d))] for positive [n] and [d]. *)
Definition binade (n d : Z) : Z :=
  let e := Z.log2 n - Z.log2 d in
  if (if 0 <=? e then 2 ^ e * d <=? n else d <=? 2 ^ (- e) * n) then e else e - 1.

(** [n/d] divided by [2^e], as a fraction. *)
Definition numer (n e : Z) : Z := if 0 <=? e then n else n * 2 ^ (- e).
Definition denom (d e : Z) : Z := if 0 <=? e then d * 2 ^ e else d.

(** The integer nearest to [N/D], the even one on a tie. *)
Definition rne (N D : Z) : Z :=
  let q := N / D in
  match 2 * (N mod D) ?= D with
  | Lt => q
  | Gt => q + 1
  | Eq => if Z.even q then q else q + 1
  end.

(** [m * 2^e] *)
Definition scale (m e : Z) : Qc :=
  if 0 <=? e then Q2Qc (inject_Z (m * 2 ^ e))
  else Q2Qc (Qmake m (Z.to_pos (2 ^ (- e)))).

(** The double nearest to [n/d > 0]: the doubles around it are the
    multiples of [2^e], with [e] 52 below its binade and at least -1074. *)
Definition round_pos (n d : Z) : npfloat :=
  let e := Z.max (binade n d - 52) (-1074) in
  let m := rne (numer n e) (denom d e) in
  if 2 ^ 1024 <=? m * 2 ^ e then PosInf else Real (scale m e).

(** The double nearest to a rational: [float(q)], and the float a decimal
    literal or a command line argument stands for. *)
Definition round (q : Qc) : npfloat :=
  match Qnum q with
  | 0 => Real 0%Qc
  | Zpos n => round_pos (Zpos n) (Zpos (Qden q))
  | Zneg n => NP.neg (round_pos (Zpos n) (Zpos (Qden q)))
  end.

(** The float an [int] becomes in [n * x]; raises when it is too large. *)
Definition of_int (n : Z) : result npfloat :=
  match round (Q2Qc (inject_Z n)) with
  | Real q => Ok (Real q)
  | _ => Err OverflowError
  end.

(** [a * b] on floats *)
Definition mul (a b : npfloat) : npfloat :=
  match NP.mul a b with
  | Real q => round q
  | x => x
  end.

(** [a / b] on two [int]s: the double nearest to the exact quotient. *)
Definition true_divide (a b : Z) : result npfloat :=
  if b =? 0 then Err ZeroDivisionError
  else match round (Q2Qc (inject_Z a / inject_Z b)) with
       | Real q => Ok (Real q)
       | _ => Err OverflowError
       end.

(** [int(x)] *)
Definition to_int (a : npfloat) : result Z :=
  match a with
  | Real q => Ok (NP.trunc q)
  | PosInf | NegInf => Err OverflowError
  | NaN => Err NanValueError
  end.

(** The operations of numpy on arrays of doubles, as used by the
    examples: each one rounds its exact result, and a sum adds from the
    left. *)
Definition rounded (a : npfloat) : npfloat :=
  match a with
  | Real q => round q
  | x => x
  end.
Definition divide (a b : npfloat) : npfloat := rounded (NP.div a b).
Definition add (a b : npfloat) : npfloat := rounded (NP.add a b).
Definition sum (a : list npfloat) : npfloat := foldl add NP.zero a.

End F64.

(** ** Data model *)

(** A passage: the dict [ctx] of the source. [ctx_id] is its key ['id'];
    [ctx_score] is absent until context selection sets it. *)
Record ctx : Type := mk_ctx {
  text : string;
  title : option string;
  org_idx : Z;
  ctx_score : option npfloat;
  ctx_id : string;
}.

Definition set_text (c : ctx) (t : string) : ctx :=
  {| text := t; title := title c; org_idx := org_idx c;
     ctx_score := ctx_score c; ctx_id := ctx_id c |}.

Definition set_ctx_score (c : ctx) (s : npfloat) : ctx :=
  {| text := text c; title := title c; org_idx := org_idx c;
     ctx_score := Some s; ctx_id := ctx_id c |}.

(** The fields of [args] that the module reads. *)
Record args : Type := mk_args {
  do_sort_ctx : bool;
  ctx_score_mode : string;
  question_mode : string;
  include_end_token : bool;
  dataset : string;
  comp_sent : bool;
}.

(** The external libraries: the scoring tokenizer ([tokenizer]), the
    reference tokenizer ([GPT_TOKENIZER], of which only the token count is
    read), nltk's [sent_tokenize] and numpy's float power. They are total
    functions here: [tokenizer.encode(s, add_special_tokens=False)] is
    [tok_encode s], [batch_encode_plus] encodes each string of its list with
    it, and none of them raises.

    The adaptive budget is computed on a float array of numpy, whose
    element type is the one of the scores it is given and whose sum adds
    in numpy's order: [np_divide], [np_multiply] and [np_sum] are numpy's
    [/], [*] (element by element) and [np.sum] on such an array. *)
Class Externals : Type := {
  tok_encode : string -> list Z;
  tok_decode : list Z -> string;
  gpt_len : string -> nat;
  sent_tokenize : string -> list string;
  np_power : npfloat -> npfloat -> npfloat;
  np_divide : npfloat -> npfloat -> npfloat;
  np_multiply : npfloat -> npfloat -> npfloat;
  np_sum : list npfloat -> npfloat;
}.

(** ** Prompt rendering *)

Definition nl : string := String "010"%char EmptyString.
Definition dq : string := String "034"%char EmptyString.

Definition INSTRUCTION : string :=
  "Write a high-quality answer for the given question using only the provided search results (some of which might be irrelevant).".

Definition QUESTION_TEMPLATE (q : string) : string :=
  "Question: " +:+ q +:+ nl +:+ "Answer:".

(** [_dict_wo_instruction]: each template as the function [.format] makes of
    it, of [compressed_prompt] and [question]. *)
Definition dict_wo_instruction : list (string * (string -> string -> string)) :=
  [ ("narrativeqa", fun p q => p +:+ nl +:+ nl +:+ "Now, answer the question based on the story asconcisely as you can, using a single phrase if possible. Do not provide any explanation." +:+ nl +:+ nl +:+ "Question: " +:+ q);
    ("qasper", fun p q => p +:+ nl +:+ nl +:+ " Answer the question based on the above article as concisely as you can, using a single phrase or sentence if possible. If the question cannot be answered based on the information in the article, write " +:+ dq +:+ "unanswerable" +:+ dq +:+ ". If the question is a yes/no question, answer " +:+ dq +:+ "yes" +:+ dq +:+ ", " +:+ dq +:+ "no" +:+ dq +:+ ", or " +:+ dq +:+ "unanswerable" +:+ dq +:+ ". Do not provide any explanation." +:+ nl +:+ nl +:+ "Question: " +:+ q);
    ("multifieldqa_en", fun p q => p +:+ nl +:+ nl +:+ "Now, answer the following question based on the above text, only give me the answer and do not output any other words." +:+ nl +:+ nl +:+ "Question: " +:+ q);
    ("hotpotqa", fun p q => p +:+ nl +:+ nl +:+ "Answer the question based on the given passages. Only give me the answer and do not output any other words." +:+ nl +:+ nl +:+ "Question: " +:+ q);
    ("2wikimqa", fun p q => p +:+ nl +:+ nl +:+ "Answer the question based on the given passages. Only give me the answer and do not output any other words." +:+ nl +:+ nl +:+ "Question: " +:+ q);
    ("musique", fun p q => p +:+ nl +:+ nl +:+ "Answer the question based on the given passages. Only give me the answer and do not output any other words." +:+ nl +:+ nl +:+ "Question: " +:+ q);
    ("gov_report", fun p q => p);
    ("qmsum", fun p q => p +:+ nl +:+ nl +:+ "Now, answer the query based on the above meeting transcript in one or more sentences." +:+ nl +:+ nl +:+ "Query: " +:+ q);
    ("multi_news", fun p q => p);
    ("trec", fun p q => p +:+ nl +:+ q);
    ("triviaqa", fun p q => p +:+ nl +:+ nl +:+ q);
    ("samsum", fun p q => p +:+ nl +:+ nl +:+ q);
    ("passage_count", fun p q => p);
    ("passage_retrieval_en", fun p q => p +:+ nl +:+ nl +:+ "The following is an abstract." +:+ nl +:+ nl +:+ q);
    ("lcc", fun p q => p);
    ("repobench-p", fun p q => p +:+ q) ].

Fixpoint assoc {V} (k : string) (d : list (string * V)) : option V :=
  match d with
  | [] => None
  | (k', v) :: d' => if String.eqb k k' then Some v else assoc k d'
  end.

(** [str(t)] of an optional title inside an f-string. *)
Definition fmt_title (t : option string) : string :=
  match t with
  | Some s => s
  | None => "None"
  end.

(** [f"Document [{idx}](Title: {title}) {text}"] *)
Definition document_line (idx : string) (t : option string) (txt : string) : string :=
  "Document [" +:+ idx +:+ "](Title: " +:+ fmt_title t +:+ ") " +:+ txt.

(** The loop of the long-document branch of [get_prompt]: the state is
    [(prompt, cur_ctx_id)], and [cur_ctx_id] starts as the int [0], which no
    string equals: that is [None] here. *)
Definition longbench_step (st : string * option string) (c : ctx) : string * option string :=
  let '(prompt, cur_ctx_id) := st in
  let head := default EmptyString (head (Py.split "-" (ctx_id c))) in
  if bool_decide (Some head = cur_ctx_id)
  then (if String.eqb prompt EmptyString then (text c, cur_ctx_id)
        else (prompt +:+ " " +:+ text c, cur_ctx_id))
  else (prompt +:+ nl +:+ text c, Some head).

Definition get_prompt (ctxs : list ctx) (question : string) (dataset : string)
    (use_org_idx : bool) : result string :=
  if Py.contains "longbench" dataset
  then
    let dataname := Py.join "_" (tail (Py.split "_" dataset)) in
    let prompt := (foldl longbench_step (EmptyString, None) ctxs).1 in
    fmt ← of_option KeyError (assoc dataname dict_wo_instruction);
    Ok (fmt prompt question)
  else
    let ctxs_formatted :=
      map (fun p : nat * ctx =>
             let idx := if use_org_idx then Py.str_of_Z (org_idx p.2)
                        else Py.str_of_nat (p.1 + 1) in
             document_line idx (title p.2) (text p.2))
          (Py.enumerate ctxs) in
    Ok (INSTRUCTION +:+ nl +:+ nl +:+ Py.join nl ctxs_formatted +:+ nl +:+ nl
        +:+ QUESTION_TEMPLATE question).

(** ** Score alignment and passage scores *)

Section Scores.
Context `{Externals}.

(** [get_ctx_start_indices]: where the passage content starts in each
    score array. [titles[0]] raises on an empty list, and the two
    [assert]s reject a mix of present and absent titles. *)
Definition get_ctx_start_indices (question : string) (titles : list (option string))
    (pattern_str : string) : result (list nat) :=
  first ← getitem titles 0;
  _ ← (match first with
       | Some _ => if forallb (fun t : option string => bool_decide (is_Some t)) titles
                   then Ok tt else Err AssertionError
       | None => if forallb (fun t : option string => bool_decide (t = None)) titles
                 then Ok tt else Err AssertionError
       end);
  let len_pattern := length (tok_encode pattern_str) in
  match first with
  | Some _ =>
      Ok (map (fun t : option string =>
                 length (tok_encode ("question: " +:+ question +:+ " title: " +:+ fmt_title t))
                 + len_pattern)%nat
              titles)
  | None =>
      let question_input_ids :=
        Py.slice (tok_encode ("question: " +:+ question)) (Some (-252)) None in
      Ok (map (fun _ => (length question_input_ids + len_pattern)%nat) titles)
  end.

(** [scores[scores != 0][:end]] *)
Definition nonzero_part (include_end_token : bool) (scores : list npfloat) : list npfloat :=
  Py.slice (filter (fun s => NP.ne0 s = true) scores)
           None (if include_end_token then None else Some (-1)).

(** One turn of the aggregation loop. *)
Definition aggregate (mode : string) (include_end_token : bool)
    (scores : list npfloat) : result npfloat :=
  if String.eqb mode "mean" then Ok (NP.mean (nonzero_part include_end_token scores))
  else if String.eqb mode "max" then NP.max (nonzero_part include_end_token scores)
  else if String.eqb mode "sum" then Ok (NP.sum (nonzero_part include_end_token scores))
  else Err InvalidMode.

(** The score arrays the aggregation runs over. *)
Definition batch_scores_ctxs (batch_scores : list (list npfloat)) (question_mode : string)
    (question : string) (titles : list (option string)) (pattern_str : string)
    : result (list (list npfloat)) :=
  if String.eqb question_mode "include" then Ok batch_scores
  else if String.eqb question_mode "exclude" then
    ctx_start_indices ← get_ctx_start_indices question titles pattern_str;
    Ok (map (fun p : list npfloat * nat => Py.slice p.1 (Some (Z.of_nat p.2)) None)
            (zip batch_scores ctx_start_indices))
  else Err InvalidQuestionMode.

Definition get_ctx_scores (batch_scores : list (list npfloat)) (mode question_mode : string)
    (include_end_token : bool) (question : string) (titles : list (option string))
    (pattern_str : string) : result (list npfloat) :=
  scores_ctxs ← batch_scores_ctxs batch_scores question_mode question titles pattern_str;
  rmap (aggregate mode include_end_token) scores_ctxs.

End Scores.

(** ** Context selection *)

Section Contexts.
Context `{Externals}.

(** The percentile branch of [compress_contexts]: from the passage scores
    to the selected positions, best first. *)
Definition select_by_cumsum (ctx_scores : list npfloat) (ctx_score_cumsum : Qc)
    : result (list npfloat * list nat) :=
  let total := NP.sum ctx_scores in
  let ctx_scores := map (fun s => NP.div s total) ctx_scores in
  let order := rev (NP.argsort ctx_scores) in
  sorted_scores ← NP.take_indices ctx_scores order;
  let mask := map (fun c => NP.gt c (Real ctx_score_cumsum)) (NP.cumsum sorted_scores) in
  cum_ctx_index ← of_option IndexError (NP.first_true mask);
  let cum_ctx_index := if Nat.eqb cum_ctx_index 0 then 1%nat else cum_ctx_index in
  Ok (ctx_scores, take cum_ctx_index order).

(** The rendered length of passage [idx], as the greedy loop measures it. *)
Definition rendered_len (a : args) (ctxs : list ctx) (idx : nat) : result Z :=
  c ← getitem ctxs idx;
  if Py.contains "longbench" (dataset a)
  then Ok (Z.of_nat (gpt_len (text c)))
  else Ok (Z.of_nat (gpt_len (document_line (Py.str_of_nat idx) (title c) (text c)))).

(** The greedy loop: [todo] is the rest of [ctx_indices_sorted], [acc]
    the positions appended so far (in order). *)
Fixpoint greedy_loop (a : args) (ctxs : list ctx) (ctx_comp_len : Z)
    (todo : list nat) (acc : list nat) (len_total : Z) : result (list nat * Z) :=
  match todo with
  | [] => Ok (acc, len_total)
  | idx :: todo' =>
      len ← rendered_len a ctxs idx;
      if negb (comp_sent a)
         && (Z.abs (len_total - ctx_comp_len) <? Z.abs (len_total + len - ctx_comp_len))
      then Ok (acc, len_total)
      else
        let len_total := len_total + len in
        let acc := acc ++ [idx] in
        if len_total >=? ctx_comp_len then Ok (acc, len_total)
        else greedy_loop a ctxs ctx_comp_len todo' acc len_total
  end.

(** [ctxs[idx]['ctx_score'] = ctx_scores[idx]] for each selected position. *)
Fixpoint annotate (ctxs : list ctx) (ctx_scores : list npfloat) (ctx_indices : list nat)
    : result (list ctx) :=
  match ctx_indices with
  | [] => Ok ctxs
  | idx :: rest =>
      c ← getitem ctxs idx;
      s ← getitem ctx_scores idx;
      annotate (<[idx := set_ctx_score c s]> ctxs) ctx_scores rest
  end.

Record selection : Type := mk_selection {
  batch_scores_selected : list (list npfloat);
  batch_token_ids_selected : list (list Z);
  ctxs_selected : list ctx;
  ctx_indices : list nat;
  len_total_final : Z;
}.

(** [compress_contexts]. The record adds to the four returned values the
    final value of the local [len_total], which the budget claims are
    about. *)
Definition compress_contexts (a : args) (batch_scores : list (list npfloat))
    (batch_token_ids : list (list Z)) (ctxs : list ctx) (ctx_comp_len : Z)
    (ctx_score_cumsum : option Qc) (question pattern_str : string) : result selection :=
  let titles := map title ctxs in
  ctx_scores ← get_ctx_scores batch_scores (ctx_score_mode a) (question_mode a)
                 (include_end_token a) question titles pattern_str;
  let ctx_indices_sorted := rev (NP.argsort ctx_scores) in
  prompt ← get_prompt [] question (dataset a) true;
  let len_total := Z.of_nat (gpt_len prompt) in
  '(ctx_scores, ctx_indices, len_total) ←
    (match ctx_score_cumsum with
     | Some thr =>
         '(ctx_scores, ctx_indices) ← select_by_cumsum ctx_scores thr;
         Ok (ctx_scores, ctx_indices, len_total)
     | None =>
         '(ctx_indices, len_total) ←
           greedy_loop a ctxs ctx_comp_len ctx_indices_sorted [] len_total;
         Ok (ctx_scores, ctx_indices, len_total)
     end);
  ctxs ← annotate ctxs ctx_scores ctx_indices;
  let ctx_indices_selected :=
    if do_sort_ctx a then ctx_indices else Py.sorted_nat ctx_indices in
  ctxs ← NP.take_indices ctxs ctx_indices_selected;
  batch_scores_selected ← NP.take_indices batch_scores ctx_indices_selected;
  batch_token_ids_selected ← NP.take_indices batch_token_ids ctx_indices_selected;
  Ok (mk_selection batch_scores_selected batch_token_ids_selected ctxs ctx_indices len_total).

End Contexts.

(** ** Sentence selection *)

Section Sentences.
Context `{Externals}.

(** [np.where(token_ids == 1)[0][-1]] *)
Definition last_eos (token_ids : list Z) : result nat :=
  of_option IndexError (last (NP.where_true (map (fun t => bool_decide (t = 1)) token_ids))).

(** The first loop: the end-of-sequence position of every row. The unused
    [batch_len_context] still reads [ctx_start_indices[ctx_i]]. *)
Definition eos_positions (batch_token_ids : list (list Z)) (ctx_start_indices : list nat)
    : result (list nat) :=
  rmap (fun p : nat * list Z =>
          eos_token_idx ← last_eos p.2;
          _ ← getitem ctx_start_indices p.1;
          Ok eos_token_idx)
       (Py.enumerate batch_token_ids).

(** [[batch[i][ctx_start_indices[i]:eos] for i, eos in enumerate(batch_eos_token_idx)]] *)
Definition content_slices {A} (batch : list (list A)) (ctx_start_indices : list nat)
    (batch_eos_token_idx : list nat) : result (list (list A)) :=
  rmap (fun p : nat * nat =>
          row ← getitem batch p.1;
          start ← getitem ctx_start_indices p.1;
          Ok (Py.slice row (Some (Z.of_nat start)) (Some (Z.of_nat p.2))))
       (Py.enumerate batch_eos_token_idx).

(** The separators between consecutive sentences of one passage:
    [prev_sent] is the sentence at [sent_index], [rest] those after it. *)
Fixpoint split_token_loop (ctx_text : string) (prev_sent : string) (rest : list string)
    : list string :=
  match rest with
  | [] => []
  | cur_sent :: rest' =>
      let len_prev_sent := Z.of_nat (String.length prev_sent) in
      let prev_sent_end_idx := len_prev_sent in
      let cur_sent_start_idx :=
        len_prev_sent + Py.find (Py.str_slice ctx_text (Some len_prev_sent) None) cur_sent in
      let split_token :=
        Py.str_slice ctx_text (Some prev_sent_end_idx) (Some cur_sent_start_idx) in
      split_token
        :: split_token_loop (Py.str_slice ctx_text (Some cur_sent_start_idx) None)
             cur_sent rest'
  end.

Definition split_token_ctx (c : ctx) (sents : list string) : list string :=
  EmptyString :: match sents with
                 | [] => []
                 | s :: rest => split_token_loop (text c) s rest
                 end.

(** [[sum(sent_len_list[:i+1]) for i in range(len(sent_len_list))]] *)
Definition cum_len_list (sent_len_list : list nat) : list nat :=
  map (fun i => sum_list (take (i + 1) sent_len_list)) (seq 0 (length sent_len_list)).

(** One pooled sentence: its mean score, its scores and its token ids. *)
Record pooled : Type := mk_pooled {
  sent_mean_score : npfloat;
  sent_scores : list npfloat;
  sent_token_ids : list Z;
}.

(** The pooling loop over [cum_len_list], from [start_idx]. *)
Fixpoint pool_loop (context_score : list npfloat) (context_ids : list Z)
    (cums : list nat) (start_idx : nat) : list pooled :=
  match cums with
  | [] => []
  | cum_len :: cums' =>
      if (length context_score <=? start_idx)%nat
      then pool_loop context_score context_ids cums' start_idx
      else
        let sc := Py.slice context_score (Some (Z.of_nat start_idx)) (Some (Z.of_nat cum_len)) in
        let ids := Py.slice context_ids (Some (Z.of_nat start_idx)) (Some (Z.of_nat cum_len)) in
        mk_pooled (NP.mean sc) sc ids :: pool_loop context_score context_ids cums' cum_len
  end.

(** The body of the pooling loop for one passage. The [except] branch of
    the source opens a debugger when the tokenizer raises; the tokenizer of
    the model does not raise. *)
Definition pool_sentences (context_score : list npfloat) (context_ids : list Z)
    (sents : list string) : list pooled :=
  let sent_len_list := map (fun s => length (tok_encode s)) sents in
  pool_loop context_score context_ids (cum_len_list sent_len_list) 0.

(** The budget of every rank before the main loop:
    [sorted((((1/ctx_scores)/np.sum(1/ctx_scores)) * sent_comp_len).astype(int).tolist())]
    on numpy's arrays, or [int(sent_comp_len / num_ctxs)] for each passage,
    a division of two [int]s whose float result is truncated. *)
Definition initial_comp_len_per_ctx (ctxs : list ctx) (sent_comp_len : Z)
    (adaptive_sent_comp : bool) (pow : npfloat) : result (list Z) :=
  let num_ctxs := length ctxs in
  if adaptive_sent_comp && (1 <? num_ctxs)%nat then
    ctx_scores ← rmap (fun c => of_option KeyError (ctx_score c)) ctxs;
    let ctx_scores := map (fun s => np_power s pow) ctx_scores in
    let inv := map (fun s => np_divide (NP.of_Z 1) s) ctx_scores in
    let total := np_sum inv in
    Ok (Py.sorted_Z
          (map (fun x => NP.astype_int
                           (np_multiply (np_divide x total) (NP.of_Z sent_comp_len)))
               inv))
  else
    rmap (fun _ => x ← F64.true_divide sent_comp_len (Z.of_nat num_ctxs); F64.to_int x)
         (seq 0 num_ctxs).

(** What the main loop reads and never writes. *)
Record sent_env : Type := mk_sent_env {
  sent_comp_len : Z;
  constraint_1_sent : bool;
  batch_scores_context : list (list npfloat);
  batch_token_ids_context : list (list Z);
  sents_list : list (list string);
  split_token_ctxs : list (list string);
  pooled_ctxs : list (list pooled);
  rank_map : gmap Z nat;
  ctx_idx2ctx_i : gmap Z nat;
}.

(** What the main loop writes. *)
Record sent_state : Type := mk_sent_state {
  total_comp_len : Z;
  comp_len_per_ctx : list Z;
  ctx_removal_indices : list nat;
  new_scores_ctxs : gmap Z (list npfloat);
  new_token_ids_ctxs : gmap Z (list Z);
  st_ctxs : list ctx;
}.

(** [len(GPT_TOKENIZER.encode(split_token_ctxs[i][sent_index] + sents[sent_index]))] *)
Definition cur_sent_len_of (split_tokens sents : list string) (sent_index : nat) : result Z :=
  sp ← getitem split_tokens sent_index;
  s ← getitem sents sent_index;
  Ok (Z.of_nat (gpt_len (sp +:+ s))).

(** The sentence-dropping loop over [enumerate(argsort_sent)]: [todo] is
    what is left of [argsort_sent] and [r] the position of its head. The
    result is [(r, cur_comp_len, total_comp_len)] as they stand after the
    loop; on exhaustion [r] is the last position enumerated. *)
Fixpoint drop_loop (e : sent_env) (comp_len : Z) (split_tokens sents : list string)
    (todo : list nat) (r : Z) (cur_comp_len total_comp_len : Z) : result (Z * Z * Z) :=
  match todo with
  | [] => Ok (r - 1, cur_comp_len, total_comp_len)
  | sent_index :: todo' =>
      cur_sent_len ← cur_sent_len_of split_tokens sents sent_index;
      let cur_comp_len := cur_comp_len + cur_sent_len in
      let total_comp_len := total_comp_len + cur_sent_len in
      if total_comp_len >=? sent_comp_len e then
        if Z.abs (total_comp_len - cur_sent_len - sent_comp_len e)
           <? Z.abs (total_comp_len - sent_comp_len e)
        then Ok (r - 1, cur_comp_len - cur_sent_len, total_comp_len - cur_sent_len)
        else Ok (r, cur_comp_len, total_comp_len)
      else if cur_comp_len >=? comp_len then Ok (r, cur_comp_len, total_comp_len)
      else drop_loop e comp_len split_tokens sents todo' (r + 1) cur_comp_len total_comp_len
  end.

(** The number of leading entries of [argsort_sent] to drop: the loop's
    [r], plus one, held back by [constraint_1_sent]. *)
Definition cut_index (e : sent_env) (n_sorted : nat) (r : Z) : Z :=
  let r := r + 1 in
  if constraint_1_sent e && (r =? Z.of_nat n_sorted) then r - 1 else r.

(** "reduce comp_len from the top ranked context": the loop over
    [enumerate(comp_len_per_ctx)], from position [r_i]. *)
Fixpoint reduce_from_top (comp_lens : list Z) (r_i rank : nat) (exceed_len : Z) : list Z :=
  match comp_lens with
  | [] => []
  | comp_len_ctx :: rest =>
      if (exceed_len =? 0) || (r_i =? rank)%nat then comp_lens
      else if 0 <? comp_len_ctx
      then Z.max 0 (comp_len_ctx - exceed_len)
             :: reduce_from_top rest (S r_i) rank (Z.max 0 (exceed_len - comp_len_ctx))
      else comp_len_ctx :: reduce_from_top rest (S r_i) rank exceed_len
  end.

(** The end of a turn of the main loop, from [diff = ...] on: the new
    [total_comp_len] and [comp_len_per_ctx]. *)
Definition reconcile (comp_len_per_ctx : list Z) (rank : nat) (comp_len : Z)
    (cur_comp_len actural_comp_len total_comp_len : Z) : result (Z * list Z) :=
  let diff := cur_comp_len - actural_comp_len in
  let total_comp_len := total_comp_len - diff in
  let cur_comp_len := actural_comp_len in
  if comp_len <? cur_comp_len then
    let exceed_len := cur_comp_len - comp_len in
    Ok (total_comp_len, reduce_from_top comp_len_per_ctx 0 rank exceed_len)
  else
    if (rank =? 0)%nat then Ok (total_comp_len, comp_len_per_ctx)
    else
      prev ← getitem comp_len_per_ctx (rank - 1);
      Ok (total_comp_len, <[(rank - 1)%nat := prev + (comp_len - cur_comp_len)]> comp_len_per_ctx).

(** The length of a passage as the main loop measures it. *)
Definition passage_len (c : ctx) (txt : string) : Z :=
  match title c with
  | Some _ => Z.of_nat (gpt_len (document_line (Py.str_of_Z (org_idx c)) (title c) txt))
  | None => Z.of_nat (gpt_len txt)
  end.

(** The text rebuilt from the selected sentences and the unscored rest. *)
Definition rebuild_text (split_tokens sents : list string) (sent_indices_selected : list nat)
    (rest_sents : option (list string)) : result string :=
  kept ← rmap (fun sent_index =>
                 sp ← getitem split_tokens sent_index;
                 s ← getitem sents sent_index;
                 Ok (sp +:+ s))
              sent_indices_selected;
  rest ← (match rest_sents with
          | None => Ok []
          | Some rs =>
              rmap (fun p : nat * string =>
                      sp ← getitem split_tokens (p.1 + length sents);
                      Ok (sp +:+ p.2))
                   (Py.enumerate rs)
          end);
  Ok (Py.join EmptyString (kept ++ rest)).

(** One turn of the main loop, for the position [idx]. The interactive
    breakpoint before the branch is not modelled: it has no effect on the
    state. *)
Definition sentence_step (e : sent_env) (st : sent_state) (idx : Z) : result sent_state :=
  rank ← dict_get (rank_map e) idx;
  i ← dict_get (ctx_idx2ctx_i e) idx;
  c ← getitem (st_ctxs st) i;
  let ctx_len := passage_len c (text c) in
  pooled_ctx ← getitem (pooled_ctxs e) i;
  let sent_mean_score_ctx := map sent_mean_score pooled_ctx in
  sents ← getitem (sents_list e) i;
  if (length sent_mean_score_ctx =? 0)%nat then
    Ok (mk_sent_state (total_comp_len st) (comp_len_per_ctx st)
          (ctx_removal_indices st ++ [i]) (new_scores_ctxs st) (new_token_ids_ctxs st)
          (st_ctxs st))
  else
    let rest_sents :=
      if (length sent_mean_score_ctx =? length sents)%nat then None
      else Some (Py.slice sents (Some (Z.of_nat (length sent_mean_score_ctx))) None) in
    let sents :=
      if (length sent_mean_score_ctx =? length sents)%nat then sents
      else Py.slice sents None (Some (Z.of_nat (length sent_mean_score_ctx))) in
    comp_len ← getitem (comp_len_per_ctx st) rank;
    let argsort_sent := NP.argsort sent_mean_score_ctx in
    if (total_comp_len st >=? sent_comp_len e) || (comp_len =? 0) then
      sc ← getitem (batch_scores_context e) i;
      ids ← getitem (batch_token_ids_context e) i;
      Ok (mk_sent_state (total_comp_len st) (comp_len_per_ctx st)
            (ctx_removal_indices st) (<[idx := sc]> (new_scores_ctxs st))
            (<[idx := ids]> (new_token_ids_ctxs st)) (st_ctxs st))
    else
      split_tokens ← getitem (split_token_ctxs e) i;
      '(r, cur_comp_len, total) ←
        drop_loop e comp_len split_tokens sents argsort_sent 0 0 (total_comp_len st);
      let r := cut_index e (length argsort_sent) r in
      if r =? Z.of_nat (length argsort_sent) then
        let actural_comp_len := ctx_len in
        '(total, comp_lens) ←
          reconcile (comp_len_per_ctx st) rank comp_len cur_comp_len actural_comp_len total;
        Ok (mk_sent_state total comp_lens (ctx_removal_indices st ++ [i])
              (new_scores_ctxs st) (new_token_ids_ctxs st) (st_ctxs st))
      else
        let argsort_sent := Py.slice argsort_sent (Some r) None in
        let sent_indices_selected := Py.sorted_nat argsort_sent in
        sent_comp_text ← rebuild_text split_tokens sents sent_indices_selected rest_sents;
        let after_sent_comp_len := passage_len c sent_comp_text in
        let actural_comp_len := ctx_len - after_sent_comp_len in
        sel ← NP.take_indices pooled_ctx sent_indices_selected;
        (* np.concatenate raises on an empty list of arrays *)
        _ ← (if sel is [] then Err NumpyValueError else Ok tt);
        '(total, comp_lens) ←
          reconcile (comp_len_per_ctx st) rank comp_len cur_comp_len actural_comp_len total;
        Ok (mk_sent_state total comp_lens (ctx_removal_indices st)
              (<[idx := concat (map sent_scores sel)]> (new_scores_ctxs st))
              (<[idx := concat (map sent_token_ids sel)]> (new_token_ids_ctxs st))
              (<[i := set_text c sent_comp_text]> (st_ctxs st))).

(** The main loop over [reversed(ctx_indices_sorted)]. *)
Fixpoint sentence_loop (e : sent_env) (st : sent_state) (todo : list Z) : result sent_state :=
  match todo with
  | [] => Ok st
  | idx :: todo' => st' ← sentence_step e st idx; sentence_loop e st' todo'
  end.

(** [[ctx for i, ctx in enumerate(ctxs) if i not in set(ctx_removal_indices)]] *)
Definition remove_ctxs (ctxs : list ctx) (ctx_removal_indices : list nat) : list ctx :=
  if (0 <? length ctx_removal_indices)%nat
  then (filter (fun p : nat * ctx => p.1 ∉ ctx_removal_indices) (Py.enumerate ctxs)).*2
  else ctxs.

(** A dict comprehension [{k: v for ...}]: later pairs win. *)
Definition dict_of {V} (kvs : list (Z * V)) : gmap Z V :=
  foldl (fun d kv => <[kv.1 := kv.2]> d) ∅ kvs.

Definition compress_sentences (batch_scores : list (list npfloat))
    (batch_token_ids : list (list Z)) (ctxs : list ctx) (ctx_indices_sorted : list Z)
    (sent_comp_len : Z) (adaptive_sent_comp : bool) (question pattern_str : string)
    (pow : npfloat) (constraint_1_sent : bool)
    : result (list (list npfloat) * list (list Z) * list ctx) :=
  let titles := map title ctxs in
  ctx_start_indices ← get_ctx_start_indices question titles pattern_str;
  batch_eos_token_idx ← eos_positions batch_token_ids ctx_start_indices;
  batch_scores_context ← content_slices batch_scores ctx_start_indices batch_eos_token_idx;
  batch_token_ids_context ← content_slices batch_token_ids ctx_start_indices batch_eos_token_idx;
  let sents_list := map (fun c => sent_tokenize (text c)) ctxs in
  let split_token_ctxs := map (fun p : ctx * list string => split_token_ctx p.1 p.2)
                              (zip ctxs sents_list) in
  let pooled_ctxs :=
    map (fun p : list npfloat * list Z * list string => pool_sentences p.1.1 p.1.2 p.2)
        (zip (zip batch_scores_context batch_token_ids_context) sents_list) in
  comp_len_per_ctx ← initial_comp_len_per_ctx ctxs sent_comp_len adaptive_sent_comp pow;
  let rank_map := dict_of (map (fun p : nat * Z => (p.2, p.1)) (Py.enumerate ctx_indices_sorted)) in
  let ctx_idx2ctx_i := dict_of (map (fun p : nat * ctx => (org_idx p.2 - 1, p.1)) (Py.enumerate ctxs)) in
  let e := mk_sent_env sent_comp_len constraint_1_sent batch_scores_context
             batch_token_ids_context sents_list split_token_ctxs pooled_ctxs
             rank_map ctx_idx2ctx_i in
  st ← sentence_loop e (mk_sent_state 0 comp_len_per_ctx [] ∅ ∅ ctxs) (rev ctx_indices_sorted);
  let ctxs := remove_ctxs (st_ctxs st) (ctx_removal_indices st) in
  new_scores ← rmap (fun c => dict_get (new_scores_ctxs st) (org_idx c - 1)) ctxs;
  new_token_ids ← rmap (fun c => dict_get (new_token_ids_ctxs st) (org_idx c - 1)) ctxs;
  Ok (new_scores, new_token_ids, ctxs).

End Sentences.

(** ** Token selection *)

Section Tokens.
Context `{Externals}.

(** [np.concatenate(rows)]; raises on an empty list of arrays. *)
Definition np_concatenate {A} (rows : list (list A)) : result (list A) :=
  if rows is [] then Err NumpyValueError else Ok (concat rows).

(** [batch_scores.shape[0] * token_lamb]: the product of an [int] and a
    float. [token_lamb] is the number given for it; the float the code
    holds is the double nearest to that number. *)
Definition float_product (n : nat) (token_lamb : Qc) : result npfloat :=
  x ← F64.of_int (Z.of_nat n);
  Ok (F64.mul x (F64.round token_lamb)).

(** [int(batch_scores.shape[0] * token_lamb)] *)
Definition target_len (n : nat) (token_lamb : Qc) : result Z :=
  x ← float_product n token_lamb;
  F64.to_int x.

(** [np.sort(batch_scores.argsort()[::-1][:target_len])] *)
Definition sorted_target_indices (batch_scores : list npfloat) (target_len : Z) : list nat :=
  Py.sorted_nat (Py.slice (rev (NP.argsort batch_scores)) None (Some target_len)).

(** [np.where(batch_token_ids[start:end] == 3)[0] + start] *)
Definition empty_token_indices (batch_token_ids : list Z) (start stop : nat) : list nat :=
  map (fun j => (j + start)%nat)
      (NP.where_true
         (map (fun t => bool_decide (t = 3))
              (Py.slice batch_token_ids (Some (Z.of_nat start)) (Some (Z.of_nat stop))))).

(** The positions kept for the passage that spans [start, stop). *)
Definition cur_target_indices (sorted_targets : list nat) (batch_token_ids : list Z)
    (start stop : nat) : list nat :=
  let cur := filter (fun p => (start <= p)%nat ∧ (p < stop)%nat) sorted_targets in
  Py.sorted_nat (NP.union1d cur (empty_token_indices batch_token_ids start stop)).

(** The token ids handed to [tokenizer.decode] for that passage. *)
Definition kept_token_ids (sorted_targets : list nat) (batch_token_ids : list Z)
    (start stop : nat) : result (list Z) :=
  new_batch_token_ids ←
    NP.take_indices batch_token_ids (cur_target_indices sorted_targets batch_token_ids start stop);
  Ok (filter (fun t => t ≠ 2) new_batch_token_ids).

(** The loop over [zip(cum_len_list, ctxs)]; passages beyond the shorter
    list stay as they are. *)
Fixpoint token_loop (sorted_targets : list nat) (batch_token_ids : list Z)
    (cums : list nat) (ctxs : list ctx) (start : nat) : result (list ctx) :=
  match cums, ctxs with
  | cum_len :: cums', c :: ctxs' =>
      ids ← kept_token_ids sorted_targets batch_token_ids start cum_len;
      let tok_comp_text := Py.collapse_spaces (tok_decode ids) in
      rest ← token_loop sorted_targets batch_token_ids cums' ctxs' cum_len;
      Ok (set_text c tok_comp_text :: rest)
  | _, _ => Ok ctxs
  end.

Definition compress_tokens (batch_scores : list (list npfloat))
    (batch_token_ids : list (list Z)) (ctxs : list ctx) (token_lamb : Qc)
    : result (list ctx) :=
  let len_ctxs := map length batch_scores in
  scores ← np_concatenate batch_scores;
  ids ← np_concatenate batch_token_ids;
  n_targets ← target_len (length scores) token_lamb;
  token_loop (sorted_target_indices scores n_targets) ids (cum_len_list len_ctxs) ctxs 0.

End Tokens.

(** ** A concrete instance of the external libraries, for the examples

    One token per character in both tokenizers (the token id is the
    character code), a sentence ends at each full stop, the float power
    is the identity (the case [pow = 1]), and the arrays are arrays of
    doubles. *)

Module Demo.

Definition encode (s : string) : list Z :=
  map (fun a => Z.of_nat (nat_of_ascii a)) (list_ascii_of_string s).

Definition decode (ids : list Z) : string :=
  string_of_list_ascii (map (fun t => ascii_of_nat (Z.to_nat t)) ids).

Fixpoint lstrip (s : string) : string :=
  match s with
  | String a s' => if Ascii.eqb a " "%char then lstrip s' else s
  | EmptyString => EmptyString
  end.

Fixpoint sentences_of (pieces : list string) : list string :=
  match pieces with
  | [] => []
  | [w] => if String.eqb (lstrip w) EmptyString then [] else [lstrip w]
  | w :: ws => (lstrip w +:+ ".") :: sentences_of ws
  end.

Definition split_sentences (s : string) : list string :=
  sentences_of (Py.split "." s).

Definition externals : Externals := {|
  tok_encode := encode;
  tok_decode := decode;
  gpt_len := String.length;
  sent_tokenize := split_sentences;
  np_power := fun x _ => x;
  np_divide := F64.divide;
  np_multiply := F64.mul;
  np_sum := F64.sum;
|}.

(** [a/b] as a score. *)
Definition score (a b : Z) : npfloat := Real (Q2Qc (Qmake a (Z.to_pos b))).

Definition passage (n : Z) (t : string) : ctx :=
  mk_ctx t (Some "T") n None "0-0".

Definition cfg (mode question_mode : string) (sort by_sent : bool) : args :=
  mk_args sort mode question_mode true "nq" by_sent.

(** The main loop of sentence selection set up for the single passage
    ["Aa. Bb."] with a budget larger than the passage. *)
Definition one_passage_env (constraint : bool) : sent_env :=
  let c := passage 1 "Aa. Bb." in
  let sents := split_sentences (text c) in
  let ids := encode (text c) in
  let sc := map (fun t => score t 100) ids in
  mk_sent_env 100 constraint [sc] [ids] [sents] [split_token_ctx c sents]
    [pool_sentences (H := externals) sc ids sents]
    (dict_of [(0, 0%nat)]) (dict_of [(0, 0%nat)]).

Definition one_passage_state : sent_state :=
  mk_sent_state 0 [100] [] ∅ ∅ [passage 1 "Aa. Bb."].

(** A row of the scoring model for a passage: the question and the title,
    the pattern, the content, the end-of-sequence marker and padding; and
    scores for it, [content_scores] (in hundredths) on the content. *)
Definition token_row (txt : string) : list Z :=
  encode ("question: q title: T" +:+ "context:" +:+ txt) ++ [1; 0; 0].

Definition score_row (content_scores : list Z) : list npfloat :=
  map (fun _ => score 1 100) (encode ("question: q title: T" +:+ "context:"))
  ++ map (fun z => score z 100) content_scores ++ [score 1 100; NP.zero; NP.zero].

(** The three stages chained the way their arguments are named. The driver
    that calls them is not part of the module. *)
Definition pipeline (a : args) (batch_scores : list (list npfloat))
    (batch_token_ids : list (list Z)) (ctxs : list ctx) (ctx_comp_len : Z)
    (ctx_score_cumsum : option Qc) (question pattern_str : string)
    (sent_comp_len : Z) (constraint_1_sent : bool) (token_lamb : Qc)
    : result (list ctx) :=
  s ← compress_contexts (H := externals) a batch_scores batch_token_ids ctxs
        ctx_comp_len ctx_score_cumsum question pattern_str;
  '(new_scores, new_token_ids, ctxs) ←
    compress_sentences (H := externals) (batch_scores_selected s)
      (batch_token_ids_selected s) (ctxs_selected s) (map Z.of_nat (ctx_indices s))
      sent_comp_len false question pattern_str (Real 1%Qc) constraint_1_sent;
  compress_tokens (H := externals) new_scores new_token_ids ctxs token_lamb.

Definition two_passages : list ctx :=
  [passage 1 "Aa. Bb. Cc."; passage 2 "Dd. Ee."].

Definition two_score_rows : list (list npfloat) :=
  [score_row [5; 5; 5; 5; 1; 1; 1; 1; 9; 9; 9]; score_row [20; 20; 20; 20; 70; 70; 70]].

Definition two_token_rows : list (list Z) :=
  [token_row "Aa. Bb. Cc."; token_row "Dd. Ee."].

End Demo.

(** ** The helpers of the response scripts

    [chunks] and (for the Llama-2 script) [format_chat_prompt] of
    [scripts/get_qa_responses_from_*.py]. *)

Module Scripts.

(** [list(range(start, stop, step))]; a zero step raises [ValueError], which
    is [None] here. The number of elements is the one CPython computes. *)
Definition range (start stop step : Z) : option (list Z) :=
  if step =? 0 then None
  else
    let n :=
      if 0 <? step
      then (if start <? stop then (stop - start - 1) / step + 1 else 0)
      else (if stop <? start then (start - stop - 1) / (- step) + 1 else 0) in
    Some (map (fun k => start + Z.of_nat k * step) (seq 0 (Z.to_nat n))).

(** [list(chunks(lst, n))] *)
Definition chunks {A} (lst : list A) (n : Z) : option (list (list A)) :=
  starts ← range 0 (Z.of_nat (length lst)) n;
  Some (map (fun i => Py.slice lst (Some i) (Some (i + n))) starts).

Definition DEFAULT_SYSTEM_PROMPT : string :=
  "You are a helpful, respectful and honest assistant. "
  +:+ "Always answer as helpfully as possible, while being safe. "
  +:+ "Please ensure that your responses are socially unbiased and positive in nature. "
  +:+ "If a question does not make any sense, or is not factually coherent, explain "
  +:+ "why instead of answering something not correct. If you don't know the answer "
  +:+ "to a question, please don't share false information.".

(** [format_chat_prompt] of the Llama-2 script. *)
Definition format_chat_prompt (message : string) : string :=
  Py.join nl ["<s>[INST] <<SYS>>"; DEFAULT_SYSTEM_PROMPT; "<</SYS>>"; EmptyString;
              message +:+ " [/INST]"].

End Scripts.

(** ** [gini]

    [np.abs(np.subtract.outer(x, x)).mean()], divided by [np.mean(x)] and
    halved. *)

Definition np_sub (a b : npfloat) : npfloat := NP.add a (NP.neg b).

Definition np_abs (a : npfloat) : npfloat :=
  match a with
  | Real q => Real (if bool_decide (0 <= q)%Qc then q else - q)%Qc
  | PosInf | NegInf => PosInf
  | NaN => NaN
  end.

(** [np.subtract.outer(x, y)], row by row. *)
Definition subtract_outer (x y : list npfloat) : list (list npfloat) :=
  map (fun a => map (fun b => np_sub a b) y) x.

Definition gini (x : list npfloat) : npfloat :=
  let mean_absolute_diff := NP.mean (map np_abs (concat (subtract_outer x x))) in
  let relative_mean_absolute_diff := NP.div mean_absolute_diff (NP.mean x) in
  NP.mul (Real (Q2Qc (1 # 2))) relative_mean_absolute_diff.

(** ** Vocabulary of the specification

    The specification's error [InvalidConfiguration] is the [ValueError] the
    code raises for an unknown mode string. *)

Definition valid_question_mode (question_mode : string) : Prop :=
  question_mode = "include" \/ question_mode = "exclude".

Definition valid_mode (mode : string) : Prop :=
  mode = "mean" \/ mode = "max" \/ mode = "sum".

Definition raises_invalid_configuration {A} (r : result A) : Prop :=
  r = Err InvalidQuestionMode \/ r = Err InvalidMode.

Definition nonzero (s : npfloat) : Prop := NP.ne0 s = true.

(** The compression budget still to be met by a list of ranks: what their
    positive entries of [comp_len_per_ctx] add up to. *)
Definition pos_sum (comp_lens : list Z) : Z :=
  foldr (fun x acc => Z.max 0 x + acc) 0 comp_lens.


(** How one entry may change when an excess is taken off the budgets. *)
Definition lowered (x x' : Z) : Prop :=
  x' <= x /\ (x <= 0 -> x' = x) /\ (0 < x -> 0 <= x').

(** [i] comes no later than [j] in the order of the scores [a]. *)
Definition score_le (a : list npfloat) (i j : nat) : Prop :=
  exists x y, a !! i = Some x /\ a !! j = Some y /\ NP.sort_le x y = true.

(** What one turn of the main loop can do to the passage it visits. *)
Inductive step_outcome (e : sent_env) (st st' : sent_state) (i : nat) (c : ctx)
    (ps : list pooled) : Prop :=
  | no_score_slot :
      ps = [] ->
      ctx_removal_indices st' = ctx_removal_indices st ++ [i] ->
      st_ctxs st' = st_ctxs st ->
      step_outcome e st st' i c ps
  | kept_unmodified :
      ps <> [] ->
      ctx_removal_indices st' = ctx_removal_indices st ->
      st_ctxs st' = st_ctxs st ->
      step_outcome e st st' i c ps
  | all_dropped :
      ps <> [] ->
      constraint_1_sent e = false ->
      ctx_removal_indices st' = ctx_removal_indices st ++ [i] ->
      st_ctxs st' = st_ctxs st ->
      step_outcome e st st' i c ps
  | sentences_selected (r : Z) (k : nat) (split_tokens sents0 : list string)
      (txt : string) :
      ps <> [] ->
      (k < length ps)%nat ->
      (constraint_1_sent e = true -> r + 1 = Z.of_nat (length ps) ->
       k = (length ps - 1)%nat) ->
      split_token_ctxs e !! i = Some split_tokens ->
      sents_list e !! i = Some sents0 ->
      rebuild_text split_tokens
        (if (length ps =? length sents0)%nat then sents0
         else Py.slice sents0 None (Some (Z.of_nat (length ps))))
        (Py.sorted_nat (drop k (NP.argsort (map sent_mean_score ps))))
        (if (length ps =? length sents0)%nat then None
         else Some (Py.slice sents0 (Some (Z.of_nat (length ps))) None)) = Ok txt ->
      ctx_removal_indices st' = ctx_removal_indices st ->
      st_ctxs st' = <[i := set_text c txt]> (st_ctxs st) ->
      step_outcome e st st' i c ps.

(** The sum of a list of lengths. *)
Definition sum_Z (lens : list Z) : Z := foldr Z.add 0 lens.

(** ** Closed forms

    What some loops of the module compute, written without their state. *)

(** The passages of a long-document prompt, each after its separator: a
    blank when the passage has the same id head as the one before it, a
    newline otherwise. [prev] is the id head of the passage before. *)
Fixpoint longbench_body (prev : option string) (ctxs : list ctx) : string :=
  match ctxs with
  | [] => EmptyString
  | c :: rest =>
      let head := default EmptyString (head (Py.split "-" (ctx_id c))) in
      (if bool_decide (Some head = prev) then " " else nl)
      +:+ text c +:+ longbench_body (Some head) rest
  end.

(** The sentences after [prev_sent] are found one after the other in what
    is left of the text: the searches of the separator loop all succeed. *)
Fixpoint sentences_found (ctx_text prev_sent : string) (rest : list string) : Prop :=
  match rest with
  | [] => True
  | cur_sent :: rest' =>
      let len_prev_sent := Z.of_nat (String.length prev_sent) in
      let j := Py.find (Py.str_slice ctx_text (Some len_prev_sent) None) cur_sent in
      0 <= j
      /\ sentences_found (Py.str_slice ctx_text (Some (len_prev_sent + j)) None)
           cur_sent rest'
  end.

(** Two blanks side by side somewhere in the string. *)
Fixpoint double_space (s : string) : bool :=
  match s with
  | String a s' =>
      match s' with
      | String b _ =>
          (Ascii.eqb a " "%char && Ascii.eqb b " "%char) || double_space s'
      | EmptyString => false
      end
  | EmptyString => false
  end.

(** * Properties *)

(** ** The error monad *)

Lemma bind_Ok {A B} (m : result A) (k : A -> result B) (b : B) :
  m ≫= k = Ok b -> exists a, m = Ok a /\ k a = Ok b.
Proof. destruct m as [a|e]; simpl; [eauto | discriminate]. Qed.

Lemma bind_Err {A B} (m : result A) (k : A -> result B) (e : py_error) :
  m ≫= k = Err e -> m = Err e \/ exists a, m = Ok a /\ k a = Err e.
Proof. destruct m as [a|e']; simpl; [eauto | intros [= ->]; auto]. Qed.

(** Splits a hypothesis [x ← m; k = Ok b] into its two runs. *)
Ltac inv_bind H :=
  let a := fresh "a" in
  let Ha := fresh "Hrun" in
  apply bind_Ok in H; destruct H as (a & Ha & H).

Tactic Notation "bind_inv" hyp(H) "as" simple_intropattern(a) ident(Ha) :=
  apply bind_Ok in H; destruct H as (a & Ha & H).

Lemma of_option_Ok {A} e (o : option A) a : of_option e o = Ok a <-> o = Some a.
Proof. destruct o; simpl; split; congruence. Qed.

Lemma getitem_Ok {A} (l : list A) i a : getitem l i = Ok a <-> l !! i = Some a.
Proof. apply of_option_Ok. Qed.

Lemma getitem_lt {A} (l : list A) i :
  (i < length l)%nat -> exists a, getitem l i = Ok a /\ l !! i = Some a.
Proof.
  intros Hi. destruct (lookup_lt_is_Some_2 l i Hi) as [a Ha].
  exists a. split; [by apply getitem_Ok | done].
Qed.

Lemma rmap_Ok_length {A B} (f : A -> result B) l bs :
  rmap f l = Ok bs -> length bs = length l.
Proof.
  revert bs. induction l as [|a l IH]; simpl; intros bs Hr.
  - by injection Hr as <-.
  - inv_bind Hr. inv_bind Hr. injection Hr as <-. simpl. f_equal. eauto.
Qed.


Lemma rmap_total {A B} (f : A -> result B) l :
  Forall (fun a => exists b, f a = Ok b) l -> exists bs, rmap f l = Ok bs.
Proof.
  induction 1 as [|a l [b Hb] _ [bs Hbs]]; simpl; [eauto|].
  rewrite Hb. simpl. rewrite Hbs. simpl. eauto.
Qed.

Lemma rmap_ext {A B} (f g : A -> result B) l :
  Forall (fun a => f a = g a) l -> rmap f l = rmap g l.
Proof. induction 1 as [|a l Ha _ IH]; simpl; [done|]. by rewrite Ha, IH. Qed.

Lemma rmap_fmap {A B C} (f : B -> result C) (g : A -> B) l :
  rmap f (map g l) = rmap (fun a => f (g a)) l.
Proof. induction l as [|a l IH]; simpl; [done|]. by rewrite IH. Qed.

Lemma rmap_Ok_map {A B} (f : A -> B) l : rmap (fun a => Ok (f a)) l = Ok (map f l).
Proof. induction l as [|a l IH]; simpl; [done|]. by rewrite IH. Qed.

(** ** Sorting *)

Section SortFacts.
Context {A : Type} (le : A -> A -> bool).

Lemma insert_sorted_perm x l : Py.insert_sorted le x l ≡ₚ x :: l.
Proof.
  induction l as [|y l IH]; simpl; [done|].
  destruct (le x y); [done|]. rewrite IH. apply Permutation_swap.
Qed.

Lemma sort_by_perm l : Py.sort_by le l ≡ₚ l.
Proof.
  induction l as [|x l IH]; simpl; [done|].
  rewrite insert_sorted_perm. by f_equiv.
Qed.

Hypothesis le_total : forall x y, le x y = true \/ le y x = true.
Hypothesis le_trans : forall x y z, le x y = true -> le y z = true -> le x z = true.

Lemma insert_sorted_sorted x l :
  StronglySorted (fun a b => le a b = true) l ->
  StronglySorted (fun a b => le a b = true) (Py.insert_sorted le x l).
Proof.
  induction 1 as [|y l Hs IH Hy]; simpl.
  - repeat constructor.
  - destruct (le x y) eqn:Hxy.
    + constructor; [by constructor|].
      constructor; [done|]. eapply Forall_impl; [exact Hy|]. simpl. eauto.
    + constructor; [done|].
      rewrite insert_sorted_perm. constructor; [|done].
      destruct (le_total x y); congruence.
Qed.

Lemma sort_by_sorted l : StronglySorted (fun a b => le a b = true) (Py.sort_by le l).
Proof.
  induction l as [|x l IH]; simpl; [constructor|]. by apply insert_sorted_sorted.
Qed.
End SortFacts.

Lemma StronglySorted_mono {A} (R S : A -> A -> Prop) l :
  (forall x y, R x y -> S x y) -> StronglySorted R l -> StronglySorted S l.
Proof.
  intros HRS. induction 1 as [|x l _ IH Hx]; constructor; [done|].
  eapply Forall_impl; [exact Hx | auto].
Qed.

Lemma sorted_nat_perm l : Py.sorted_nat l ≡ₚ l.
Proof. apply sort_by_perm. Qed.

Lemma sorted_nat_sorted l : StronglySorted le (Py.sorted_nat l).
Proof.
  eapply StronglySorted_mono; [|apply (sort_by_sorted Nat.leb)].
  - intros x y Hxy. by apply Nat.leb_le.
  - intros x y. rewrite !Nat.leb_le. lia.
  - intros x y z. rewrite !Nat.leb_le. lia.
Qed.

Lemma sorted_nat_NoDup_lt l : NoDup l -> StronglySorted lt (Py.sorted_nat l).
Proof.
  intros Hnd. pose proof (sorted_nat_sorted l) as Hs.
  assert (NoDup (Py.sorted_nat l)) as Hnd' by by rewrite sorted_nat_perm.
  induction Hs as [|x l' Hs IH Hx]; [constructor|].
  apply NoDup_cons in Hnd' as [Hnx Hnd'].
  constructor; [by apply IH|].
  apply Forall_forall. intros y Hy.
  eapply Forall_forall in Hx; [|exact Hy].
  assert (x <> y) by (intros ->; done). lia.
Qed.

(** ** Slices *)

Lemma norm_bound_nat len (n : nat) : Py.norm_bound len (Z.of_nat n) = Nat.min len n.
Proof.
  unfold Py.norm_bound. destruct (Z.ltb_spec (Z.of_nat n) 0); [lia|].
  by rewrite Nat2Z.id.
Qed.

Lemma slice_all {A} (l : list A) : Py.slice l None None = l.
Proof. unfold Py.slice. rewrite Nat.sub_0_r. apply firstn_all. Qed.

Lemma slice_from {A} (l : list A) (a : nat) :
  Py.slice l (Some (Z.of_nat a)) None = drop a l.
Proof.
  unfold Py.slice. rewrite norm_bound_nat.
  destruct (Nat.le_gt_cases (length l) a) as [Hle|Hgt].
  - rewrite Nat.min_l by lia. rewrite Nat.sub_diag. simpl.
    by rewrite !drop_ge by lia.
  - rewrite Nat.min_r by lia. apply take_ge. rewrite length_drop. lia.
Qed.

Lemma slice_to {A} (l : list A) (b : nat) :
  Py.slice l None (Some (Z.of_nat b)) = take b l.
Proof.
  unfold Py.slice. rewrite norm_bound_nat, Nat.sub_0_r, drop_0.
  destruct (Nat.le_gt_cases (length l) b) as [Hle|Hgt].
  - rewrite Nat.min_l by lia. by rewrite !take_ge by lia.
  - by rewrite Nat.min_r by lia.
Qed.

Lemma slice_between {A} (l : list A) (a b : nat) :
  Py.slice l (Some (Z.of_nat a)) (Some (Z.of_nat b)) = take (b - a) (drop a l).
Proof.
  unfold Py.slice. rewrite !norm_bound_nat.
  destruct (Nat.le_gt_cases (length l) a) as [Hle|Hgt].
  - rewrite (Nat.min_l _ a) by lia. by rewrite !drop_ge, !take_nil by lia.
  - rewrite (Nat.min_r _ a) by lia.
    destruct (Nat.le_gt_cases (length l) b) as [Hle'|Hgt'].
    + rewrite Nat.min_l by lia. rewrite !take_ge; [done| |]; rewrite length_drop; lia.
    + by rewrite Nat.min_r by lia.
Qed.

Lemma slice_drop_last {A} (l : list A) : Py.slice l None (Some (-1)) = removelast l.
Proof.
  unfold Py.slice, Py.norm_bound. simpl. rewrite Nat.sub_0_r, drop_0.
  destruct l as [|x l _] using rev_ind; [done|].
  rewrite removelast_last, length_app. simpl.
  replace (Z.to_nat (Z.max 0 (Z.of_nat (length l + 1) + -1))) with (length l) by lia.
  by rewrite take_app_length.
Qed.

(** ** Rounding to a double

    What the proofs need of [F64.round]: it is nearest, so it does not
    cross an integer that is a double, and under [2^52] it does not reach
    the integer above a quotient. *)

Lemma binade_lower n d :
  0 < n -> 0 < d ->
  let E := F64.binade n d in
  (0 <= E -> 2 ^ E * d <= n) /\ (E < 0 -> d <= 2 ^ (- E) * n).
Proof.
  intros Hn Hd E. subst E. unfold F64.binade.
  pose proof (Z.log2_spec n Hn) as [Hn1 Hn2].
  pose proof (Z.log2_spec d Hd) as [Hd1 Hd2].
  pose proof (Z.log2_nonneg n) as Hln. pose proof (Z.log2_nonneg d) as Hld.
  set (ln := Z.log2 n) in *. set (ld := Z.log2 d) in *.
  destruct (Z.leb_spec 0 (ln - ld)) as [He|He].
  - destruct (Z.leb_spec (2 ^ (ln - ld) * d) n) as [Ht|Ht].
    + split; [done | lia].
    + destruct (Z.eq_dec (ln - ld) 0) as [H0|H0].
      * replace (ln - ld - 1) with (-1) by lia. split; [lia|]. intros _.
        replace (- -1) with 1 by lia. replace ld with ln in * by lia.
        rewrite Z.pow_succ_r in Hd2 by lia. lia.
      * split; [|lia]. intros _.
        assert (2 ^ (ln - ld - 1) * 2 ^ (ld + 1) = 2 ^ ln) as Hp
          by (rewrite <- Z.pow_add_r by lia; f_equal; lia).
        assert (0 < 2 ^ (ln - ld - 1)) by (apply Z.pow_pos_nonneg; lia).
        nia.
  - destruct (Z.leb_spec d (2 ^ (- (ln - ld)) * n)) as [Ht|Ht].
    + split; [lia | done].
    + split; [lia|]. intros _.
      assert (2 ^ (- (ln - ld - 1)) * 2 ^ ln = 2 ^ (ld + 1)) as Hp
        by (rewrite <- Z.pow_add_r by lia; f_equal; lia).
      assert (0 < 2 ^ (- (ln - ld - 1))) by (apply Z.pow_pos_nonneg; lia).
      nia.
Qed.

Lemma rne_bounds N D :
  0 < D ->
  (forall c, c * D <= N -> c <= F64.rne N D) /\ (forall c, N <= c * D -> F64.rne N D <= c).
Proof.
  intros HD. unfold F64.rne.
  pose proof (Z.div_mod N D ltac:(lia)) as Hdm.
  pose proof (Z.mod_pos_bound N D HD) as Hr.
  set (q := N / D) in *. set (r := N mod D) in *.
  assert (forall c, c * D <= N -> c <= q) as Hlo by (intros c Hc; nia).
  assert (forall c, N <= c * D -> 0 < r -> q + 1 <= c) as Hhi by (intros c Hc Hpos; nia).
  assert (forall c, N <= c * D -> q <= c) as Hhi0 by (intros c Hc; nia).
  split; intros c Hc.
  - specialize (Hlo c Hc). destruct (2 * r ?= D); [destruct (Z.even q)|..]; lia.
  - destruct (Z.compare_spec (2 * r) D) as [He|Hl|Hg].
    + destruct (Z.even q); [by apply Hhi0 | apply Hhi; [done | lia]].
    + by apply Hhi0.
    + apply Hhi; [done | lia].
Qed.

Lemma Qc_Z_le_iff (k : Z) (a : Z) (b : positive) :
  (Q2Qc (inject_Z k) <= Q2Qc (Qmake a b))%Qc <-> k * Zpos b <= a.
Proof.
  unfold Qcle. cbn [this Q2Qc]. rewrite !Qred_correct.
  unfold Qle, inject_Z. cbn [Qnum Qden]. lia.
Qed.

Lemma Qc_le_Z_iff (k : Z) (a : Z) (b : positive) :
  (Q2Qc (Qmake a b) <= Q2Qc (inject_Z k))%Qc <-> a <= k * Zpos b.
Proof.
  unfold Qcle. cbn [this Q2Qc]. rewrite !Qred_correct.
  unfold Qle, inject_Z. cbn [Qnum Qden]. lia.
Qed.

Lemma scale_ge k m e :
  (if 0 <=? e then k <= m * 2 ^ e else k * 2 ^ (- e) <= m) ->
  (Q2Qc (inject_Z k) <= F64.scale m e)%Qc.
Proof.
  unfold F64.scale. destruct (Z.leb_spec 0 e) as [He|He]; intros Hk.
  - apply Qc_Z_le_iff. lia.
  - apply Qc_Z_le_iff. rewrite Z2Pos.id by (apply Z.pow_pos_nonneg; lia). done.
Qed.

Lemma scale_le k m e :
  (if 0 <=? e then m * 2 ^ e <= k else m <= k * 2 ^ (- e)) ->
  (F64.scale m e <= Q2Qc (inject_Z k))%Qc.
Proof.
  unfold F64.scale. destruct (Z.leb_spec 0 e) as [He|He]; intros Hk.
  - apply Qc_le_Z_iff. lia.
  - apply Qc_le_Z_iff. rewrite Z2Pos.id by (apply Z.pow_pos_nonneg; lia). done.
Qed.

Lemma denom_pos d e : 0 < d -> 0 < F64.denom d e.
Proof.
  intros Hd. unfold F64.denom. destruct (Z.leb_spec 0 e); [|done].
  apply Z.mul_pos_pos; [done | by apply Z.pow_pos_nonneg].
Qed.

Lemma round_pos_lower n d k :
  0 < n -> 0 < d -> 0 <= k <= 2 ^ 53 -> k * d <= n ->
  F64.round_pos n d = PosInf
  \/ exists r, F64.round_pos n d = Real r /\ (Q2Qc (inject_Z k) <= r)%Qc.
Proof.
  intros Hn Hd Hk Hle. unfold F64.round_pos.
  set (e := Z.max (F64.binade n d - 52) (-1074)).
  set (m := F64.rne (F64.numer n e) (F64.denom d e)).
  destruct (2 ^ 1024 <=? m * 2 ^ e); [by left|]. right.
  eexists. split; [reflexivity|]. apply scale_ge.
  destruct (rne_bounds (F64.numer n e) (F64.denom d e) (denom_pos d e Hd)) as [Hlo _].
  fold m in Hlo. unfold F64.numer, F64.denom in Hlo.
  destruct (binade_lower n d Hn Hd) as [Hb _].
  destruct (Z.leb_spec 0 e) as [He|He].
  - destruct (Z.eq_dec e 0) as [He0|He0].
    + rewrite He0 in *. rewrite Z.pow_0_r, Z.mul_1_r in *. apply Hlo. lia.
    + assert (e = F64.binade n d - 52) as Hee by lia.
      assert (2 ^ F64.binade n d = 2 ^ 52 * 2 ^ e) as Hp
        by (rewrite <- Z.pow_add_r by lia; f_equal; lia).
      assert (2 ^ 52 <= m) as Hm by (apply Hlo; rewrite Z.mul_comm; nia).
      assert (2 ^ 1 <= 2 ^ e) by (apply Z.pow_le_mono_r; lia).
      change (2 ^ 53) with (2 ^ 52 * 2 ^ 1) in Hk. nia.
  - apply Hlo. assert (0 < 2 ^ (- e)) by (apply Z.pow_pos_nonneg; lia). nia.
Qed.

Lemma round_pos_upper n d k :
  0 < n -> 0 < d -> 0 <= k <= 2 ^ 53 -> n <= k * d ->
  exists r, F64.round_pos n d = Real r /\ (r <= Q2Qc (inject_Z k))%Qc.
Proof.
  intros Hn Hd Hk Hle. unfold F64.round_pos.
  set (e := Z.max (F64.binade n d - 52) (-1074)).
  set (m := F64.rne (F64.numer n e) (F64.denom d e)).
  destruct (rne_bounds (F64.numer n e) (F64.denom d e) (denom_pos d e Hd)) as [Hlo Hhi].
  fold m in Hlo, Hhi. unfold F64.numer, F64.denom in Hlo, Hhi.
  destruct (binade_lower n d Hn Hd) as [Hb _].
  assert (if 0 <=? e then m * 2 ^ e <= k else m <= k * 2 ^ (- e)) as Hm.
  { destruct (Z.leb_spec 0 e) as [He|He].
    - destruct (Z.eq_dec e 0) as [He0|He0].
      + rewrite He0 in *. rewrite Z.pow_0_r, Z.mul_1_r in *.
        apply Hhi. lia.
      + assert (e = F64.binade n d - 52) as Hee by lia.
        assert (2 ^ F64.binade n d = 2 ^ 52 * 2 ^ e) as Hp
          by (rewrite <- Z.pow_add_r by lia; f_equal; lia).
        assert (2 ^ 1 <= 2 ^ e) as H2 by (apply Z.pow_le_mono_r; lia).
        change (2 ^ 53) with (2 ^ 52 * 2 ^ 1) in Hk.
        assert (2 ^ 52 * 2 ^ e * d <= n) as Hbn by (rewrite <- Hp; apply Hb; lia).
        assert (m <= 2 ^ 52) as Hm1 by (apply Hhi; nia).
        assert (e = 1 /\ k = 2 ^ 52 * 2 ^ 1) as [-> ->].
        { assert (2 ^ e <= 2 ^ 1) by nia.
          assert (e <= 1) by (apply (Z.pow_le_mono_r_iff 2); lia).
          assert (e = 1) as -> by lia. split; [done | nia]. }
        nia.
    - apply Hhi. assert (0 < 2 ^ (- e)) by (apply Z.pow_pos_nonneg; lia). nia. }
  assert ((2 ^ 1024 <=? m * 2 ^ e) = false) as ->.
  { apply Z.leb_gt. destruct (Z.leb_spec 0 e) as [He|He].
    - assert (2 ^ 53 < 2 ^ 1024) by (apply Z.pow_lt_mono_r; lia). lia.
    - rewrite (Z.pow_neg_r 2 e) by lia. rewrite Z.mul_0_r.
      apply Z.pow_pos_nonneg; lia. }
  eexists. split; [reflexivity|]. by apply scale_le.
Qed.

Lemma Qc_Z_le (k : Z) (q : Qc) :
  (Q2Qc (inject_Z k) <= q)%Qc <-> k * Zpos (Qden q) <= Qnum q.
Proof.
  unfold Qcle. cbn [this Q2Qc]. rewrite Qred_correct.
  unfold Qle, inject_Z. cbn [Qnum Qden]. lia.
Qed.

Lemma Qc_le_Z (k : Z) (q : Qc) :
  (q <= Q2Qc (inject_Z k))%Qc <-> Qnum q <= k * Zpos (Qden q).
Proof.
  unfold Qcle. cbn [this Q2Qc]. rewrite Qred_correct.
  unfold Qle, inject_Z. cbn [Qnum Qden]. lia.
Qed.

Lemma Qc_lt_Z (k : Z) (q : Qc) :
  (q < Q2Qc (inject_Z k))%Qc <-> Qnum q < k * Zpos (Qden q).
Proof.
  unfold Qclt. cbn [this Q2Qc]. rewrite Qred_correct.
  unfold Qlt, inject_Z. cbn [Qnum Qden]. lia.
Qed.

Lemma round_lower (q : Qc) (k : Z) :
  0 <= k <= 2 ^ 53 -> (Q2Qc (inject_Z k) <= q)%Qc ->
  F64.round q = PosInf \/ exists r, F64.round q = Real r /\ (Q2Qc (inject_Z k) <= r)%Qc.
Proof.
  intros Hk Hq. apply Qc_Z_le in Hq. unfold F64.round.
  destruct (Qnum q) as [|n|n] eqn:Hnum.
  - right. exists 0%Qc. split; [done|]. apply Qc_Z_le. simpl. nia.
  - apply round_pos_lower; [done | done | done | done].
  - nia.
Qed.

Lemma round_upper (q : Qc) (k : Z) :
  0 <= k <= 2 ^ 53 -> (0 <= q)%Qc -> (q <= Q2Qc (inject_Z k))%Qc ->
  exists r, F64.round q = Real r /\ (0 <= r)%Qc /\ (r <= Q2Qc (inject_Z k))%Qc.
Proof.
  intros Hk H0 Hq.
  destruct (round_lower q 0 ltac:(lia) H0) as [Hinf|(r0 & Hr0 & Hge)].
  - apply Qc_le_Z in Hq. apply (Qc_Z_le 0) in H0. unfold F64.round in *.
    destruct (Qnum q) as [|n|n] eqn:Hnum; [done| |lia].
    destruct (round_pos_upper (Zpos n) (Zpos (Qden q)) k) as (r & Hr & _); [done..|].
    congruence.
  - apply Qc_le_Z in Hq. apply (Qc_Z_le 0) in H0. unfold F64.round in *.
    destruct (Qnum q) as [|n|n] eqn:Hnum.
    + injection Hr0 as <-. exists 0%Qc. split; [done|]. split; [done|].
      apply Qc_le_Z. simpl. nia.
    + destruct (round_pos_upper (Zpos n) (Zpos (Qden q)) k) as (r & Hr & Hle); [done..|].
      exists r. split; [done|]. split; [|done].
      assert (r = r0) as -> by congruence. exact Hge.
    + lia.
Qed.

Lemma Qc_Z_mono (a b : Z) : a <= b -> (Q2Qc (inject_Z a) <= Q2Qc (inject_Z b))%Qc.
Proof. intros Hab. apply (Qc_Z_le_iff a b 1). lia. Qed.

Lemma round_Z (k : Z) :
  0 <= k <= 2 ^ 53 -> F64.round (Q2Qc (inject_Z k)) = Real (Q2Qc (inject_Z k)).
Proof.
  intros Hk.
  destruct (round_upper (Q2Qc (inject_Z k)) k Hk) as (r & Hr & _ & Hle).
  { apply (Qc_Z_mono 0 k). lia. }
  { apply Qcle_refl. }
  destruct (round_lower (Q2Qc (inject_Z k)) k Hk (Qcle_refl _)) as [Hinf|(r' & Hr' & Hge)];
    [congruence|].
  rewrite Hr. f_equal. apply Qcle_antisym; [done|]. congruence.
Qed.

Lemma scale_lt k m e :
  (if 0 <=? e then m * 2 ^ e < k else m < k * 2 ^ (- e)) ->
  (F64.scale m e < Q2Qc (inject_Z k))%Qc.
Proof.
  unfold F64.scale. destruct (Z.leb_spec 0 e) as [He|He]; intros Hk.
  - unfold Qclt. cbn [this Q2Qc]. rewrite !Qred_correct.
    unfold Qlt, inject_Z. cbn [Qnum Qden]. lia.
  - unfold Qclt. cbn [this Q2Qc]. rewrite !Qred_correct.
    unfold Qlt, inject_Z. cbn [Qnum Qden].
    rewrite Z2Pos.id by (apply Z.pow_pos_nonneg; lia). lia.
Qed.

(** Below [2^52] the doubles are closer to each other than the fractions
    of a given denominator are to the next integer: rounding a quotient
    does not reach the integer above it. *)
Lemma round_pos_floor n d :
  0 < n <= 2 ^ 52 -> 0 < d ->
  exists r, F64.round_pos n d = Real r
            /\ (Q2Qc (inject_Z (n / d)) <= r)%Qc
            /\ (r < Q2Qc (inject_Z (n / d + 1)))%Qc.
Proof.
  intros Hn Hd.
  pose proof (Z.div_mod n d ltac:(lia)) as Hdm.
  pose proof (Z.mod_pos_bound n d Hd) as Hmod.
  assert (0 <= n / d) as Hk0 by (apply Z.div_pos; lia).
  assert (n / d <= 2 ^ 52) as Hk1 by nia.
  assert (2 ^ 52 + 1 <= 2 ^ 53) as H53 by (change (2 ^ 53) with (2 ^ 52 * 2); lia).
  destruct (round_pos_upper n d (n / d + 1)) as (r & Hr & _); [lia | done | lia | nia |].
  exists r. split; [done|]. split.
  { destruct (round_pos_lower n d (n / d)) as [Hinf|(r' & Hr' & Hge)];
      [lia | done | lia | nia | congruence |].
    assert (r = r') as -> by congruence. done. }
  revert Hr. unfold F64.round_pos.
  set (e := Z.max (F64.binade n d - 52) (-1074)).
  set (m := F64.rne (F64.numer n e) (F64.denom d e)).
  destruct (2 ^ 1024 <=? m * 2 ^ e); [done|]. intros [= <-].
  apply scale_lt.
  destruct (rne_bounds (F64.numer n e) (F64.denom d e) (denom_pos d e Hd)) as [_ Hhi].
  fold m in Hhi. unfold F64.numer, F64.denom in Hhi.
  destruct (binade_lower n d ltac:(lia) Hd) as [Hb Hb'].
  assert (F64.binade n d <= 52) as HE.
  { destruct (Z.le_gt_cases (F64.binade n d) 52) as [?|Hgt]; [done|].
    assert (2 ^ 53 <= 2 ^ F64.binade n d) by (apply Z.pow_le_mono_r; lia).
    specialize (Hb ltac:(lia)). nia. }
  destruct (Z.leb_spec 0 e) as [He|He].
  - assert (e = 0) as He0 by lia. rewrite He0 in *.
    rewrite Z.pow_0_r, Z.mul_1_r in *.
    assert (F64.binade n d = 52) as HE52 by lia. rewrite HE52 in Hb.
    specialize (Hb ltac:(lia)).
    assert (d = 1) as -> by nia.
    specialize (Hhi n). rewrite Z.div_1_r. lia.
  - assert (0 < 2 ^ (- e)) as HP by (apply Z.pow_pos_nonneg; lia).
    set (P := 2 ^ (- e)) in *.
    assert (~ F64.numer n e <= (m - 1) * d) as Hm.
    { intros Hle. unfold F64.numer in Hle.
      destruct (Z.leb_spec 0 e); [lia|]. fold P in Hle.
      specialize (Hhi (m - 1) Hle). lia. }
    unfold F64.numer in Hm. destruct (Z.leb_spec 0 e); [lia|]. fold P in Hm.
    destruct (Z.le_gt_cases d P) as [HdP|HdP].
    + nia.
    + assert (e = -1074 \/ e = F64.binade n d - 52) as [He1|He1] by lia.
      * assert (2 ^ 52 < P) as HP52
          by (subst P; rewrite He1; apply Z.pow_lt_mono_r; lia).
        assert (n / d = 0) as -> by (apply Z.div_small; lia).
        destruct (Z.le_gt_cases m 1) as [Hm1|Hm1]; [lia|]. nia.
      * exfalso. subst P. rewrite He1 in HdP.
        destruct (Z.le_gt_cases 0 (F64.binade n d)) as [HE0|HE0].
        -- specialize (Hb HE0).
           assert (2 ^ 52 = 2 ^ F64.binade n d * 2 ^ (- (F64.binade n d - 52))) as Hp
             by (rewrite <- Z.pow_add_r by lia; f_equal; lia).
           assert (0 < 2 ^ F64.binade n d) by (apply Z.pow_pos_nonneg; lia).
           nia.
        -- specialize (Hb' HE0).
           assert (2 ^ (- (F64.binade n d - 52)) = 2 ^ (- F64.binade n d) * 2 ^ 52) as Hp
             by (rewrite <- Z.pow_add_r by lia; f_equal; lia).
           assert (0 < 2 ^ (- F64.binade n d)) by (apply Z.pow_pos_nonneg; lia).
           nia.
Qed.

Lemma trunc_between (r : Qc) (k : Z) :
  0 <= k -> (Q2Qc (inject_Z k) <= r)%Qc -> (r < Q2Qc (inject_Z (k + 1)))%Qc ->
  NP.trunc r = k.
Proof.
  intros Hk Hlo Hhi. apply Qc_Z_le in Hlo. apply Qc_lt_Z in Hhi. unfold NP.trunc.
  rewrite Z.quot_div_nonneg by nia.
  symmetry. apply (Z.div_unique _ _ k (Qnum r - k * Zpos (Qden r))); lia.
Qed.

Lemma round_quotient (S nn : Z) :
  0 <= S <= 2 ^ 52 -> 0 < nn ->
  exists r, F64.round (Q2Qc (inject_Z S / inject_Z nn)) = Real r /\ NP.trunc r = S / nn.
Proof.
  intros HS Hnn.
  set (x := (inject_Z S / inject_Z nn)%Q).
  assert (S / nn = Qnum (Qred x) / Zpos (Qden (Qred x))) as Hfloor.
  { rewrite (Zdiv_Qdiv S nn). fold x. rewrite <- (Qfloor_comp _ _ (Qred_correct x)).
    by destruct (Qred x). }
  assert (Qnum (Qred x) * nn = S * Zpos (Qden (Qred x))) as Heq.
  { pose proof (Qred_correct x) as Hx. unfold Qeq in Hx. subst x.
    destruct nn as [|p|p]; [lia| |lia]. cbn in Hx. lia. }
  pose proof (gcd_Qred x) as Hgcd.
  unfold F64.round. cbn [this Q2Qc]. rewrite Hfloor.
  set (n := Qnum (Qred x)) in *. set (d := Qden (Qred x)) in *.
  destruct n as [|p|p] eqn:Hn.
  - exists 0%Qc. split; [done|]. rewrite Z.div_0_l by lia. reflexivity.
  - assert (Zpos p <= S) as HpS.
    { assert ((Zpos d | nn)) as [t Ht].
      { apply (Z.gauss _ (Zpos p)); [|by rewrite Z.gcd_comm].
        exists S. lia. }
      assert (0 < t) by nia. nia. }
    destruct (round_pos_floor (Zpos p) (Zpos d)) as (r & Hr & Hlo & Hhi); [lia | done |].
    exists r. split; [done|]. apply trunc_between; [|done..].
    apply Z.div_pos; lia.
  - assert (0 < Zpos d) by done. nia.
Qed.

(** ** Passage scores: zero entries and the end token (claim C10) *)

Lemma filter_nonzero_idemp (scores : list npfloat) :
  filter nonzero (filter nonzero scores) = filter nonzero scores.
Proof.
  induction scores as [|x l IH]; [done|].
  rewrite filter_cons. destruct (decide (nonzero x)) as [Hx|Hx]; [|done].
  rewrite filter_cons. destruct (decide (nonzero x)); [|done]. by rewrite IH.
Qed.

Lemma nonzero_part_eq (include_end_token : bool) (scores : list npfloat) :
  nonzero_part include_end_token scores =
  if include_end_token then filter nonzero scores
  else removelast (filter nonzero scores).
Proof.
  unfold nonzero_part. destruct include_end_token.
  - apply slice_all.
  - apply slice_drop_last.
Qed.

Lemma nonzero_part_filter iet scores :
  nonzero_part iet (filter nonzero scores) = nonzero_part iet scores.
Proof. unfold nonzero_part. fold nonzero. by rewrite filter_nonzero_idemp. Qed.

Lemma aggregate_filter mode iet scores :
  aggregate mode iet (filter nonzero scores) = aggregate mode iet scores.
Proof. unfold aggregate. by rewrite nonzero_part_filter. Qed.

Lemma elem_of_removelast {A} (x : A) l : x ∈ removelast l -> x ∈ l.
Proof.
  induction l as [|y l IH] using rev_ind; [done|].
  rewrite removelast_last. set_solver.
Qed.

(** C10: the aggregate of a passage reads only the non-zero entries of its
    score array. Every entry that reaches the aggregation is a non-zero
    entry of the array; the zero entries go first and the end token is cut
    after that, so it is the last non-zero entry that [include_end_token]
    decides on; the aggregate is the same on the array with its zeros taken
    out, and a zero put anywhere in the array changes nothing; and
    [get_ctx_scores] is this aggregate on every offset-adjusted array. *)
Theorem C10_aggregate_over_nonzero_entries `{Externals} :
  forall (mode : string) (include_end_token : bool) (scores : list npfloat),
    (forall x, x ∈ nonzero_part include_end_token scores -> nonzero x /\ x ∈ scores)
    /\ nonzero_part include_end_token scores =
         (if include_end_token then filter nonzero scores
          else removelast (filter nonzero scores))
    /\ aggregate mode include_end_token scores =
         aggregate mode include_end_token (filter nonzero scores)
    /\ (forall before after,
          aggregate mode include_end_token (before ++ NP.zero :: after) =
          aggregate mode include_end_token (before ++ after))
    /\ (forall batch_scores question_mode question titles pattern_str,
          get_ctx_scores batch_scores mode question_mode include_end_token
            question titles pattern_str =
          (l ← batch_scores_ctxs batch_scores question_mode question titles pattern_str;
           rmap (aggregate mode include_end_token) (map (filter nonzero) l))).
Proof.
  intros mode iet scores. split; [|split; [|split; [|split]]].
  - intros x. rewrite nonzero_part_eq. intros Hx.
    assert (x ∈ filter nonzero scores) as Hf
      by (destruct iet; [done | by apply elem_of_removelast]).
    by apply list_elem_of_filter in Hf.
  - apply nonzero_part_eq.
  - symmetry. apply aggregate_filter.
  - intros before after.
    rewrite <- (aggregate_filter _ _ (before ++ _)), <- (aggregate_filter _ _ (before ++ after)).
    f_equal. rewrite !filter_app, filter_cons.
    destruct (decide (nonzero NP.zero)) as [Hz|Hz]; [|done].
    by vm_compute in Hz.
  - intros bs qm q titles p. unfold get_ctx_scores.
    destruct (batch_scores_ctxs bs qm q titles p) as [l|e]; simpl; [|done].
    rewrite rmap_fmap. apply rmap_ext, Forall_forall. intros s _.
    symmetry. apply aggregate_filter.
Qed.

Lemma C10_witness :
  aggregate "mean" false [Demo.score 1 2; NP.zero; Demo.score 1 4; NP.zero] =
  aggregate "mean" false [Demo.score 1 2; Demo.score 1 4]
  /\ aggregate "mean" false [Demo.score 1 2; NP.zero; Demo.score 1 4; NP.zero] =
     Ok (Demo.score 1 2).
Proof.
  split.
  - pose proof (C10_aggregate_over_nonzero_entries (H := Demo.externals) "mean" false
                  [Demo.score 1 2; NP.zero; Demo.score 1 4; NP.zero]) as (_ & _ & Hagg & _).
    rewrite Hagg. reflexivity.
  - reflexivity.
Defined.

(** ** Mode errors of [get_ctx_scores] (claim C9) *)

Lemma valid_mode_dec mode : {valid_mode mode} + {~ valid_mode mode}.
Proof.
  unfold valid_mode.
  destruct (decide (mode = "mean")); [by left; left|].
  destruct (decide (mode = "max")); [by left; right; left|].
  destruct (decide (mode = "sum")); [by left; right; right|].
  right. intuition.
Qed.

Lemma aggregate_invalid mode iet scores :
  ~ valid_mode mode -> aggregate mode iet scores = Err InvalidMode.
Proof.
  intros Hm. unfold aggregate, valid_mode in *.
  destruct (String.eqb_spec mode "mean"); [tauto|].
  destruct (String.eqb_spec mode "max"); [tauto|].
  destruct (String.eqb_spec mode "sum"); [tauto|]. done.
Qed.

Lemma aggregate_valid mode iet scores :
  valid_mode mode ->
  (mode = "max" -> nonzero_part iet scores <> []) ->
  exists x, aggregate mode iet scores = Ok x.
Proof.
  intros [-> | [-> | ->]] Hmax; unfold aggregate; simpl; eauto.
  destruct (nonzero_part iet scores) eqn:Hn; [by destruct Hmax|]. simpl. eauto.
Qed.

Lemma aggregate_valid_error mode iet scores e :
  valid_mode mode -> aggregate mode iet scores = Err e -> e = NumpyValueError.
Proof.
  intros [-> | [-> | ->]]; unfold aggregate; simpl; try discriminate.
  destruct (nonzero_part iet scores); simpl; congruence.
Qed.

Lemma rmap_Err_elem {A B} (f : A -> result B) l e :
  rmap f l = Err e -> exists a, a ∈ l /\ f a = Err e.
Proof.
  induction l as [|a l IH]; simpl; [discriminate|].
  intros Hr. apply bind_Err in Hr as [Ha|(b & Hb & Hr)].
  - exists a. split; [left | done].
  - apply bind_Err in Hr as [Hr|(bs & _ & Hr)]; [|discriminate].
    destruct (IH Hr) as (a' & Hin & Ha'). exists a'. split; [by right | done].
Qed.

Lemma get_ctx_start_indices_error `{Externals} question titles pattern_str e :
  get_ctx_start_indices question titles pattern_str = Err e ->
  e = IndexError \/ e = AssertionError.
Proof.
  unfold get_ctx_start_indices, getitem. destruct titles as [|t titles]; simpl.
  - intros [= <-]. by left.
  - destruct t as [t|]; simpl.
    + destruct (forallb _ titles); simpl; [discriminate|]. intros [= <-]. by right.
    + destruct (forallb _ titles); simpl; [discriminate|]. intros [= <-]. by right.
Qed.

Lemma batch_scores_ctxs_error `{Externals} bs qm q titles p e :
  batch_scores_ctxs bs qm q titles p = Err e ->
  (e = InvalidQuestionMode /\ ~ valid_question_mode qm)
  \/ (qm = "exclude" /\ (e = IndexError \/ e = AssertionError)).
Proof.
  unfold batch_scores_ctxs, valid_question_mode.
  destruct (String.eqb_spec qm "include"); [discriminate|].
  destruct (String.eqb_spec qm "exclude").
  - intros Hr. right. split; [done|].
    apply bind_Err in Hr as [Hr|(a & _ & Hr)]; [|discriminate].
    by eapply get_ctx_start_indices_error.
  - intros [= <-]. left. split; [done | tauto].
Qed.

Lemma batch_scores_ctxs_invalid `{Externals} bs qm q titles p :
  ~ valid_question_mode qm ->
  batch_scores_ctxs bs qm q titles p = Err InvalidQuestionMode.
Proof.
  unfold batch_scores_ctxs, valid_question_mode. intros Hq.
  destruct (String.eqb_spec qm "include"); [tauto|].
  destruct (String.eqb_spec qm "exclude"); [tauto|]. done.
Qed.

Lemma batch_scores_ctxs_include `{Externals} bs q titles p :
  batch_scores_ctxs bs "include" q titles p = Ok bs.
Proof. reflexivity. Qed.

(** C9, as the code has it: [get_ctx_scores] raises the mode error exactly
    when [question_mode] is neither ['include'] nor ['exclude'], or the
    aggregation mode is none of ['mean'], ['max'], ['sum'] and there is at
    least one score array to aggregate (the mode is only looked at inside
    the loop over the passages). With a valid mode it returns one score per
    array, provided that under ['max'] no array is empty once its zeros and
    its end token are taken out; under ['include'] the arrays are the rows
    of [batch_scores]. *)
Theorem C9_mode_errors `{Externals} :
  forall batch_scores mode question_mode include_end_token question titles pattern_str,
    let r := get_ctx_scores batch_scores mode question_mode include_end_token
               question titles pattern_str in
    let arrays := batch_scores_ctxs batch_scores question_mode question titles pattern_str in
    (raises_invalid_configuration r <->
       ~ valid_question_mode question_mode
       \/ (~ valid_mode mode /\ exists l, arrays = Ok l /\ l <> []))
    /\ (valid_mode mode ->
        forall l, arrays = Ok l ->
          (mode = "max" -> Forall (fun s => nonzero_part include_end_token s <> []) l) ->
          exists scores, r = Ok scores /\ length scores = length l)
    /\ (question_mode = "include" -> arrays = Ok batch_scores).
Proof.
  intros bs mode qm iet q titles p r arrays. subst r arrays.
  unfold get_ctx_scores. split; [split|split].
  - intros [Hr|Hr].
    + apply bind_Err in Hr as [Hr|(l & Hl & Hr)].
      * apply batch_scores_ctxs_error in Hr as [[_ Hq]|[_ [?|?]]]; [by left|done..].
      * apply rmap_Err_elem in Hr as (s & _ & Hs).
        destruct (valid_mode_dec mode) as [Hm|Hm].
        -- by apply aggregate_valid_error in Hs.
        -- by rewrite aggregate_invalid in Hs.
    + apply bind_Err in Hr as [Hr|(l & Hl & Hr)].
      * apply batch_scores_ctxs_error in Hr as [[? _]|[_ [?|?]]]; done.
      * right. apply rmap_Err_elem in Hr as (s & Hin & Hs).
        destruct (valid_mode_dec mode) as [Hm|Hm].
        -- by apply aggregate_valid_error in Hs.
        -- split; [done|]. exists l. split; [done|]. intros ->. by apply elem_of_nil in Hin.
  - intros [Hq|(Hm & l & Hl & Hne)].
    + left. by rewrite batch_scores_ctxs_invalid.
    + right. rewrite Hl. simpl. destruct l as [|s l]; [done|]. simpl.
      by rewrite aggregate_invalid.
  - intros Hm l Hl Hmax. rewrite Hl. simpl.
    destruct (rmap_total (aggregate mode iet) l) as [scores Hs].
    + apply Forall_forall. intros s Hs. apply aggregate_valid; [done|].
      intros Hmode. specialize (Hmax Hmode). by eapply Forall_forall in Hmax.
    + exists scores. split; [done|]. by eapply rmap_Ok_length.
  - intros ->. reflexivity.
Qed.

Lemma C9_witness :
  exists scores,
    get_ctx_scores (H := Demo.externals) [[Demo.score 1 2; NP.zero]; [Demo.score 1 3]]
      "max" "include" true "q" [Some "T"; Some "T"] "context:" = Ok scores
    /\ length scores = 2%nat.
Proof.
  pose proof (C9_mode_errors (H := Demo.externals)
                [[Demo.score 1 2; NP.zero]; [Demo.score 1 3]]
                "max" "include" true "q" [Some "T"; Some "T"] "context:") as (_ & Hvalid & _).
  apply (Hvalid (or_intror (or_introl eq_refl))
                [[Demo.score 1 2; NP.zero]; [Demo.score 1 3]] eq_refl).
  intros _. repeat constructor; by vm_compute.
Defined.

(** The claim as it is written fails in both directions of its second
    half: an unknown aggregation mode goes unnoticed when there is no
    passage, and a valid mode still raises (numpy's error, not the mode
    error) under ['max'] on a passage whose scores are all zero. *)
Lemma C9_counterexample :
  ~ (raises_invalid_configuration
       (get_ctx_scores (H := Demo.externals) [] "median" "include" true "q" [] "context:")
     <-> ~ valid_question_mode "include" \/ ~ valid_mode "median")
  /\ get_ctx_scores (H := Demo.externals) [[NP.zero]] "max" "include" true
       "q" [Some "T"] "context:" = Err NumpyValueError.
Proof.
  split; [|reflexivity].
  intros [_ Hraise].
  assert (~ valid_mode "median") as Hm by (intros [?|[?|?]]; discriminate).
  destruct (Hraise (or_intror Hm)) as [Hr|Hr]; vm_compute in Hr; discriminate.
Qed.

(** ** Sentence pooling (claim C7) *)

Lemma cum_len_list_cons x l :
  cum_len_list (x :: l) = x :: map (Nat.add x) (cum_len_list l).
Proof.
  unfold cum_len_list. simpl. rewrite Nat.add_0_r. f_equal.
  rewrite <- seq_shift, !map_map. apply map_ext. intros i. simpl. done.
Qed.

Lemma length_cum_len_list l : length (cum_len_list l) = length l.
Proof. unfold cum_len_list. by rewrite length_map, length_seq. Qed.

Lemma pool_loop_length_le sc ids cums start :
  (length (pool_loop sc ids cums start) <= length cums)%nat.
Proof.
  revert start. induction cums as [|c cums IH]; intros start; simpl; [lia|].
  destruct (length sc <=? start)%nat; simpl.
  - specialize (IH start). lia.
  - specialize (IH c). lia.
Qed.

(** When no boundary was skipped, the pooled token ids are consecutive
    slices that start at [start] and cover as many positions as the
    sentences have tokens. *)
Lemma pool_loop_concat sc (ids : list Z) lens start :
  length (pool_loop sc ids (map (Nat.add start) (cum_len_list lens)) start) = length lens ->
  concat (map sent_token_ids (pool_loop sc ids (map (Nat.add start) (cum_len_list lens)) start))
  = take (sum_list lens) (drop start ids).
Proof.
  revert start. induction lens as [|x lens IH]; intros start; [done|].
  rewrite cum_len_list_cons. simpl.
  destruct (length sc <=? start)%nat eqn:Hskip.
  - intros Hlen.
    pose proof (pool_loop_length_le sc ids
                  (map (Nat.add start) (map (Nat.add x) (cum_len_list lens))) start) as Hle.
    rewrite !length_map, length_cum_len_list in Hle. lia.
  - simpl. intros [= Hlen].
    assert (map (Nat.add start) (map (Nat.add x) (cum_len_list lens))
            = map (Nat.add (start + x)) (cum_len_list lens)) as Hcums.
    { rewrite map_map. apply map_ext. intros i. lia. }
    rewrite Hcums in *. rewrite (IH _ Hlen).
    rewrite slice_between.
    replace (start + x - start)%nat with x by lia.
    rewrite <- drop_drop. apply take_take_drop.
Qed.

Lemma map_add_0 l : map (Nat.add 0) l = l.
Proof. by rewrite <- (map_id l) at 2. Qed.

(** C7, as the code has it: when no sentence of the passage was left
    without a score slot, the per-sentence token-id slices, put end to end,
    are the first [n] token ids of the content array, [n] being the number
    of tokens the sentences have when the scoring tokenizer encodes them
    one by one; they are the whole content array as soon as the content is
    not longer than that. The array is any list, so in particular the slice
    of a row between its start offset and its last end-of-sequence marker. *)
Theorem C7_pooled_ids_cover_prefix `{Externals} :
  forall (context_score : list npfloat) (context_ids : list Z) (sents : list string),
    length (pool_sentences context_score context_ids sents) = length sents ->
    let n := sum_list (map (fun s => length (tok_encode s)) sents) in
    concat (map sent_token_ids (pool_sentences context_score context_ids sents))
      = take n context_ids
    /\ ((length context_ids <= n)%nat ->
        concat (map sent_token_ids (pool_sentences context_score context_ids sents))
          = context_ids).
Proof.
  intros sc ids sents Hlen n.
  assert (concat (map sent_token_ids (pool_sentences sc ids sents)) = take n ids) as Hcat.
  { unfold pool_sentences in *.
    rewrite <- (map_add_0 (cum_len_list _)) in *.
    rewrite pool_loop_concat; [by rewrite drop_0|].
    by rewrite Hlen, length_map. }
  split; [done|]. intros Hn. rewrite Hcat. by apply take_ge.
Qed.

Lemma C7_witness :
  concat (map sent_token_ids
            (pool_sentences (H := Demo.externals)
               (map (fun _ => Demo.score 1 2) (Demo.encode "Hi.Yo."))
               (Demo.encode "Hi.Yo.") (Demo.split_sentences "Hi.Yo.")))
  = Demo.encode "Hi.Yo.".
Proof.
  apply (C7_pooled_ids_cover_prefix (H := Demo.externals)
           (map (fun _ => Demo.score 1 2) (Demo.encode "Hi.Yo."))
           (Demo.encode "Hi.Yo.") (Demo.split_sentences "Hi.Yo.")).
  - reflexivity.
  - vm_compute. lia.
Defined.

(** The claim as it is written fails on a passage whose content has more
    tokens than its sentences have one by one: in ["Hi. Yo."] the blank
    between the sentences is a token of the content and of no sentence.
    Both sentences get a slot, and the slices leave the last token out. *)
Lemma C7_counterexample :
  let ids := Demo.encode "Hi. Yo." in
  let sc := map (fun _ => Demo.score 1 2) ids in
  let sents := Demo.split_sentences "Hi. Yo." in
  length (pool_sentences (H := Demo.externals) sc ids sents) = length sents
  /\ concat (map sent_token_ids (pool_sentences (H := Demo.externals) sc ids sents)) <> ids.
Proof. split; [reflexivity | by vm_compute]. Qed.

(** ** Budget reconciliation between ranks (claim C3) *)

Lemma pos_sum_nonneg l : 0 <= pos_sum l.
Proof. induction l as [|x l IH]; simpl; lia. Qed.

Lemma lowered_refl x : lowered x x.
Proof. unfold lowered. lia. Qed.

Lemma Forall2_lowered_refl l : Forall2 lowered l l.
Proof. induction l; constructor; [apply lowered_refl | done]. Qed.

Lemma reduce_from_top_spec comp_lens r_i rank exceed_len :
  0 <= exceed_len -> (r_i <= rank)%nat ->
  let res := reduce_from_top comp_lens r_i rank exceed_len in
  length res = length comp_lens
  /\ drop (rank - r_i) res = drop (rank - r_i) comp_lens
  /\ pos_sum (take (rank - r_i) res)
     = Z.max 0 (pos_sum (take (rank - r_i) comp_lens) - exceed_len)
  /\ Forall2 lowered comp_lens res.
Proof.
  revert r_i exceed_len.
  induction comp_lens as [|c rest IH]; intros r_i e He Hr; simpl.
  { rewrite !drop_nil, !take_nil. simpl.
    split; [done|]. split; [done|]. split; [lia | constructor]. }
  destruct (Z.eqb_spec e 0) as [->|Hne]; simpl.
  { split; [done|]. split; [done|]. split; [|apply Forall2_lowered_refl].
    pose proof (pos_sum_nonneg (take (rank - r_i) (c :: rest))). lia. }
  destruct (Nat.eqb_spec r_i rank) as [->|Hrank]; simpl.
  { rewrite Nat.sub_diag. simpl.
    split; [done|]. split; [done|]. split; [lia | apply Forall2_lowered_refl]. }
  replace (rank - r_i)%nat with (S (rank - S r_i)) by lia.
  pose proof (pos_sum_nonneg (take (rank - S r_i) rest)) as Hps.
  destruct (Z.ltb_spec 0 c) as [Hc|Hc]; simpl.
  - destruct (IH (S r_i) (Z.max 0 (e - c))) as (Hl & Hd & Hp & Hf); [lia..|].
    rewrite Hl, Hd, Hp.
    split; [done|]. split; [done|]. split; [lia|].
    constructor; [unfold lowered; lia | done].
  - destruct (IH (S r_i) e) as (Hl & Hd & Hp & Hf); [lia..|].
    rewrite Hl, Hd, Hp.
    split; [done|]. split; [done|]. split; [lia|].
    constructor; [apply lowered_refl | done].
Qed.





(** ** The order of [argsort] *)

Lemma sort_le_total x y : NP.sort_le x y = true \/ NP.sort_le y x = true.
Proof.
  destruct x as [p| | |], y as [q| | |]; simpl; auto.
  rewrite !bool_decide_eq_true.
  destruct (Qclt_le_dec p q); [left; by apply Qclt_le_weak | by right].
Qed.

Lemma sort_le_trans x y z :
  NP.sort_le x y = true -> NP.sort_le y z = true -> NP.sort_le x z = true.
Proof.
  destruct x as [p| | |], y as [q| | |], z as [r| | |]; simpl; try done.
  rewrite !bool_decide_eq_true. apply Qcle_trans.
Qed.

Lemma lookup_enumerate {A} (l : list A) i p :
  Py.enumerate l !! i = Some p <-> p.1 = i /\ l !! i = Some p.2.
Proof.
  unfold Py.enumerate. destruct p as [j x]. simpl.
  rewrite lookup_zip_with_Some. split.
  - intros (j' & x' & [= -> ->] & Hj & Hx).
    apply lookup_seq in Hj as [-> _]. done.
  - intros [-> Hx]. exists i, x. split; [done|]. split; [|done].
    apply lookup_seq. split; [done|]. by eapply lookup_lt_Some.
Qed.

Lemma elem_of_enumerate {A} (l : list A) p :
  p ∈ Py.enumerate l <-> l !! p.1 = Some p.2.
Proof.
  rewrite list_elem_of_lookup. split.
  - intros [i Hi]. apply lookup_enumerate in Hi as [<- Hp]. done.
  - intros Hp. exists p.1. by apply lookup_enumerate.
Qed.

Lemma fst_enumerate {A} (l : list A) : (Py.enumerate l).*1 = seq 0 (length l).
Proof. unfold Py.enumerate. apply fst_zip. by rewrite length_seq. Qed.

Lemma snd_enumerate {A} (l : list A) : (Py.enumerate l).*2 = l.
Proof. unfold Py.enumerate. apply snd_zip. by rewrite length_seq. Qed.

Lemma argsort_perm a : NP.argsort a ≡ₚ seq 0 (length a).
Proof.
  unfold NP.argsort. rewrite <- fst_enumerate. apply fmap_Permutation, sort_by_perm.
Qed.

Lemma argsort_NoDup a : NoDup (NP.argsort a).
Proof. rewrite argsort_perm. apply NoDup_seq. Qed.

Lemma argsort_length a : length (NP.argsort a) = length a.
Proof. by rewrite argsort_perm, length_seq. Qed.

Lemma argsort_lt a i : i ∈ NP.argsort a -> (i < length a)%nat.
Proof. rewrite argsort_perm, elem_of_seq. lia. Qed.

Lemma StronglySorted_fmap {A B} (R : A -> A -> Prop) (S : B -> B -> Prop) (f : A -> B) l :
  (forall x y, x ∈ l -> y ∈ l -> R x y -> S (f x) (f y)) ->
  StronglySorted R l -> StronglySorted S (map f l).
Proof.
  intros HRS Hs. induction Hs as [|x l Hs IH Hx]; simpl; constructor.
  - apply IH. intros y z Hy Hz. apply HRS; by right.
  - apply Forall_fmap, Forall_forall. intros y Hy. simpl.
    apply HRS; [left | by right |]. by eapply Forall_forall in Hx.
Qed.

Lemma argsort_sorted a : StronglySorted (score_le a) (NP.argsort a).
Proof.
  unfold NP.argsort.
  eapply StronglySorted_fmap;
    [|apply (sort_by_sorted (fun p q : nat * npfloat => NP.sort_le p.2 q.2))].
  - intros p q Hp Hq Hle.
    rewrite sort_by_perm in Hp, Hq. apply elem_of_enumerate in Hp, Hq.
    exists p.2, q.2. done.
  - intros p q. apply sort_le_total.
  - intros p q r. apply sort_le_trans.
Qed.

Lemma StronglySorted_snoc_inv {A} (R : A -> A -> Prop) l x :
  StronglySorted R (l ++ [x]) -> Forall (fun y => R y x) l.
Proof.
  induction l as [|y l IH]; simpl; intros Hs; [constructor|].
  apply StronglySorted_inv in Hs as [Hs Hy]. constructor; [|by apply IH].
  eapply Forall_forall in Hy; [exact Hy|]. apply elem_of_app. right. by left.
Qed.

(** The last position of [argsort] holds a greatest score. *)
Lemma argsort_last_max a j :
  last (NP.argsort a) = Some j ->
  forall i x, a !! i = Some x -> exists y, a !! j = Some y /\ NP.sort_le x y = true.
Proof.
  intros Hlast i x Hx.
  assert (i ∈ NP.argsort a) as Hi.
  { rewrite argsort_perm, elem_of_seq. apply lookup_lt_Some in Hx. lia. }
  pose proof (argsort_sorted a) as Hs.
  apply last_Some in Hlast as [l Hl]. rewrite Hl in Hi, Hs.
  apply elem_of_app in Hi as [Hi|Hi].
  - apply StronglySorted_snoc_inv in Hs.
    eapply Forall_forall in Hs as (x' & y & Hx' & Hy & Hle); [|exact Hi].
    rewrite Hx in Hx'. injection Hx' as <-. eauto.
  - apply list_elem_of_singleton in Hi as ->. exists x. split; [done|].
    destruct (sort_le_total x x); done.
Qed.

(** ** At least one sentence under [constraint_1_sent] (claim C4) *)

Section KeepOne.
Context `{Externals}.

Lemma drop_loop_bounds e comp_len split_tokens sents todo r cur total r' cur' total' :
  drop_loop e comp_len split_tokens sents todo r cur total = Ok (r', cur', total') ->
  r - 1 <= r' <= r + Z.of_nat (length todo) - 1.
Proof.
  revert r cur total. induction todo as [|s todo IH]; intros r cur total; simpl.
  - intros [= <- _ _]. lia.
  - intros Hrun. inv_bind Hrun.
    destruct (_ >=? sent_comp_len e).
    + destruct (_ <? _); injection Hrun as <- _ _; lia.
    + destruct (_ >=? comp_len).
      * injection Hrun as <- _ _. lia.
      * apply IH in Hrun. lia.
Qed.

Lemma cut_index_bounds e n r :
  (0 < n)%nat -> -1 <= r <= Z.of_nat n - 1 ->
  0 <= cut_index e n r <= Z.of_nat n
  /\ (constraint_1_sent e = true -> cut_index e n r < Z.of_nat n)
  /\ (constraint_1_sent e = true -> r + 1 = Z.of_nat n ->
      cut_index e n r = Z.of_nat n - 1).
Proof.
  intros Hn Hr. unfold cut_index.
  destruct (constraint_1_sent e); simpl.
  - destruct (Z.eqb_spec (r + 1) (Z.of_nat n)); simpl.
    + split; [lia|]. split; intros; lia.
    + split; [lia|]. split; intros; lia.
  - split; [lia|]. split; intros; done.
Qed.

Lemma sentence_step_cases e st idx st' :
  sentence_step e st idx = Ok st' ->
  exists i c ps,
    ctx_idx2ctx_i e !! idx = Some i
    /\ st_ctxs st !! i = Some c
    /\ pooled_ctxs e !! i = Some ps
    /\ step_outcome e st st' i c ps.
Proof.
  unfold sentence_step. intros Hrun.
  bind_inv Hrun as rank Hrank.
  bind_inv Hrun as i Hi. apply of_option_Ok in Hi.
  bind_inv Hrun as c Hc. apply getitem_Ok in Hc.
  bind_inv Hrun as ps Hps. apply getitem_Ok in Hps.
  bind_inv Hrun as sents0 Hsents.
  exists i, c, ps. split; [done|]. split; [done|]. split; [done|].
  rewrite length_map in Hrun.
  destruct (Nat.eqb_spec (length ps) 0) as [Hz|Hnz].
  { injection Hrun as <-. apply no_score_slot; [|done..].
    by apply nil_length_inv. }
  assert (ps <> []) as Hne by (intros ->; simpl in *; lia).
  bind_inv Hrun as comp_len Hcomp.
  destruct (_ || _).
  { bind_inv Hrun as sc Hsc. bind_inv Hrun as ids Hids. injection Hrun as <-.
    by apply kept_unmodified. }
  bind_inv Hrun as split_tokens Hsplit.
  bind_inv Hrun as [[r cur] total] Hloop. simpl in Hrun.
  rewrite argsort_length, length_map in Hrun.
  apply drop_loop_bounds in Hloop as Hr.
  rewrite argsort_length, length_map in Hr.
  destruct (cut_index_bounds e (length ps) r) as (Hk & Hlt & Hlast); [lia..|].
  destruct (Z.eqb_spec (cut_index e (length ps) r) (Z.of_nat (length ps))) as [Hall|Hsome].
  - bind_inv Hrun as [total' comp_lens] Hrec. injection Hrun as <-.
    apply all_dropped; [done| |done..].
    destruct (constraint_1_sent e); [|done]. specialize (Hlt eq_refl). lia.
  - bind_inv Hrun as txt Htxt.
    bind_inv Hrun as sel Hsel. bind_inv Hrun as u Hu.
    bind_inv Hrun as [total' comp_lens] Hrec. injection Hrun as <-.
    replace (cut_index e (length ps) r)
      with (Z.of_nat (Z.to_nat (cut_index e (length ps) r))) in Htxt by lia.
    rewrite slice_from in Htxt.
    apply getitem_Ok in Hsplit, Hsents.
    eapply (sentences_selected _ _ _ _ _ _ r); [done| | |done|done|exact Htxt|done..].
    + lia.
    + intros Hcon Hr1. rewrite (Hlast Hcon Hr1). lia.
Qed.

End KeepOne.

Lemma rmap_Ok_Forall2 {A B} (f : A -> result B) l bs :
  rmap f l = Ok bs -> Forall2 (fun a b => f a = Ok b) l bs.
Proof.
  revert bs. induction l as [|a l IH]; intros bs Hrun; simpl in Hrun.
  - injection Hrun as <-. constructor.
  - bind_inv Hrun as b Hb. bind_inv Hrun as bs' Hbs. injection Hrun as <-.
    constructor; [done | by apply IH].
Qed.

(** The text [rebuild_text] returns, piece by piece. *)
Lemma rebuild_text_spec split_tokens sents sel rest txt :
  rebuild_text split_tokens sents sel rest = Ok txt ->
  exists parts rest_parts,
    Forall2 (fun j part => exists t s, split_tokens !! j = Some t /\ sents !! j = Some s
                                       /\ part = t +:+ s) sel parts
    /\ Forall2 (fun (p : nat * string) part =>
                  exists t, split_tokens !! (p.1 + length sents)%nat = Some t
                            /\ part = t +:+ p.2)
         (Py.enumerate (default [] rest)) rest_parts
    /\ txt = Py.join EmptyString (parts ++ rest_parts).
Proof.
  unfold rebuild_text. intros Hrun.
  bind_inv Hrun as parts Hparts. bind_inv Hrun as rest_parts Hrest.
  injection Hrun as <-. exists parts, rest_parts. split; [|split; [|done]].
  - apply rmap_Ok_Forall2 in Hparts.
    eapply Forall2_impl; [exact Hparts|]. intros j part Hj. simpl in Hj.
    bind_inv Hj as t Ht. bind_inv Hj as s0 Hs. injection Hj as <-.
    apply getitem_Ok in Ht, Hs. eauto.
  - destruct rest as [rs|]; simpl.
    + apply rmap_Ok_Forall2 in Hrest.
      eapply Forall2_impl; [exact Hrest|]. intros q part Hq. simpl in Hq.
      bind_inv Hq as t Ht. injection Hq as <-. apply getitem_Ok in Ht. eauto.
    + injection Hrest as <-. constructor.
Qed.

(** C4: with [constraint_1_sent] set, the sentence-dropping loop never takes
    every sentence of a passage.
    - A turn of the main loop removes the passage it visits only when the
      passage has no score slot at all; otherwise the passage stays, with
      its text as it was or rewritten. The rewritten text is made of the
      passage's own sentences: with [kept] the positions left of the
      ascending order of the mean scores, sorted, which are never none, it
      is the separator and the sentence at each kept position, one after
      the other, followed by the sentences that had no score slot.
    - So, over the whole loop, every removed passage is one without a score
      slot: the removal that follows the loss of all sentences is gone.
    - When the loop has gone through every sentence, what is kept in its
      place is the last position of the ascending order of the mean scores,
      a sentence of greatest mean score. *)
Theorem C4_constraint_keeps_one_sentence `{Externals} :
  forall e : sent_env,
    constraint_1_sent e = true ->
    (forall st idx st',
        sentence_step e st idx = Ok st' ->
        exists i c ps,
          ctx_idx2ctx_i e !! idx = Some i
          /\ st_ctxs st !! i = Some c
          /\ pooled_ctxs e !! i = Some ps
          /\ ((ps = [] /\ ctx_removal_indices st' = ctx_removal_indices st ++ [i])
              \/ (ps <> []
                  /\ ctx_removal_indices st' = ctx_removal_indices st
                  /\ (st_ctxs st' = st_ctxs st
                      \/ exists k split_tokens sents0 parts rest_parts,
                           let kept :=
                             Py.sorted_nat (drop k (NP.argsort (map sent_mean_score ps))) in
                           let n_scored := Nat.min (length ps) (length sents0) in
                           (k < length ps)%nat
                           /\ split_token_ctxs e !! i = Some split_tokens
                           /\ sents_list e !! i = Some sents0
                           /\ kept <> []
                           /\ (forall j, j ∈ kept -> (j < length ps)%nat)
                           /\ Forall2 (fun j part =>
                                         exists t s, split_tokens !! j = Some t
                                                     /\ sents0 !! j = Some s
                                                     /\ part = t +:+ s)
                                kept parts
                           /\ Forall2 (fun (p : nat * string) part =>
                                         exists t,
                                           split_tokens !! (p.1 + n_scored)%nat = Some t
                                           /\ part = t +:+ p.2)
                                (Py.enumerate (drop (length ps) sents0)) rest_parts
                           /\ st_ctxs st'
                              = <[i := set_text c (Py.join EmptyString (parts ++ rest_parts))]>
                                  (st_ctxs st)))))
    /\ (forall st todo st',
          sentence_loop e st todo = Ok st' ->
          forall i, i ∈ ctx_removal_indices st' ->
            i ∈ ctx_removal_indices st \/ pooled_ctxs e !! i = Some [])
    /\ (forall comp_len split_tokens sents means total0 r cur total,
          means <> [] ->
          drop_loop e comp_len split_tokens sents (NP.argsort means) 0 0 total0
            = Ok (r, cur, total) ->
          r + 1 = Z.of_nat (length means) ->
          exists j,
            Py.slice (NP.argsort means)
              (Some (cut_index e (length (NP.argsort means)) r)) None = [j]
            /\ forall i x, means !! i = Some x ->
                 exists y, means !! j = Some y /\ NP.sort_le x y = true).
Proof.
  intros e Hcon.
  assert (forall st idx st',
             sentence_step e st idx = Ok st' ->
             forall i, i ∈ ctx_removal_indices st' ->
               i ∈ ctx_removal_indices st \/ pooled_ctxs e !! i = Some []) as Hstep.
  { intros st idx st' Hrun i Hi.
    apply sentence_step_cases in Hrun as (i' & c & ps & _ & _ & Hps & Hout).
    destruct Hout as [-> Hrem _|_ Hrem _|_ Hfalse _ _|r k sp sents txt _ _ _ _ _ _ Hrem _].
    - rewrite Hrem in Hi. apply elem_of_app in Hi as [Hi|Hi]; [by left|].
      apply list_elem_of_singleton in Hi as ->. by right.
    - rewrite Hrem in Hi. by left.
    - congruence.
    - rewrite Hrem in Hi. by left. }
  split; [|split].
  - intros st idx st' Hrun.
    apply sentence_step_cases in Hrun as (i & c & ps & Hi & Hc & Hps & Hout).
    exists i, c, ps. split; [done|]. split; [done|]. split; [done|].
    destruct Hout as [-> Hrem _|Hne Hrem Hctxs|_ Hfalse _ _
                     |r k sp sents0 txt Hne Hk _ Hsp Hsents Htxt Hrem Hctxs].
    + by left.
    + right. split; [done|]. split; [done|]. by left.
    + congruence.
    + right. split; [done|]. split; [done|]. right.
      apply rebuild_text_spec in Htxt as (parts & rest_parts & Hparts & Hrest & ->).
      exists k, sp, sents0, parts, rest_parts. cbn zeta.
      split; [done|]. split; [done|]. split; [done|]. split.
      { intros Hnil. apply (f_equal length) in Hnil.
        rewrite sorted_nat_perm, length_drop, argsort_length, length_map in Hnil.
        simpl in Hnil. lia. }
      split.
      { intros j Hj. rewrite sorted_nat_perm in Hj.
        rewrite <- (length_map sent_mean_score ps). apply argsort_lt.
        eapply elem_of_sublist; [exact Hj | apply sublist_drop]. }
      split; [|split; [|done]].
      * eapply Forall2_impl; [exact Hparts|]. intros j part (t & s0 & Ht & Hs & ->).
        exists t, s0. split; [done|]. split; [|done].
        destruct (length ps =? length sents0)%nat; [done|].
        rewrite slice_to in Hs. by apply lookup_take_Some in Hs as [Hs _].
      * destruct (Nat.eqb_spec (length ps) (length sents0)) as [Heq|Hne'].
        -- simpl in Hrest. apply Forall2_nil_inv_l in Hrest as ->.
           rewrite drop_ge by lia. constructor.
        -- simpl in Hrest. rewrite slice_from, slice_to, length_take in Hrest.
           exact Hrest.
  - intros st todo. revert st.
    induction todo as [|idx todo IH]; intros st st'; simpl.
    + intros [= <-] i Hi. by left.
    + intros Hrun i Hi. bind_inv Hrun as st1 Hst1.
      destruct (IH _ _ Hrun i Hi) as [Hin|Hnone]; [|by right].
      by eapply Hstep.
  - intros comp_len sp sents means total0 r cur total Hne Hloop Hall.
    rewrite argsort_length.
    assert (0 < length means)%nat as Hlen by (destruct means; simpl; [done | lia]).
    destruct (cut_index_bounds e (length means) r) as (_ & _ & Hcut); [lia..|].
    rewrite (Hcut Hcon Hall).
    replace (Z.of_nat (length means) - 1) with (Z.of_nat (length means - 1)) by lia.
    rewrite slice_from.
    destruct (last (NP.argsort means)) as [j|] eqn:Hlast.
    + exists j. split; [|by eapply argsort_last_max].
      apply last_Some in Hlast as [l Hl]. rewrite Hl.
      apply (f_equal length) in Hl. rewrite argsort_length, length_app in Hl.
      simpl in Hl. rewrite drop_app_length'; [done | lia].
    + apply last_None in Hlast. apply (f_equal length) in Hlast.
      rewrite argsort_length in Hlast. simpl in Hlast. lia.
Qed.

Lemma C4_witness :
  exists st',
    sentence_loop (H := Demo.externals) (Demo.one_passage_env true)
      Demo.one_passage_state [0] = Ok st'
    /\ forall i, i ∉ ctx_removal_indices st'.
Proof.
  destruct (sentence_loop (H := Demo.externals) (Demo.one_passage_env true)
              Demo.one_passage_state [0]) as [st'|err] eqn:Hrun;
    [|by vm_compute in Hrun].
  exists st'. split; [done|]. intros i Hi.
  destruct (C4_constraint_keeps_one_sentence (H := Demo.externals)
              (Demo.one_passage_env true) eq_refl) as (_ & Hloop & _).
  destruct (Hloop _ _ _ Hrun i Hi) as [Hin|Hnone].
  - by apply elem_of_nil in Hin.
  - destruct i as [|i]; vm_compute in Hnone; discriminate.
Defined.

(** ** Token selection (claim C5) *)

Lemma elem_of_dedup_adjacent x l : x ∈ NP.dedup_adjacent l <-> x ∈ l.
Proof.
  induction l as [|y l IH]; [done|].
  destruct l as [|z l]; [done|].
  change (NP.dedup_adjacent (y :: z :: l))
    with (if Nat.eqb y z then NP.dedup_adjacent (z :: l)
          else y :: NP.dedup_adjacent (z :: l)).
  destruct (Nat.eqb_spec y z) as [->|Hne].
  - rewrite IH, !elem_of_cons. tauto.
  - rewrite !elem_of_cons, IH, !elem_of_cons. tauto.
Qed.

Lemma elem_of_union1d x a b : x ∈ NP.union1d a b <-> x ∈ a \/ x ∈ b.
Proof.
  unfold NP.union1d. rewrite elem_of_dedup_adjacent, sorted_nat_perm. apply elem_of_app.
Qed.

Lemma dedup_adjacent_sorted l :
  StronglySorted le l -> StronglySorted lt (NP.dedup_adjacent l).
Proof.
  induction 1 as [|y l Hs IH Hy]; [constructor|].
  destruct l as [|z l]; [repeat constructor|].
  change (NP.dedup_adjacent (y :: z :: l))
    with (if Nat.eqb y z then NP.dedup_adjacent (z :: l)
          else y :: NP.dedup_adjacent (z :: l)).
  destruct (Nat.eqb_spec y z) as [->|Hne]; [done|].
  constructor; [done|]. apply Forall_forall. intros w Hw.
  apply (proj1 (elem_of_dedup_adjacent _ _)) in Hw.
  apply StronglySorted_inv in Hs as [_ Hz].
  apply Forall_cons in Hy as [Hyz Hy].
  apply elem_of_cons in Hw as [->|Hw]; [lia|].
  eapply Forall_forall in Hz; [|exact Hw]. lia.
Qed.

Lemma StronglySorted_lt_NoDup l : StronglySorted lt l -> NoDup l.
Proof.
  induction 1 as [|x l _ IH Hx]; constructor; [|done].
  intros Hin. eapply Forall_forall in Hx; [|exact Hin]. lia.
Qed.

Lemma union1d_NoDup a b : NoDup (NP.union1d a b).
Proof. apply StronglySorted_lt_NoDup, dedup_adjacent_sorted, sorted_nat_sorted. Qed.

Lemma elem_of_where_true mask j : j ∈ NP.where_true mask <-> mask !! j = Some true.
Proof.
  unfold NP.where_true. rewrite list_elem_of_fmap. split.
  - intros ([i b] & -> & Hin). apply list_elem_of_filter in Hin as [Hb Hin].
    apply elem_of_enumerate in Hin. simpl in *. by subst.
  - intros Hj. exists (j, true). split; [done|].
    apply list_elem_of_filter. split; [done|]. by apply elem_of_enumerate.
Qed.

Lemma elem_of_empty_token_indices (ids : list Z) start stop p :
  p ∈ empty_token_indices ids start stop
  <-> (start <= p < stop)%nat /\ ids !! p = Some 3.
Proof.
  unfold empty_token_indices. rewrite slice_between, list_elem_of_fmap. split.
  - intros (j & -> & Hj). apply elem_of_where_true in Hj.
    rewrite list_lookup_fmap in Hj.
    destruct (take (stop - start) (drop start ids) !! j) as [t|] eqn:Ht; [|done].
    simpl in Hj. injection Hj as Hj. apply bool_decide_eq_true in Hj as ->.
    apply lookup_take_Some in Ht as [Ht Hlt]. rewrite lookup_drop in Ht.
    split; [lia|]. by rewrite Nat.add_comm.
  - intros [Hp Hid]. exists (p - start)%nat. split; [lia|].
    apply elem_of_where_true. rewrite list_lookup_fmap.
    rewrite lookup_take_lt by lia. rewrite lookup_drop.
    replace (start + (p - start))%nat with p by lia. rewrite Hid. done.
Qed.

Lemma elem_of_cur_target_indices targets (ids : list Z) start stop p :
  p ∈ cur_target_indices targets ids start stop
  <-> (start <= p < stop)%nat /\ (p ∈ targets \/ ids !! p = Some 3).
Proof.
  unfold cur_target_indices.
  rewrite sorted_nat_perm, elem_of_union1d, list_elem_of_filter,
    elem_of_empty_token_indices.
  tauto.
Qed.

Lemma cur_target_indices_NoDup targets (ids : list Z) start stop :
  NoDup (cur_target_indices targets ids start stop).
Proof. unfold cur_target_indices. rewrite sorted_nat_perm. apply union1d_NoDup. Qed.


Lemma trunc_ge (r : Qc) (k : Z) :
  0 <= k -> (Q2Qc (inject_Z k) <= r)%Qc -> k <= NP.trunc r.
Proof.
  intros Hk Hr. apply Qc_Z_le in Hr. unfold NP.trunc.
  rewrite Z.quot_div_nonneg by nia. apply Z.div_le_lower_bound; lia.
Qed.


Lemma of_int_Ok n x :
  F64.of_int n = Ok x ->
  exists q, x = Real q /\ F64.round (Q2Qc (inject_Z n)) = Real q.
Proof.
  unfold F64.of_int. destruct (F64.round _) as [q| | |]; [|done..].
  intros [= <-]. eauto.
Qed.


(** The float product behind [target_len], when it is an integer count:
    a finite float that is not negative when [token_lamb] is not. *)
Lemma float_product_inv n token_lamb t :
  target_len n token_lamb = Ok t ->
  exists xn x,
    F64.round (Q2Qc (inject_Z (Z.of_nat n))) = Real xn
    /\ float_product n token_lamb = Ok (Real x)
    /\ F64.mul (Real xn) (F64.round token_lamb) = Real x
    /\ t = NP.trunc x.
Proof.
  unfold target_len, float_product. intros Hrun.
  bind_inv Hrun as p Hp. bind_inv Hp as xn Hxn. injection Hp as <-.
  apply of_int_Ok in Hxn as (q & -> & Hq).
  destruct (F64.mul (Real q) (F64.round token_lamb)) as [x| | |] eqn:Hmul; [|done..].
  injection Hrun as <-. exists q, x. unfold F64.of_int. rewrite Hq.
  cbn [mbind result_bind rbind]. by rewrite Hmul.
Qed.

Lemma mul_Real_inv xn a x :
  F64.mul (Real xn) a = Real x ->
  exists l, a = Real l /\ F64.round (xn * l)%Qc = Real x.
Proof.
  unfold F64.mul. destruct a as [l| | |]; cbn [NP.mul].
  - eauto.
  - destruct (bool_decide _); [done|]. by destruct (bool_decide _).
  - destruct (bool_decide _); [done|]. by destruct (bool_decide _).
  - done.
Qed.


Lemma target_len_all n token_lamb t :
  (1 <= token_lamb)%Qc -> Z.of_nat n <= 2 ^ 53 ->
  target_len n token_lamb = Ok t -> Z.of_nat n <= t.
Proof.
  intros Hl Hn Hrun.
  apply float_product_inv in Hrun as (xn & x & Hxn & _ & Hmul & ->).
  apply mul_Real_inv in Hmul as (l & Hround & Hx).
  rewrite round_Z in Hxn by lia. injection Hxn as <-.
  assert (1 <= l)%Qc as Hl1.
  { destruct (round_lower token_lamb 1) as [Hinf|(r & Hr & Hge)];
      [lia | exact Hl | congruence |].
    assert (l = r) as -> by congruence. exact Hge. }
  apply trunc_ge; [lia|].
  destruct (round_lower (Q2Qc (inject_Z (Z.of_nat n)) * l)%Qc (Z.of_nat n))
    as [Hinf|(r & Hr & Hge)]; [lia | | congruence |].
  - pose proof (Qcmult_le_mono_nonneg_l 1 l (Q2Qc (inject_Z (Z.of_nat n)))
                  (Qc_Z_mono 0 (Z.of_nat n) ltac:(lia)) Hl1) as Hm.
    by rewrite Qcmult_1_r in Hm.
  - assert (x = r) as -> by congruence. exact Hge.
Qed.

Lemma target_len_zero n t : target_len n 0%Qc = Ok t -> t = 0.
Proof.
  intros Hrun.
  apply float_product_inv in Hrun as (xn & x & Hxn & _ & Hmul & ->).
  apply mul_Real_inv in Hmul as (l & Hround & Hx).
  injection Hround as <-. rewrite Qcmult_0_r in Hx. by injection Hx as <-.
Qed.





Lemma elem_of_rev {A} (l : list A) x : x ∈ rev l <-> x ∈ l.
Proof. rewrite !list_elem_of_In. symmetry. apply in_rev. Qed.


Lemma StronglySorted_rev {A} (R : A -> A -> Prop) l :
  StronglySorted R l -> StronglySorted (flip R) (rev l).
Proof.
  induction 1 as [|x l _ IH Hx]; simpl; [constructor|].
  apply StronglySorted_app_2.
  - intros y z Hy Hz. apply list_elem_of_singleton in Hz as ->.
    apply (proj1 (elem_of_rev _ _)) in Hy. unfold flip.
    by eapply Forall_forall in Hx.
  - exact IH.
  - constructor; constructor.
Qed.




(** The bounds of passage [k] in the concatenated arrays. *)
Lemma cum_len_list_lookup lens k :
  (k < length lens)%nat ->
  cum_len_list lens !! k = Some (sum_list (take (S k) lens)).
Proof.
  intros Hk. unfold cum_len_list. rewrite list_lookup_fmap, lookup_seq_lt by done.
  simpl. by rewrite Nat.add_1_r.
Qed.

Lemma token_loop_spec `{Externals} targets (ids : list Z) lens ctxs start out :
  token_loop targets ids (map (Nat.add start) (cum_len_list lens)) ctxs start = Ok out ->
  length out = length ctxs
  /\ forall k c', out !! k = Some c' -> (k < length lens)%nat ->
       exists c kept_ids,
         ctxs !! k = Some c
         /\ kept_token_ids targets ids (start + sum_list (take k lens))
              (start + sum_list (take (S k) lens)) = Ok kept_ids
         /\ c' = set_text c (Py.collapse_spaces (tok_decode kept_ids)).
Proof.
  revert ctxs start out. induction lens as [|n lens IH]; intros ctxs start out.
  - simpl. intros [= <-]. split; [done|]. intros k c' _ Hk. simpl in Hk. lia.
  - rewrite cum_len_list_cons. simpl. destruct ctxs as [|c ctxs].
    { intros [= <-]. split; [done|]. intros k c' Hk. done. }
    intros Hrun. bind_inv Hrun as kept_ids Hkept. bind_inv Hrun as rest Hrest.
    injection Hrun as <-.
    assert (map (Nat.add start) (map (Nat.add n) (cum_len_list lens))
            = map (Nat.add (start + n)) (cum_len_list lens)) as Hcums.
    { rewrite map_map. apply map_ext. intros i. lia. }
    rewrite Hcums in Hrest. apply IH in Hrest as [Hlen Hrest].
    split; [simpl; by rewrite Hlen|].
    intros [|k] c' Hc' Hk; simpl in *.
    + injection Hc' as <-. exists c, kept_ids.
      rewrite !Nat.add_0_r in *. done.
    + destruct (Hrest k c' Hc') as (c0 & ids0 & Hc0 & Hids0 & ->); [lia|].
      exists c0, ids0. split; [done|]. split; [|done].
      rewrite <- Hids0. f_equal; lia.
Qed.


Lemma length_concat_same_shape {A B} (xs : list (list A)) (ys : list (list B)) :
  Forall2 (fun x y => length x = length y) xs ys ->
  length (concat xs) = length (concat ys).
Proof.
  induction 1 as [|x y xs ys Hxy _ IH]; simpl; [done|].
  rewrite !length_app. lia.
Qed.

(** Floats at work: ten tokens at 0.7 keep 7 of them, fifty at 0.58 keep
    28. *)
Example target_len_is_rounded :
  target_len 10 (Q2Qc (7 # 10)) = Ok 7 /\ target_len 50 (Q2Qc (58 # 100)) = Ok 28.
Proof. by vm_compute. Qed.

(** Beyond [2^53] the number of tokens is itself rounded when it becomes a
    float: of [2^53 + 1] tokens a fraction of 1 keeps [2^53]. *)
Example target_len_beyond_doubles :
  target_len (Z.to_nat (2 ^ 53 + 1)) 1%Qc = Ok (2 ^ 53).
Proof.
  unfold target_len, float_product. rewrite Z2Nat.id by lia. by vm_compute.
Qed.



(** ** The greedy loop of context selection (claim C2) *)

Section Greedy.
Context `{Externals}.

Lemma greedy_loop_spec a ctxs L todo acc len0 out total :
  greedy_loop a ctxs L todo acc len0 = Ok (out, total) ->
  exists added lens,
    out = acc ++ added
    /\ added `prefix_of` todo
    /\ rmap (rendered_len a ctxs) added = Ok lens
    /\ total = len0 + sum_Z lens
    /\ (forall k, (0 < k < length added)%nat -> len0 + sum_Z (take k lens) < L)
    /\ (comp_sent a = false ->
        forall k len, lens !! k = Some len ->
          Z.abs (len0 + sum_Z (take k lens) + len - L)
          <= Z.abs (len0 + sum_Z (take k lens) - L))
    /\ (forall idx, todo !! length added = Some idx ->
          (added <> [] /\ L <= total)
          \/ (comp_sent a = false
              /\ exists len, rendered_len a ctxs idx = Ok len
                   /\ Z.abs (total - L) < Z.abs (total + len - L))).
Proof.
  revert acc len0. induction todo as [|idx todo IH]; intros acc len0; simpl.
  { intros [= <- <-]. exists [], []. simpl.
    split; [by rewrite app_nil_r|]. split; [done|]. split; [done|].
    split; [lia|]. split; [intros; simpl in *; lia|]. split; [done|]. done. }
  intros Hrun. bind_inv Hrun as len Hlen.
  destruct (negb (comp_sent a) && _) eqn:Hguard.
  { injection Hrun as <- <-. exists [], []. simpl.
    apply andb_true_iff in Hguard as [Hcs Hfar].
    apply negb_true_iff in Hcs. apply Z.ltb_lt in Hfar.
    split; [by rewrite app_nil_r|]. split; [apply prefix_nil|]. split; [done|].
    split; [lia|]. split; [intros; simpl in *; lia|]. split; [done|].
    intros idx' [= <-]. right. split; [done|]. exists len. split; [done|]. lia. }
  assert (comp_sent a = false -> Z.abs (len0 + len - L) <= Z.abs (len0 - L)) as Hnear.
  { intros Hcs. rewrite Hcs in Hguard. simpl in Hguard.
    apply Z.ltb_ge in Hguard. lia. }
  destruct (Z.geb_spec (len0 + len) L) as [Hreach|Hbelow].
  - injection Hrun as <- <-. exists [idx], [len]. simpl. rewrite Hlen. simpl.
    split; [done|]. split; [by apply prefix_cons, prefix_nil|]. split; [done|].
    split; [lia|]. split; [intros; lia|]. split.
    + intros Hcs [|k] len' Hk; simpl in *; [|done].
      injection Hk as <-. specialize (Hnear Hcs). simpl. lia.
    + intros idx' _. left. split; [done | lia].
  - apply IH in Hrun
      as (added & lens & -> & Hpre & Hlens & -> & Hbelow' & Hnear' & Hstop).
    exists (idx :: added), (len :: lens). simpl. rewrite Hlen. simpl. rewrite Hlens. simpl.
    split; [by rewrite <- app_assoc|]. split; [by apply prefix_cons|].
    split; [done|]. split; [lia|]. split; [|split].
    + intros [|k] Hk; [lia|]. simpl.
      destruct k as [|k]; [rewrite take_0; simpl; lia|].
      specialize (Hbelow' (S k)). simpl in *. lia.
    + intros Hcs [|k] len' Hk; simpl in *.
      * injection Hk as <-. specialize (Hnear Hcs). lia.
      * specialize (Hnear' Hcs k len' Hk).
        replace (len0 + (len + sum_Z (take k lens)))
          with (len0 + len + sum_Z (take k lens)) by lia. done.
    + intros idx' Hidx'. destruct (Hstop idx' Hidx') as [[Hne Hreach]|(Hcs & len' & Hlen' & Hfar)].
      * left. split; [done | lia].
      * right. split; [done|]. exists len'. split; [done|].
        replace (len0 + (len + sum_Z lens)) with (len0 + len + sum_Z lens) by lia. done.
Qed.

Lemma greedy_loop_total a ctxs L todo acc len0 :
  (forall idx, idx ∈ todo -> (idx < length ctxs)%nat) ->
  exists out total, greedy_loop a ctxs L todo acc len0 = Ok (out, total).
Proof.
  revert acc len0. induction todo as [|idx todo IH]; intros acc len0 Hlt; simpl; [eauto|].
  assert (exists len, rendered_len a ctxs idx = Ok len) as [len Hlen].
  { unfold rendered_len.
    destruct (getitem_lt ctxs idx) as (c & Hc & _); [apply Hlt; by left|].
    rewrite Hc. simpl. destruct (Py.contains _ _); eauto. }
  rewrite Hlen. simpl.
  destruct (negb _ && _); [eauto|].
  destruct (_ >=? _); [eauto|].
  apply IH. intros idx' Hin. apply Hlt. by right.
Qed.

End Greedy.

(** ** [compress_contexts], step by step *)

Section ContextsFacts.
Context `{Externals}.

Lemma compress_contexts_inv a bs bt ctxs L thr q p s :
  compress_contexts a bs bt ctxs L thr q p = Ok s ->
  exists scores prompt scores' ctxs',
    get_ctx_scores bs (ctx_score_mode a) (question_mode a) (include_end_token a)
      q (map title ctxs) p = Ok scores
    /\ get_prompt [] q (dataset a) true = Ok prompt
    /\ match thr with
       | Some t =>
           select_by_cumsum scores t = Ok (scores', ctx_indices s)
           /\ len_total_final s = Z.of_nat (gpt_len prompt)
       | None =>
           greedy_loop a ctxs L (rev (NP.argsort scores)) [] (Z.of_nat (gpt_len prompt))
             = Ok (ctx_indices s, len_total_final s)
           /\ scores' = scores
       end
    /\ annotate ctxs scores' (ctx_indices s) = Ok ctxs'
    /\ let sel := if do_sort_ctx a then ctx_indices s else Py.sorted_nat (ctx_indices s) in
       NP.take_indices ctxs' sel = Ok (ctxs_selected s)
       /\ NP.take_indices bs sel = Ok (batch_scores_selected s)
       /\ NP.take_indices bt sel = Ok (batch_token_ids_selected s).
Proof.
  unfold compress_contexts. intros Hrun.
  bind_inv Hrun as scores Hscores. bind_inv Hrun as prompt Hprompt.
  bind_inv Hrun as [[scores' idxs] total] Hsel. simpl in Hrun.
  bind_inv Hrun as ctxs' Hann. bind_inv Hrun as sel_ctxs Hc.
  bind_inv Hrun as sel_bs Hbs. bind_inv Hrun as sel_bt Hbt.
  injection Hrun as <-. simpl.
  exists scores, prompt, scores', ctxs'.
  split; [done|]. split; [done|]. split; [|done].
  destruct thr as [t|].
  - bind_inv Hsel as [sc ix] Hcum. simpl in Hsel. injection Hsel as -> -> ->. done.
  - bind_inv Hsel as [ix tot] Hgreedy. simpl in Hsel. injection Hsel as -> -> ->. done.
Qed.

Lemma annotate_spec ctxs scores idxs ctxs' :
  annotate ctxs scores idxs = Ok ctxs' ->
  length ctxs' = length ctxs
  /\ map org_idx ctxs' = map org_idx ctxs
  /\ map title ctxs' = map title ctxs
  /\ map text ctxs' = map text ctxs.
Proof.
  revert ctxs. induction idxs as [|idx idxs IH]; intros ctxs; simpl.
  - intros [= <-]. done.
  - intros Hrun. bind_inv Hrun as c Hc. bind_inv Hrun as s Hs.
    apply getitem_Ok in Hc.
    apply IH in Hrun as (Hlen & Horg & Htitle & Htext).
    rewrite Hlen, Horg, Htitle, Htext, length_insert.
    split; [done|]. rewrite !list_fmap_insert. simpl.
    split; [|split]; apply list_insert_id; by rewrite list_lookup_fmap, Hc.
Qed.

Lemma annotate_total ctxs scores idxs :
  (forall idx, idx ∈ idxs -> (idx < length ctxs)%nat /\ (idx < length scores)%nat) ->
  exists ctxs', annotate ctxs scores idxs = Ok ctxs'.
Proof.
  revert ctxs. induction idxs as [|idx idxs IH]; intros ctxs Hlt; simpl; [eauto|].
  destruct (Hlt idx) as [Hc Hs]; [by left|].
  destruct (getitem_lt ctxs idx Hc) as (c & -> & _).
  destruct (getitem_lt scores idx Hs) as (s & -> & _). simpl.
  apply IH. intros idx' Hin. rewrite length_insert. apply Hlt. by right.
Qed.

Lemma take_indices_total {A} (l : list A) idxs :
  (forall i, i ∈ idxs -> (i < length l)%nat) ->
  exists sel, NP.take_indices l idxs = Ok sel.
Proof.
  intros Hlt. apply rmap_total, Forall_forall. intros i Hi.
  destruct (getitem_lt l i (Hlt i Hi)) as (x & Hx & _). eauto.
Qed.

(** The greedy mode returns on inputs of one shape. *)
Lemma compress_contexts_greedy_returns a bs bt ctxs L q p :
  question_mode a = "include" ->
  ctx_score_mode a = "mean" \/ ctx_score_mode a = "sum" ->
  length bs = length ctxs -> length bt = length ctxs ->
  (exists prompt, get_prompt [] q (dataset a) true = Ok prompt) ->
  exists s, compress_contexts a bs bt ctxs L None q p = Ok s.
Proof.
  intros Hq Hmode Hbs Hbt [prompt Hprompt].
  unfold compress_contexts, get_ctx_scores.
  rewrite Hq, batch_scores_ctxs_include. cbn [mbind result_bind rbind].
  destruct (rmap_total (aggregate (ctx_score_mode a) (include_end_token a)) bs)
    as [scores Hscores].
  { apply Forall_forall. intros row _. apply aggregate_valid.
    - destruct Hmode as [-> | ->]; [by left | by right; right].
    - intros Hmax. destruct Hmode as [Hm|Hm]; rewrite Hm in Hmax; discriminate. }
  pose proof (rmap_Ok_length _ _ _ Hscores) as Hlen.
  rewrite Hscores, Hprompt. cbn [mbind result_bind rbind].
  assert (forall idx, idx ∈ rev (NP.argsort scores) -> (idx < length ctxs)%nat) as Hlt.
  { intros idx Hidx. apply (proj1 (elem_of_rev _ _)) in Hidx.
    apply argsort_lt in Hidx. lia. }
  destruct (greedy_loop_total a ctxs L (rev (NP.argsort scores)) []
              (Z.of_nat (gpt_len prompt)) Hlt) as (out & total & Hloop).
  rewrite Hloop. cbn [mbind result_bind rbind].
  apply greedy_loop_spec in Hloop as (added & lens & -> & Hpre & _).
  simpl.
  assert (forall idx, idx ∈ added -> (idx < length ctxs)%nat) as Hadded.
  { intros idx Hidx. apply Hlt. destruct Hpre as [k ->]. apply elem_of_app. by left. }
  destruct (annotate_total ctxs scores added) as [ctxs' Hann].
  { intros idx Hidx. specialize (Hadded idx Hidx). lia. }
  rewrite Hann. cbn [mbind result_bind rbind].
  apply annotate_spec in Hann as (Hlen' & _).
  set (sel := if do_sort_ctx a then added else Py.sorted_nat added).
  assert (forall idx, idx ∈ sel -> (idx < length ctxs)%nat) as Hsel.
  { intros idx Hidx. apply Hadded. subst sel.
    destruct (do_sort_ctx a); [done|]. by rewrite sorted_nat_perm in Hidx. }
  destruct (take_indices_total ctxs' sel) as [c Hc];
    [intros i Hi; specialize (Hsel i Hi); lia|].
  destruct (take_indices_total bs sel) as [sb Hsb];
    [intros i Hi; specialize (Hsel i Hi); lia|].
  destruct (take_indices_total bt sel) as [st Hst];
    [intros i Hi; specialize (Hsel i Hi); lia|].
  rewrite Hc. cbn [mbind result_bind rbind].
  rewrite Hsb. cbn [mbind result_bind rbind].
  rewrite Hst. cbn [mbind result_bind rbind]. eauto.
Qed.

End ContextsFacts.

(** C2: the greedy mode of [compress_contexts] ([ctx_score_cumsum] is
    [None]). The selected positions are a prefix of the passages in
    descending order of score, and the final [len_total] is the length of
    the empty-context prompt plus the rendered lengths of the selected
    passages. No passage is added after the running total has reached
    [ctx_comp_len]; with [comp_sent] unset, no addition moves the running
    total farther from [ctx_comp_len], whence the final total is no farther
    from it than the total without the last selected passage; and when the
    loop leaves a passage out, either the total has reached [ctx_comp_len]
    or [comp_sent] is unset and that passage would move the total farther
    away. *)
Theorem C2_greedy_budget `{Externals} :
  forall a batch_scores batch_token_ids ctxs ctx_comp_len question pattern_str s,
    compress_contexts a batch_scores batch_token_ids ctxs ctx_comp_len None
      question pattern_str = Ok s ->
    exists scores prompt lens,
      get_ctx_scores batch_scores (ctx_score_mode a) (question_mode a)
        (include_end_token a) question (map title ctxs) pattern_str = Ok scores
      /\ get_prompt [] question (dataset a) true = Ok prompt
      /\ StronglySorted (flip (score_le scores)) (rev (NP.argsort scores))
      /\ ctx_indices s `prefix_of` rev (NP.argsort scores)
      /\ rmap (rendered_len a ctxs) (ctx_indices s) = Ok lens
      /\ len_total_final s = Z.of_nat (gpt_len prompt) + sum_Z lens
      /\ (forall k, (0 < k < length (ctx_indices s))%nat ->
            Z.of_nat (gpt_len prompt) + sum_Z (take k lens) < ctx_comp_len)
      /\ (comp_sent a = false ->
          forall k len, lens !! k = Some len ->
            Z.abs (Z.of_nat (gpt_len prompt) + sum_Z (take k lens) + len - ctx_comp_len)
            <= Z.abs (Z.of_nat (gpt_len prompt) + sum_Z (take k lens) - ctx_comp_len))
      /\ (comp_sent a = false ->
          forall lens' last_len, lens = lens' ++ [last_len] ->
            Z.abs (len_total_final s - ctx_comp_len)
            <= Z.abs (len_total_final s - last_len - ctx_comp_len))
      /\ (forall idx, rev (NP.argsort scores) !! length (ctx_indices s) = Some idx ->
            (ctx_indices s <> [] /\ ctx_comp_len <= len_total_final s)
            \/ (comp_sent a = false
                /\ exists len, rendered_len a ctxs idx = Ok len
                     /\ Z.abs (len_total_final s - ctx_comp_len)
                        < Z.abs (len_total_final s + len - ctx_comp_len))).
Proof.
  intros a bs bt ctxs L q p s Hrun.
  apply compress_contexts_inv in Hrun
    as (scores & prompt & scores' & ctxs' & Hscores & Hprompt & [Hloop ->] & _).
  apply greedy_loop_spec in Hloop
    as (added & lens & Hadded & Hpre & Hlens & Htotal & Hbelow & Hnear & Hstop).
  simpl in Hadded. subst added.
  exists scores, prompt, lens.
  split; [done|]. split; [done|].
  split; [apply StronglySorted_rev, argsort_sorted|].
  split; [done|]. split; [done|]. split; [done|]. split; [done|]. split; [done|].
  split; [|done].
  intros Hcs lens' last_len ->.
  specialize (Hnear Hcs (length lens') last_len).
  rewrite lookup_app_r, Nat.sub_diag in Hnear by lia.
  specialize (Hnear eq_refl). rewrite take_app_length in Hnear.
  rewrite Htotal.
  assert (sum_Z (lens' ++ [last_len]) = sum_Z lens' + last_len) as ->.
  { clear. induction lens' as [|x l IH]; simpl; lia. }
  replace (Z.of_nat (gpt_len prompt) + (sum_Z lens' + last_len) - last_len - L)
    with (Z.of_nat (gpt_len prompt) + sum_Z lens' - L) by lia.
  replace (Z.of_nat (gpt_len prompt) + (sum_Z lens' + last_len) - L)
    with (Z.of_nat (gpt_len prompt) + sum_Z lens' + last_len - L) by lia.
  done.
Qed.

Lemma C2_witness :
  exists s scores,
    compress_contexts (H := Demo.externals) (Demo.cfg "sum" "include" false false)
      [[Demo.score 1 10]; [Demo.score 1 2]; [Demo.score 2 5]] [[1]; [1]; [1]]
      [Demo.passage 1 "some text."; Demo.passage 2 "some text."; Demo.passage 3 "some text."]
      200 None "who?" "context:" = Ok s
    /\ get_ctx_scores (H := Demo.externals)
         [[Demo.score 1 10]; [Demo.score 1 2]; [Demo.score 2 5]]
         "sum" "include" true "who?" [Some "T"; Some "T"; Some "T"] "context:" = Ok scores
    /\ ctx_indices s `prefix_of` rev (NP.argsort scores).
Proof.
  destruct (compress_contexts (H := Demo.externals) (Demo.cfg "sum" "include" false false)
      [[Demo.score 1 10]; [Demo.score 1 2]; [Demo.score 2 5]] [[1]; [1]; [1]]
      [Demo.passage 1 "some text."; Demo.passage 2 "some text."; Demo.passage 3 "some text."]
      200 None "who?" "context:") as [s|err] eqn:Hrun; [|by vm_compute in Hrun].
  destruct (C2_greedy_budget (H := Demo.externals) _ _ _ _ _ _ _ _ Hrun)
    as (scores & prompt & lens & Hscores & _ & _ & Hprefix & _).
  exists s, scores. split; [done|]. split; [exact Hscores | exact Hprefix].
Defined.

(** ** Order of the passages through the three stages (claim C6) *)

Lemma sublist_map {A B} (f : A -> B) (l1 l2 : list A) :
  l1 `sublist_of` l2 -> map f l1 `sublist_of` map f l2.
Proof. apply (fmap_sublist f). Qed.

Lemma take_indices_sublist_from {A} (l : list A) (idxs : list nat) (n : nat) sel :
  StronglySorted lt idxs ->
  Forall (fun i => (n <= i)%nat) idxs ->
  NP.take_indices l idxs = Ok sel ->
  sel `sublist_of` drop n l.
Proof.
  unfold NP.take_indices. intros Hs. revert n sel.
  induction Hs as [|i idxs Hs IH Hi]; intros n sel Hn; simpl.
  - intros [= <-]. apply sublist_nil_l.
  - intros Hrun. bind_inv Hrun as x Hx. bind_inv Hrun as sel' Hsel'.
    injection Hrun as <-. apply getitem_Ok in Hx.
    apply Forall_cons in Hn as [Hni _].
    assert (sel' `sublist_of` drop (S i) l) as Hsub.
    { apply IH; [|done]. eapply Forall_impl; [exact Hi|]. simpl. lia. }
    replace i with (n + (i - n))%nat in Hx by lia.
    rewrite <- lookup_drop in Hx.
    apply take_drop_middle in Hx. rewrite <- Hx.
    apply sublist_inserts_l. apply sublist_skip.
    rewrite drop_drop. by replace (n + S (i - n))%nat with (S i) by lia.
Qed.

Lemma take_indices_sublist {A} (l : list A) (idxs : list nat) sel :
  StronglySorted lt idxs -> NP.take_indices l idxs = Ok sel -> sel `sublist_of` l.
Proof.
  intros Hs Hrun. rewrite <- (drop_0 l).
  eapply take_indices_sublist_from; [done| |done].
  apply Forall_forall. intros; lia.
Qed.

Lemma NoDup_prefix {A} (l1 l2 : list A) : l1 `prefix_of` l2 -> NoDup l2 -> NoDup l1.
Proof. intros [k ->] Hnd. by apply NoDup_app in Hnd as [? _]. Qed.

Lemma NoDup_rev_argsort a : NoDup (rev (NP.argsort a)).
Proof.
  rewrite <- (Permutation_rev (NP.argsort a)). apply argsort_NoDup.
Qed.

Section OrderFacts.
Context `{Externals}.

Lemma select_by_cumsum_spec scores thr scores' idxs :
  select_by_cumsum scores thr = Ok (scores', idxs) ->
  scores' = map (fun s => NP.div s (NP.sum scores)) scores
  /\ exists sorted_scores k,
       NP.take_indices scores' (rev (NP.argsort scores')) = Ok sorted_scores
       /\ NP.first_true (map (fun c => NP.gt c (Real thr)) (NP.cumsum sorted_scores)) = Some k
       /\ idxs = take (Nat.max 1 k) (rev (NP.argsort scores')).
Proof.
  unfold select_by_cumsum. intros Hrun.
  bind_inv Hrun as sorted_scores Hsorted. bind_inv Hrun as k Hk.
  apply of_option_Ok in Hk. injection Hrun as <- <-.
  split; [done|]. exists sorted_scores, k. split; [done|]. split; [done|].
  destruct k; done.
Qed.

Lemma ctx_indices_NoDup a bs bt ctxs L thr q p s :
  compress_contexts a bs bt ctxs L thr q p = Ok s -> NoDup (ctx_indices s).
Proof.
  intros Hrun. apply compress_contexts_inv in Hrun
    as (scores & prompt & scores' & ctxs' & _ & _ & Hsel & _).
  destruct thr as [t|].
  - destruct Hsel as [Hsel _].
    apply select_by_cumsum_spec in Hsel as (_ & sorted & k & _ & _ & ->).
    eapply NoDup_prefix; [apply prefix_take | apply NoDup_rev_argsort].
  - destruct Hsel as [Hloop _].
    apply greedy_loop_spec in Hloop as (added & lens & -> & Hpre & _).
    simpl. eapply NoDup_prefix; [exact Hpre | apply NoDup_rev_argsort].
Qed.

Lemma compress_contexts_order a bs bt ctxs L thr q p s :
  do_sort_ctx a = false ->
  compress_contexts a bs bt ctxs L thr q p = Ok s ->
  map org_idx (ctxs_selected s) `sublist_of` map org_idx ctxs.
Proof.
  intros Hsort Hrun. pose proof (ctx_indices_NoDup _ _ _ _ _ _ _ _ _ Hrun) as Hnd.
  apply compress_contexts_inv in Hrun
    as (scores & prompt & scores' & ctxs' & _ & _ & _ & Hann & Hsel & _).
  rewrite Hsort in Hsel.
  apply annotate_spec in Hann as (_ & <- & _).
  apply sublist_map. eapply take_indices_sublist; [|exact Hsel].
  by apply sorted_nat_NoDup_lt.
Qed.

Lemma sentence_step_org_idx e st idx st' :
  sentence_step e st idx = Ok st' ->
  map org_idx (st_ctxs st') = map org_idx (st_ctxs st).
Proof.
  intros Hrun. apply sentence_step_cases in Hrun as (i & c & ps & _ & Hc & _ & Hout).
  destruct Hout as [_ _ ->|_ _ ->|_ _ _ ->|r k sp sents txt _ _ _ _ _ _ _ ->]; try done.
  rewrite list_fmap_insert. simpl. apply list_insert_id.
  by rewrite list_lookup_fmap, Hc.
Qed.

Lemma sentence_loop_org_idx e st todo st' :
  sentence_loop e st todo = Ok st' ->
  map org_idx (st_ctxs st') = map org_idx (st_ctxs st).
Proof.
  revert st. induction todo as [|idx todo IH]; intros st; simpl.
  - by intros [= <-].
  - intros Hrun. bind_inv Hrun as st1 Hst1.
    rewrite (IH _ Hrun). by eapply sentence_step_org_idx.
Qed.

Lemma remove_ctxs_sublist ctxs rem : remove_ctxs ctxs rem `sublist_of` ctxs.
Proof.
  unfold remove_ctxs. destruct (0 <? length rem)%nat; [|done].
  rewrite <- (snd_enumerate ctxs) at 2. apply (fmap_sublist snd), sublist_filter.
Qed.

Lemma compress_sentences_order bs bt ctxs cis scl adaptive q p pow c1s ns nt out :
  compress_sentences bs bt ctxs cis scl adaptive q p pow c1s = Ok (ns, nt, out) ->
  map org_idx out `sublist_of` map org_idx ctxs.
Proof.
  unfold compress_sentences. intros Hrun.
  bind_inv Hrun as starts Hstarts. bind_inv Hrun as eos Heos.
  bind_inv Hrun as sc Hsc. bind_inv Hrun as ids Hids.
  bind_inv Hrun as comp Hcomp. bind_inv Hrun as st Hloop.
  bind_inv Hrun as new_sc Hnsc. bind_inv Hrun as new_ids Hnids.
  injection Hrun as <- <- <-.
  apply sentence_loop_org_idx in Hloop. simpl in Hloop. rewrite <- Hloop.
  apply sublist_map, remove_ctxs_sublist.
Qed.

Lemma token_loop_org_idx targets (ids : list Z) cums ctxs start out :
  token_loop targets ids cums ctxs start = Ok out ->
  map org_idx out = map org_idx ctxs.
Proof.
  revert ctxs start out. induction cums as [|cum cums IH]; intros ctxs start out; simpl.
  - by intros [= <-].
  - destruct ctxs as [|c ctxs]; [by intros [= <-]|].
    intros Hrun. bind_inv Hrun as kept Hkept. bind_inv Hrun as rest Hrest.
    injection Hrun as <-. simpl. f_equal. by eapply IH.
Qed.

Lemma compress_tokens_order bs bt ctxs lamb out :
  compress_tokens bs bt ctxs lamb = Ok out -> map org_idx out = map org_idx ctxs.
Proof.
  unfold compress_tokens. intros Hrun.
  bind_inv Hrun as scores Hscores. bind_inv Hrun as ids Hids.
  bind_inv Hrun as n_targets Htargets.
  by eapply token_loop_org_idx.
Qed.

End OrderFacts.

(** C6: with [do_sort_ctx] unset, the [org_idx] of the passages that leave
    the pipeline are a subsequence of the [org_idx] of the passages that
    entered it, in the same relative order. Context selection puts the
    selected positions back in input order; sentence selection only takes
    passages out and rewrites texts; token selection only rewrites texts.
    The three stages are chained through their passage lists; the other
    arguments of the later stages are free. *)
Theorem C6_order_preserved `{Externals} :
  forall a batch_scores batch_token_ids ctxs ctx_comp_len ctx_score_cumsum question pattern_str s,
    do_sort_ctx a = false ->
    compress_contexts a batch_scores batch_token_ids ctxs ctx_comp_len ctx_score_cumsum
      question pattern_str = Ok s ->
    map org_idx (ctxs_selected s) `sublist_of` map org_idx ctxs
    /\ (forall scores2 ids2 ctx_indices_sorted sent_comp_len adaptive_sent_comp question2
               pattern_str2 pow constraint_1_sent new_scores new_token_ids ctxs2,
          compress_sentences scores2 ids2 (ctxs_selected s) ctx_indices_sorted sent_comp_len
            adaptive_sent_comp question2 pattern_str2 pow constraint_1_sent
            = Ok (new_scores, new_token_ids, ctxs2) ->
          map org_idx ctxs2 `sublist_of` map org_idx ctxs
          /\ (forall scores3 ids3 token_lamb out,
                compress_tokens scores3 ids3 ctxs2 token_lamb = Ok out ->
                map org_idx out `sublist_of` map org_idx ctxs))
    /\ (forall scores3 ids3 token_lamb out,
          compress_tokens scores3 ids3 (ctxs_selected s) token_lamb = Ok out ->
          map org_idx out `sublist_of` map org_idx ctxs).
Proof.
  intros a bs bt ctxs L thr q p s Hsort Hrun.
  pose proof (compress_contexts_order _ _ _ _ _ _ _ _ _ Hsort Hrun) as Hsub.
  split; [done|]. split.
  - intros scores2 ids2 cis scl adaptive q2 p2 pow c1s ns nt ctxs2 Hsent.
    apply compress_sentences_order in Hsent.
    assert (map org_idx ctxs2 `sublist_of` map org_idx ctxs) as Hsub2
      by (etrans; [exact Hsent | exact Hsub]).
    split; [done|]. intros scores3 ids3 lamb out Htok.
    apply compress_tokens_order in Htok. by rewrite Htok.
  - intros scores3 ids3 lamb out Htok.
    apply compress_tokens_order in Htok. by rewrite Htok.
Qed.

Lemma C6_witness :
  exists out,
    Demo.pipeline (Demo.cfg "mean" "exclude" false true) Demo.two_score_rows
      Demo.two_token_rows Demo.two_passages 400 None "q" "context:" 6 true (Q2Qc (1 # 2))
      = Ok out
    /\ map org_idx out `sublist_of` map org_idx Demo.two_passages.
Proof.
  destruct (Demo.pipeline (Demo.cfg "mean" "exclude" false true) Demo.two_score_rows
      Demo.two_token_rows Demo.two_passages 400 None "q" "context:" 6 true (Q2Qc (1 # 2)))
    as [out|err] eqn:Hrun; [|by vm_compute in Hrun].
  exists out. split; [done|].
  unfold Demo.pipeline in Hrun.
  bind_inv Hrun as s Hs. bind_inv Hrun as [[ns nt] ctxs2] Hsent. simpl in Hrun.
  destruct (C6_order_preserved (H := Demo.externals)
              (Demo.cfg "mean" "exclude" false true) _ _ _ _ _ _ _ _ eq_refl Hs)
    as (_ & Hstages & _).
  destruct (Hstages _ _ _ _ _ _ _ _ _ _ _ _ Hsent) as [_ Htokens].
  by eapply Htokens.
Defined.

(** ** The percentile scenario (claim C1) *)

(** C1, as the code has it: on three passages with scores 0.1, 0.5 and 0.4
    and [ctx_score_cumsum = 0.5], [compress_contexts] retains one passage,
    the one with score 0.5. The cumulative normalized scores in descending
    order are 0.5, 0.9, 1; the first one strictly above 0.5 is at position
    1, and the passages before that position are kept (one at least). *)
Theorem C1_percentile_scenario `{Externals} :
  forall a batch_scores batch_token_ids c0 c1 c2 ctx_comp_len question pattern_str,
    get_ctx_scores batch_scores (ctx_score_mode a) (question_mode a) (include_end_token a)
      question (map title [c0; c1; c2]) pattern_str
      = Ok [Demo.score 1 10; Demo.score 1 2; Demo.score 2 5] ->
    (exists prompt, get_prompt [] question (dataset a) true = Ok prompt) ->
    (2 <= length batch_scores)%nat ->
    (2 <= length batch_token_ids)%nat ->
    exists s,
      compress_contexts a batch_scores batch_token_ids [c0; c1; c2] ctx_comp_len
        (Some (Q2Qc (1 # 2))) question pattern_str = Ok s
      /\ ctx_indices s = [1%nat]
      /\ ctxs_selected s = [set_ctx_score c1 (Demo.score 1 2)].
Proof.
  intros a bs bt c0 c1 c2 L q p Hscores [prompt Hprompt] Hbs Hbt.
  unfold compress_contexts. rewrite Hscores, Hprompt.
  cbn [mbind result_bind rbind].
  assert (select_by_cumsum [Demo.score 1 10; Demo.score 1 2; Demo.score 2 5] (Q2Qc (1 # 2))
          = Ok ([Demo.score 1 10; Demo.score 1 2; Demo.score 2 5], [1%nat])) as ->
    by (vm_compute; reflexivity).
  cbn [mbind result_bind rbind annotate getitem of_option lookup list_lookup].
  destruct (getitem_lt bs 1 Hbs) as (row & Hrow & _).
  destruct (getitem_lt bt 1 Hbt) as (ids & Hids & _).
  assert (Py.sorted_nat [1%nat] = [1%nat]) as Hsorted by reflexivity.
  assert ((if do_sort_ctx a then [1%nat] else Py.sorted_nat [1%nat]) = [1%nat]) as ->
    by (destruct (do_sort_ctx a); done).
  unfold NP.take_indices. simpl. rewrite Hrow, Hids. simpl.
  eexists. split; [reflexivity|]. done.
Qed.

Lemma C1_witness :
  exists s,
    compress_contexts (H := Demo.externals) (Demo.cfg "sum" "include" false false)
      [[Demo.score 1 10]; [Demo.score 1 2]; [Demo.score 2 5]] [[1]; [1]; [1]]
      [Demo.passage 1 "one."; Demo.passage 2 "two."; Demo.passage 3 "three."]
      100 (Some (Q2Qc (1 # 2))) "who?" "context:" = Ok s
    /\ ctx_indices s = [1%nat]
    /\ ctxs_selected s = [set_ctx_score (Demo.passage 2 "two.") (Demo.score 1 2)].
Proof.
  apply (C1_percentile_scenario (H := Demo.externals)
           (Demo.cfg "sum" "include" false false)).
  - vm_compute. reflexivity.
  - eexists. reflexivity.
  - simpl. lia.
  - simpl. lia.
Defined.

(** The claim as it is written expects two passages back, those with
    scores 0.5 and 0.4 (the second and the third). *)
Lemma C1_counterexample :
  ~ exists s,
      compress_contexts (H := Demo.externals) (Demo.cfg "sum" "include" false false)
        [[Demo.score 1 10]; [Demo.score 1 2]; [Demo.score 2 5]] [[1]; [1]; [1]]
        [Demo.passage 1 "one."; Demo.passage 2 "two."; Demo.passage 3 "three."]
        100 (Some (Q2Qc (1 # 2))) "who?" "context:" = Ok s
      /\ map org_idx (ctxs_selected s) ≡ₚ [2; 3].
Proof.
  intros (s & Hrun & Hperm).
  vm_compute in Hrun. injection Hrun as <-.
  apply Permutation_length in Hperm. discriminate.
Qed.

(** ** An empty list of passages (claim C8) *)

(** C8, as the code has it: [compress_contexts] has no check on the number
    of passages. On an empty list, with ['include'] as question mode and a
    prompt that renders, the greedy mode returns empty selections (whatever
    the aggregation mode) and the percentile mode fails on the index of the
    first cumulative score above the threshold; with ['exclude'] it fails on
    the title of the first passage; and an unknown question mode is
    reported as such. *)
Theorem C8_empty_passage_list `{Externals} :
  forall a ctx_comp_len ctx_score_cumsum question pattern_str,
    let r := compress_contexts a [] [] [] ctx_comp_len ctx_score_cumsum
               question pattern_str in
    (question_mode a = "include" ->
     forall prompt, get_prompt [] question (dataset a) true = Ok prompt ->
       match ctx_score_cumsum with
       | None => r = Ok (mk_selection [] [] [] [] (Z.of_nat (gpt_len prompt)))
       | Some _ => r = Err IndexError
       end)
    /\ (question_mode a = "exclude" -> r = Err IndexError)
    /\ (~ valid_question_mode (question_mode a) -> r = Err InvalidQuestionMode).
Proof.
  intros a L thr q p r. subst r. unfold compress_contexts, get_ctx_scores.
  split; [|split].
  - intros Hq prompt Hprompt. rewrite Hq, batch_scores_ctxs_include.
    cbn [mbind result_bind rbind rmap]. rewrite Hprompt.
    cbn [mbind result_bind rbind].
    destruct thr as [t|]; [reflexivity|].
    simpl. by destruct (do_sort_ctx a).
  - intros Hq. rewrite Hq. reflexivity.
  - intros Hq. by rewrite batch_scores_ctxs_invalid.
Qed.

Lemma C8_witness :
  compress_contexts (H := Demo.externals) (Demo.cfg "mean" "include" false false)
    [] [] [] 100 None "who?" "context:"
  = Ok (mk_selection [] [] [] [] 152).
Proof.
  pose proof (C8_empty_passage_list (H := Demo.externals)
                (Demo.cfg "mean" "include" false false) 100 None "who?" "context:")
    as (Hinclude & _).
  exact (Hinclude eq_refl _ eq_refl).
Defined.

(** The claim as it is written expects a failure. *)
Lemma C8_counterexample :
  ~ exists e,
      compress_contexts (H := Demo.externals) (Demo.cfg "mean" "include" false false)
        [] [] [] 100 None "who?" "context:" = Err e.
Proof. intros (e & Hrun). vm_compute in Hrun. discriminate. Qed.

(** * Further properties of the code *)

(** ** [chunks] *)

Lemma range_from_0_pos (stop : nat) (n : Z) :
  0 < n ->
  Scripts.range 0 (Z.of_nat stop) n
  = Some (map (fun k => Z.of_nat k * n)
              (seq 0 (Z.to_nat ((Z.of_nat stop + n - 1) / n)))).
Proof.
  intros Hn. unfold Scripts.range.
  destruct (Z.eqb_spec n 0) as [->|_]; [lia|].
  destruct (Z.ltb_spec 0 n) as [_|?]; [|lia].
  f_equal.
  assert ((if 0 <? Z.of_nat stop then (Z.of_nat stop - 0 - 1) / n + 1 else 0)
          = (Z.of_nat stop + n - 1) / n) as ->.
  { destruct (Z.ltb_spec 0 (Z.of_nat stop)) as [Hs|Hs].
    - replace (Z.of_nat stop + n - 1) with (Z.of_nat stop - 0 - 1 + 1 * n) by lia.
      rewrite Z.div_add by lia. lia.
    - assert (stop = 0%nat) as -> by lia. simpl.
      symmetry. apply Z.div_small. lia. }
  apply map_ext. intros k. lia.
Qed.

Lemma chunks_take {A} (lst : list A) (n : nat) (k : nat) :
  concat (map (fun i => Py.slice lst (Some i) (Some (i + Z.of_nat n)))
              (map (fun j => Z.of_nat j * Z.of_nat n) (seq 0 k)))
  = take (k * n) lst.
Proof.
  induction k as [|k IH]; [done|].
  rewrite seq_S, !map_app, concat_app, IH. simpl. rewrite app_nil_r.
  replace (Z.of_nat k * Z.of_nat n) with (Z.of_nat (k * n)) by lia.
  replace (Z.of_nat (k * n) + Z.of_nat n) with (Z.of_nat (k * n + n)) by lia.
  rewrite slice_between.
  replace (k * n + n - k * n)%nat with n by lia.
  rewrite take_take_drop. f_equal. lia.
Qed.

(** For a chunk size [n > 0], [chunks] loses and invents nothing: it returns
    [ceil(len(lst) / n)] chunks (the count the longchat script gives its
    progress bar), none of them empty, all of [n] elements except perhaps
    the last, and their concatenation is the list. *)
Theorem chunks_partition {A} (lst : list A) (n : Z) :
  0 < n ->
  exists cs,
    Scripts.chunks lst n = Some cs
    /\ concat cs = lst
    /\ Z.of_nat (length cs) = (Z.of_nat (length lst) + n - 1) / n
    /\ (forall k c, cs !! k = Some c ->
          (0 < length c)%nat /\ Z.of_nat (length c) <= n
          /\ ((S k < length cs)%nat -> Z.of_nat (length c) = n)).
Proof.
  intros Hn.
  assert (exists m, n = Z.of_nat m) as [m ->] by (exists (Z.to_nat n); lia).
  unfold Scripts.chunks. rewrite range_from_0_pos by done.
  cbn [mbind option_bind]. eexists. split; [reflexivity|].
  set (c := Z.to_nat ((Z.of_nat (length lst) + Z.of_nat m - 1) / Z.of_nat m)).
  assert (0 <= (Z.of_nat (length lst) + Z.of_nat m - 1) / Z.of_nat m) as Hc0
    by (apply Z.div_pos; lia).
  assert ((Z.of_nat c - 1) * Z.of_nat m < Z.of_nat (length lst) <= Z.of_nat c * Z.of_nat m)
    as Hc.
  { subst c. rewrite Z2Nat.id by done.
    pose proof (Z.mul_div_le (Z.of_nat (length lst) + Z.of_nat m - 1) (Z.of_nat m) Hn).
    pose proof (Z.mul_succ_div_gt (Z.of_nat (length lst) + Z.of_nat m - 1) (Z.of_nat m) Hn).
    nia. }
  split; [|split].
  - rewrite chunks_take. apply take_ge. nia.
  - rewrite !length_map, length_seq. subst c. lia.
  - intros k ch Hk. rewrite !length_map, length_seq.
    rewrite !list_lookup_fmap in Hk.
    destruct (seq 0 c !! k) as [j|] eqn:Hj; [|done]. simpl in Hk.
    apply lookup_seq in Hj as [-> Hkc]. simpl in Hk. injection Hk as <-.
    replace (Z.of_nat k * Z.of_nat m) with (Z.of_nat (k * m)) by lia.
    replace (Z.of_nat (k * m) + Z.of_nat m) with (Z.of_nat (k * m + m)) by lia.
    rewrite slice_between, length_take, length_drop.
    split; [nia|]. split; [lia|]. intros Hlast. nia.
Qed.

Lemma chunks_partition_witness :
  exists cs, Scripts.chunks [1; 2; 3; 4; 5] 2 = Some cs /\ concat cs = [1; 2; 3; 4; 5].
Proof.
  destruct (chunks_partition [1; 2; 3; 4; 5] 2) as (cs & Hcs & Hcat & _); [lia|].
  exists cs. split; [exact Hcs | exact Hcat].
Defined.

(** A zero chunk size raises [ValueError] (from [range]) and a negative one
    yields no chunk at all, whatever the list holds. *)
Theorem chunks_nonpositive {A} (lst : list A) (n : Z) :
  (n = 0 -> Scripts.chunks lst n = None)
  /\ (n < 0 -> Scripts.chunks lst n = Some []).
Proof.
  unfold Scripts.chunks, Scripts.range. split.
  - intros ->. reflexivity.
  - intros Hn. destruct (Z.eqb_spec n 0); [lia|].
    destruct (Z.ltb_spec 0 n); [lia|].
    destruct (Z.ltb_spec (Z.of_nat (length lst)) 0); [lia|]. reflexivity.
Qed.

Lemma chunks_nonpositive_witness :
  Scripts.chunks [1; 2; 3] 0 = None /\ Scripts.chunks [1; 2; 3] (-2) = Some [].
Proof.
  destruct (chunks_nonpositive [1; 2; 3] 0) as [Hzero _].
  destruct (chunks_nonpositive [1; 2; 3] (-2)) as [_ Hneg].
  split; [by apply Hzero | apply Hneg; lia].
Defined.

(** ** [get_prompt] *)

Lemma append_assoc (a b c : string) : (a +:+ b) +:+ c = a +:+ (b +:+ c).
Proof.
  induction a as [|x a IH]; [done|].
  change (String x ((a +:+ b) +:+ c) = String x (a +:+ (b +:+ c))). by rewrite IH.
Qed.

Lemma append_nil_r (a : string) : a +:+ EmptyString = a.
Proof.
  induction a as [|x a IH]; [done|].
  change (String x (a +:+ EmptyString) = String x a). by rewrite IH.
Qed.

Lemma append_eq_nil (a b : string) : a +:+ b = EmptyString -> a = EmptyString.
Proof. by destruct a. Qed.

Lemma append_eq_nil_r (a b : string) : a +:+ b = EmptyString -> b = EmptyString.
Proof. by destruct a. Qed.

Lemma split_not_nil c s : Py.split c s <> [].
Proof.
  destruct s as [|a s]; simpl; [done|].
  destruct (Ascii.eqb a c); [done|]. by destruct (Py.split c s).
Qed.

(** [sep.join(s.split(sep)) == s] *)
Lemma join_split c s : Py.join (String c EmptyString) (Py.split c s) = s.
Proof.
  induction s as [|a s IH]; [done|].
  pose proof (split_not_nil c s) as Hne. simpl.
  destruct (Py.split c s) as [|w ws]; [done|].
  destruct (Ascii.eqb_spec a c) as [->|_].
  - change (Py.join (String c EmptyString) (EmptyString :: w :: ws))
      with (String c (Py.join (String c EmptyString) (w :: ws))).
    by rewrite IH.
  - destruct ws as [|w' ws]; simpl in *; by rewrite <- IH.
Qed.

Lemma split_cons_ne c a s :
  a <> c ->
  Py.split c (String a s)
  = String a (default EmptyString (head (Py.split c s))) :: tail (Py.split c s).
Proof.
  intros Hne. pose proof (split_not_nil c s) as Hnil. simpl.
  destruct (Ascii.eqb_spec a c) as [->|_]; [done|].
  by destruct (Py.split c s).
Qed.

Lemma assoc_None {V} k (d : list (string * V)) : assoc k d = None <-> k ∉ d.*1.
Proof.
  induction d as [|[k' v] d IH]; simpl.
  - split; [intros _; apply not_elem_of_nil | done].
  - destruct (String.eqb_spec k k') as [->|Hne].
    + split; [done|]. intros Hnot. destruct Hnot. by left.
    + rewrite IH, not_elem_of_cons. tauto.
Qed.

(** The name of the long-document template is what follows the first
    underscore of the dataset name, further underscores included. *)
Lemma dataname_after_prefix name :
  Py.join "_" (tail (Py.split "_" ("longbench_" +:+ name))) = name.
Proof.
  change ("longbench_" +:+ name)
    with (String "l" (String "o" (String "n" (String "g" (String "b" (String "e"
           (String "n" (String "c" (String "h" (String "_" name)))))))))).
  rewrite !split_cons_ne by done.
  assert (Py.split "_" (String "_" name) = EmptyString :: Py.split "_" name) as ->
    by reflexivity.
  simpl. apply join_split.
Qed.

(** The loop of the long-document branch. The prompt is not empty once a
    passage has been added, so the test [prompt == ""] of the source never
    holds where it is made. *)
Lemma longbench_loop_body ctxs prompt cur :
  (cur <> None -> prompt <> EmptyString) ->
  (foldl longbench_step (prompt, cur) ctxs).1 = prompt +:+ longbench_body cur ctxs.
Proof.
  revert prompt cur. induction ctxs as [|c ctxs IH]; intros prompt cur Hinv; simpl.
  - by rewrite append_nil_r.
  - destruct (bool_decide (Some _ = cur)) eqn:Hsame.
    + apply bool_decide_eq_true in Hsame.
      destruct (String.eqb_spec prompt EmptyString) as [Hp|Hp].
      { exfalso. apply Hinv; [by rewrite <- Hsame | done]. }
      rewrite IH.
      * rewrite Hsame. by rewrite !append_assoc.
      * intros _ Hnil. by apply append_eq_nil in Hnil.
    + rewrite IH.
      * by rewrite !append_assoc.
      * intros _ Hnil. apply append_eq_nil_r, append_eq_nil in Hnil. discriminate.
Qed.

(** [get_prompt] on a long-document dataset ["longbench_<name>"]: the prompt
    is the template of [<name>] filled with the passages and the question,
    where the passages are joined by a blank inside a document and start a
    new line at every new document, the first one included (so a non-empty
    list of passages gives a text that begins with a newline); a name with
    no template raises [KeyError]. Titles and [use_org_idx] play no part. *)
Theorem get_prompt_longbench ctxs question name use_org_idx :
  match assoc name dict_wo_instruction with
  | Some template =>
      get_prompt ctxs question ("longbench_" +:+ name) use_org_idx
      = Ok (template (longbench_body None ctxs) question)
  | None =>
      get_prompt ctxs question ("longbench_" +:+ name) use_org_idx = Err KeyError
  end
  /\ (forall c rest,
        longbench_body None (c :: rest) = nl +:+ text c +:+ longbench_body
          (Some (default EmptyString (head (Py.split "-" (ctx_id c))))) rest).
Proof.
  split.
  - unfold get_prompt.
    assert (Py.contains "longbench" ("longbench_" +:+ name) = true) as -> by reflexivity.
    rewrite dataname_after_prefix, longbench_loop_body by done.
    change (EmptyString +:+ longbench_body None ctxs) with (longbench_body None ctxs).
    by destruct (assoc name dict_wo_instruction).
  - intros c rest. reflexivity.
Qed.

(** On any other dataset [get_prompt] never fails; on a long-document
    dataset it fails exactly when the template name is unknown. *)
Theorem get_prompt_errors ctxs question dataset use_org_idx :
  let dataname := Py.join "_" (tail (Py.split "_" dataset)) in
  (Py.contains "longbench" dataset = false ->
   exists prompt, get_prompt ctxs question dataset use_org_idx = Ok prompt)
  /\ (Py.contains "longbench" dataset = true ->
      (dataname ∈ dict_wo_instruction.*1 ->
       exists prompt, get_prompt ctxs question dataset use_org_idx = Ok prompt)
      /\ (dataname ∉ dict_wo_instruction.*1 ->
          get_prompt ctxs question dataset use_org_idx = Err KeyError)).
Proof.
  intros dataname. unfold get_prompt. split.
  - intros ->. eauto.
  - intros ->. fold dataname.
    destruct (assoc dataname dict_wo_instruction) as [template|] eqn:Hassoc.
    + split; [simpl; eauto|]. intros Hnot. apply assoc_None in Hnot. congruence.
    + split; [|done]. intros Hin. apply assoc_None in Hassoc. done.
Qed.

Lemma get_prompt_errors_witness :
  (exists prompt, get_prompt [] "who?" "nq" true = Ok prompt)
  /\ get_prompt [] "who?" "longbench_unknown" true = Err KeyError.
Proof.
  destruct (get_prompt_errors [] "who?" "nq" true) as [Hplain _].
  destruct (get_prompt_errors [] "who?" "longbench_unknown" true) as [_ Hlong].
  split; [by apply Hplain|].
  destruct Hlong as [_ Hunknown]; [reflexivity|].
  apply Hunknown. vm_compute. intros Hin.
  repeat (apply elem_of_cons in Hin as [Heq|Hin]; [discriminate|]).
  by apply elem_of_nil in Hin.
Defined.

(** ** [get_ctx_start_indices] *)

Lemma forallb_bool_decide {A} (P : A -> Prop) `{!forall x, Decision (P x)} (l : list A) :
  forallb (fun x => bool_decide (P x)) l = true <-> Forall P l.
Proof.
  induction l as [|x l IH]; simpl; [by split; [constructor|]|].
  rewrite andb_true_iff, bool_decide_eq_true, IH, Forall_cons. done.
Qed.

Lemma length_slice_last {A} (l : list A) (k : nat) :
  length (Py.slice l (Some (- Z.of_nat (S k))) None) = Nat.min (S k) (length l).
Proof.
  unfold Py.slice, Py.norm_bound.
  destruct (Z.ltb_spec (- Z.of_nat (S k)) 0); [|lia].
  rewrite length_take, length_drop. lia.
Qed.

Lemma get_ctx_start_indices_length `{Externals} question titles pattern_str idxs :
  get_ctx_start_indices question titles pattern_str = Ok idxs ->
  length idxs = length titles.
Proof.
  unfold get_ctx_start_indices. intros Hrun.
  bind_inv Hrun as first Hfirst. bind_inv Hrun as u Hu.
  destruct first; injection Hrun as <-; by rewrite length_map.
Qed.

(** [get_ctx_start_indices] raises [IndexError] on an empty list of titles
    and [AssertionError] on a list that mixes present and absent titles.
    Otherwise it returns one offset per title, each at least the length of
    the pattern; and when the titles are absent the offsets are all the
    same, at most 252 tokens of question above the pattern. *)
Theorem get_ctx_start_indices_cases `{Externals} :
  forall question titles pattern_str,
    let r := get_ctx_start_indices question titles pattern_str in
    let len_pattern := length (tok_encode pattern_str) in
    (titles = [] -> r = Err IndexError)
    /\ (titles <> [] ->
        ~ (Forall (fun t : option string => is_Some t) titles
           \/ Forall (fun t : option string => t = None) titles) ->
        r = Err AssertionError)
    /\ (titles <> [] -> Forall (fun t : option string => is_Some t) titles ->
        exists idxs, r = Ok idxs /\ length idxs = length titles
                     /\ Forall (fun i => (len_pattern <= i)%nat) idxs)
    /\ (titles <> [] -> Forall (fun t : option string => t = None) titles ->
        exists off, r = Ok (replicate (length titles) off)
                    /\ (len_pattern <= off <= 252 + len_pattern)%nat).
Proof.
  intros q titles p r len_pattern. subst r len_pattern.
  unfold get_ctx_start_indices, getitem.
  destruct titles as [|t titles]; [by repeat split|].
  cbn [lookup list_lookup of_option mbind result_bind rbind].
  split; [done|]. split; [|split].
  - intros _ Hmixed. destruct t as [t|].
    + destruct (forallb _ (Some t :: titles)) eqn:Hall; [|done].
      apply (proj1 (forallb_bool_decide _ _)) in Hall. tauto.
    + destruct (forallb _ (None :: titles)) eqn:Hall; [|done].
      apply (proj1 (forallb_bool_decide _ _)) in Hall. tauto.
  - intros _ Hall. pose proof Hall as Hall'.
    apply Forall_cons in Hall' as [[t' ->] _].
    rewrite (proj2 (forallb_bool_decide _ _) Hall).
    cbn [mbind result_bind rbind].
    eexists. split; [reflexivity|]. rewrite length_map. split; [done|].
    apply Forall_fmap, Forall_forall. intros t _. simpl. lia.
  - intros _ Hall. pose proof Hall as Hall'.
    apply Forall_cons in Hall' as [-> _].
    rewrite (proj2 (forallb_bool_decide _ _) Hall).
    cbn [mbind result_bind rbind].
    exists (length (Py.slice (tok_encode ("question: " +:+ q)) (Some (-252)%Z) None)
            + length (tok_encode p))%nat.
    split.
    + f_equal. clear. generalize (None :: titles). intros l.
      induction l as [|x l IH]; simpl; [done|]. by rewrite IH.
    + change (-252) with (- Z.of_nat 252). rewrite length_slice_last. lia.
Qed.

Lemma get_ctx_start_indices_cases_witness :
  get_ctx_start_indices (H := Demo.externals) "q" [Some "T"; None] "context:"
    = Err AssertionError
  /\ exists off,
       get_ctx_start_indices (H := Demo.externals) "q" [None; None] "context:"
         = Ok [off; off].
Proof.
  split.
  - destruct (get_ctx_start_indices_cases (H := Demo.externals) "q" [Some "T"; None]
                "context:") as (_ & Hmixed & _).
    apply Hmixed; [done|].
    intros [Hall|Hall].
    + apply Forall_cons in Hall as [_ Hall]. apply Forall_cons in Hall as [[t Ht] _].
      discriminate.
    + apply Forall_cons in Hall as [Hnone _]. discriminate.
  - destruct (get_ctx_start_indices_cases (H := Demo.externals) "q" [None; None]
                "context:") as (_ & _ & _ & Hnone).
    destruct Hnone as (off & Hoff & _); [done | by repeat constructor|].
    exists off. exact Hoff.
Defined.

(** ** [get_ctx_scores]: sizes and empty arrays *)

(** [get_ctx_scores] returns one score per row of [batch_scores] under
    ['include']; under ['exclude'] the rows are zipped with the offsets, one
    per title, so rows beyond the titles are left out without notice. *)
Theorem get_ctx_scores_length `{Externals} :
  forall batch_scores mode question_mode include_end_token question titles pattern_str scores,
    get_ctx_scores batch_scores mode question_mode include_end_token question titles
      pattern_str = Ok scores ->
    (question_mode = "include" /\ length scores = length batch_scores)
    \/ (question_mode = "exclude"
        /\ length scores = Nat.min (length batch_scores) (length titles)).
Proof.
  intros bs mode qm iet q titles p scores. unfold get_ctx_scores, batch_scores_ctxs.
  destruct (String.eqb_spec qm "include") as [->|_].
  - intros Hrun. left. split; [done|]. by eapply rmap_Ok_length.
  - destruct (String.eqb_spec qm "exclude") as [->|_]; [|done].
    intros Hrun. right. split; [done|].
    bind_inv Hrun as arrays Harrays. bind_inv Harrays as starts Hstarts.
    injection Harrays as <-.
    apply rmap_Ok_length in Hrun. rewrite Hrun, length_map, length_zip.
    by rewrite (get_ctx_start_indices_length _ _ _ _ Hstarts).
Qed.

Lemma get_ctx_scores_length_witness :
  exists scores,
    get_ctx_scores (H := Demo.externals)
      [[Demo.score 1 2]; [Demo.score 1 3]; [Demo.score 1 4]] "sum" "exclude" true
      "q" [Some "T"] "context:" = Ok scores
    /\ length scores = 1%nat.
Proof.
  destruct (get_ctx_scores (H := Demo.externals)
      [[Demo.score 1 2]; [Demo.score 1 3]; [Demo.score 1 4]] "sum" "exclude" true
      "q" [Some "T"] "context:") as [scores|err] eqn:Hrun; [|by vm_compute in Hrun].
  exists scores. split; [done|].
  destruct (get_ctx_scores_length (H := Demo.externals) _ _ _ _ _ _ _ _ Hrun)
    as [[Hq _]|[_ Hlen]]; [discriminate | exact Hlen].
Defined.

(** A passage with nothing to aggregate: all its scores are zero, or the end
    token is left out and one score only is not zero. Its aggregate is NaN
    under ['mean'], 0 under ['sum'], and ['max'] raises. *)
Theorem aggregate_of_nothing (include_end_token : bool) (scores : list npfloat) :
  (nonzero_part include_end_token scores = []
   <-> filter nonzero scores = []
       \/ (include_end_token = false /\ length (filter nonzero scores) = 1%nat))
  /\ (nonzero_part include_end_token scores = [] ->
      aggregate "mean" include_end_token scores = Ok NaN
      /\ aggregate "sum" include_end_token scores = Ok NP.zero
      /\ aggregate "max" include_end_token scores = Err NumpyValueError).
Proof.
  split.
  - rewrite nonzero_part_eq. destruct include_end_token.
    + split; [by left | by intros [?|[? _]]].
    + destruct (filter nonzero scores) as [|x l _] using rev_ind; [by split; [left|]|].
      rewrite removelast_last, length_app. simpl. split.
      * intros ->. right. done.
      * intros [Hnil|[_ Hlen]]; [by destruct l|]. apply nil_length_inv. lia.
  - intros Hnil. unfold aggregate. rewrite Hnil. by vm_compute.
Qed.

Lemma aggregate_of_nothing_witness :
  aggregate "mean" false [NP.zero; Demo.score 1 2; NP.zero] = Ok NaN
  /\ aggregate "max" false [NP.zero; Demo.score 1 2; NP.zero] = Err NumpyValueError.
Proof.
  destruct (aggregate_of_nothing false [NP.zero; Demo.score 1 2; NP.zero])
    as [_ Hagg].
  destruct Hagg as (Hmean & _ & Hmax); [reflexivity|]. split; [exact Hmean | exact Hmax].
Defined.

(** ** [compress_contexts]: what is returned *)

Section ContextsMore.
Context `{Externals}.




End ContextsMore.



(** ** The percentile mode *)

Lemma first_true_None mask :
  NP.first_true mask = None <-> Forall (fun b => b = false) mask.
Proof.
  induction mask as [|[|] mask IH]; simpl.
  - split; [constructor | done].
  - split; [done|]. intros Hall. by apply Forall_cons in Hall as [? _].
  - destruct (NP.first_true mask); simpl.
    + split; [done|]. intros Hall. apply Forall_cons in Hall as [_ Hall].
      by apply IH in Hall.
    + split; [|done]. intros _. constructor; [done | by apply IH].
Qed.

Lemma first_true_lt mask k : NP.first_true mask = Some k -> (k < length mask)%nat.
Proof.
  revert k. induction mask as [|[|] mask IH]; intros k; simpl; [done| |].
  - intros [= <-]. lia.
  - destruct (NP.first_true mask) as [k'|]; simpl; [|done].
    intros [= <-]. specialize (IH k' eq_refl). lia.
Qed.

Lemma length_cumsum a : length (NP.cumsum a) = length a.
Proof.
  destruct a as [|x a]; [done|]. simpl. f_equal.
  generalize x. induction a as [|y a IH]; intros acc; simpl; [done|]. by rewrite IH.
Qed.

(** The percentile branch of [compress_contexts], on the passage scores.
    It raises [IndexError], and nothing else, exactly when no cumulative
    normalized score is above the threshold (so always when there is no
    passage). When it returns, it retains at least one passage and, as soon
    as there are two, never all of them: the passage at which the
    cumulative score passes the threshold is left out. *)
Theorem select_by_cumsum_count `{Externals} :
  forall (ctx_scores : list npfloat) (ctx_score_cumsum : Qc),
    let normalized := map (fun s => NP.div s (NP.sum ctx_scores)) ctx_scores in
    exists sorted_scores,
      NP.take_indices normalized (rev (NP.argsort normalized)) = Ok sorted_scores
      /\ (select_by_cumsum ctx_scores ctx_score_cumsum = Err IndexError
          <-> Forall (fun c => NP.gt c (Real ctx_score_cumsum) = false)
                (NP.cumsum sorted_scores))
      /\ (forall e, select_by_cumsum ctx_scores ctx_score_cumsum = Err e -> e = IndexError)
      /\ (forall scores' idxs,
            select_by_cumsum ctx_scores ctx_score_cumsum = Ok (scores', idxs) ->
            (1 <= length idxs <= length ctx_scores)%nat
            /\ ((2 <= length ctx_scores)%nat -> (length idxs < length ctx_scores)%nat)).
Proof.
  intros scores thr normalized.
  destruct (take_indices_total normalized (rev (NP.argsort normalized)))
    as [sorted Hsorted].
  { intros i Hi. apply (proj1 (elem_of_rev _ _)) in Hi. by apply argsort_lt. }
  exists sorted. split; [done|].
  assert (length sorted = length scores) as Hlen.
  { apply rmap_Ok_length in Hsorted.
    rewrite Hsorted, length_rev, argsort_length. subst normalized. by rewrite length_map. }
  unfold select_by_cumsum. fold normalized. rewrite Hsorted.
  cbn [mbind result_bind rbind].
  destruct (NP.first_true _) as [k|] eqn:Hfirst; cbn [of_option mbind result_bind rbind].
  - split; [|split; [done|]].
    + split; [done|]. intros Hall.
      assert (NP.first_true (map (fun c => NP.gt c (Real thr)) (NP.cumsum sorted)) = None)
        as Hnone by (apply first_true_None, Forall_fmap; exact Hall).
      congruence.
    + intros scores' idxs [= <- <-].
      apply first_true_lt in Hfirst. rewrite length_map, length_cumsum, Hlen in Hfirst.
      rewrite length_take, length_rev, argsort_length. subst normalized.
      rewrite length_map. destruct k; cbn [Nat.eqb]; lia.
  - split; [|split; [by intros e [= <-] | done]].
    split; [|done]. intros _. apply first_true_None in Hfirst.
    by apply Forall_fmap in Hfirst.
Qed.

Lemma select_by_cumsum_count_witness :
  exists scores' idxs,
    select_by_cumsum [Demo.score 1 10; Demo.score 1 2; Demo.score 2 5] (Q2Qc (9 # 10))
      = Ok (scores', idxs)
    /\ (length idxs < 3)%nat.
Proof.
  destruct (select_by_cumsum [Demo.score 1 10; Demo.score 1 2; Demo.score 2 5]
              (Q2Qc (9 # 10))) as [[scores' idxs]|err] eqn:Hrun;
    [|by vm_compute in Hrun].
  exists scores', idxs. split; [done|].
  destruct (select_by_cumsum_count (H := Demo.externals)
              [Demo.score 1 10; Demo.score 1 2; Demo.score 2 5] (Q2Qc (9 # 10)))
    as (sorted & _ & _ & _ & Hcount).
  destruct (Hcount _ _ Hrun) as [_ Hless]. apply Hless. simpl. lia.
Defined.

(** ** The greedy mode with sentence compression to follow *)

(** With [comp_sent] set, the greedy loop has one way to stop before the
    last passage: the running total has reached [ctx_comp_len]. So it
    selects at least one passage whenever there is one, even when the
    prompt alone is already over the target, and all of them when the
    target is out of reach. *)
Theorem greedy_with_comp_sent `{Externals} :
  forall a batch_scores batch_token_ids ctxs ctx_comp_len question pattern_str s,
    comp_sent a = true ->
    compress_contexts a batch_scores batch_token_ids ctxs ctx_comp_len None
      question pattern_str = Ok s ->
    exists scores,
      get_ctx_scores batch_scores (ctx_score_mode a) (question_mode a)
        (include_end_token a) question (map title ctxs) pattern_str = Ok scores
      /\ (scores <> [] -> ctx_indices s <> [])
      /\ (len_total_final s < ctx_comp_len -> ctx_indices s = rev (NP.argsort scores)).
Proof.
  intros a bs bt ctxs L q p s Hcs Hrun.
  apply compress_contexts_inv in Hrun
    as (scores & prompt & scores' & ctxs' & Hscores & _ & [Hloop ->] & _).
  apply greedy_loop_spec in Hloop
    as (added & lens & Hadded & [rest Hpre] & _ & _ & _ & _ & Hstop).
  simpl in Hadded. subst added.
  assert (forall idx, rest = idx :: tail rest ->
            ctx_indices s <> [] /\ L <= len_total_final s) as Hnext.
  { intros idx Hrest. destruct (Hstop idx) as [Hreach|[Hfalse _]]; [|done|congruence].
    rewrite Hpre, Hrest. by rewrite lookup_app_r, Nat.sub_diag by lia. }
  exists scores. split; [done|]. split.
  - intros Hne Hnil. rewrite Hnil in Hpre. simpl in Hpre.
    destruct rest as [|idx rest].
    + apply (f_equal length) in Hpre. rewrite length_rev, argsort_length in Hpre.
      by destruct scores.
    + by destruct (Hnext idx eq_refl).
  - intros Hbelow. rewrite Hpre. destruct rest as [|idx rest]; [by rewrite app_nil_r|].
    destruct (Hnext idx eq_refl). lia.
Qed.

Lemma greedy_with_comp_sent_witness :
  exists s,
    compress_contexts (H := Demo.externals) (Demo.cfg "mean" "exclude" false true)
      Demo.two_score_rows Demo.two_token_rows Demo.two_passages 10 None "q" "context:"
      = Ok s
    /\ ctx_indices s <> [].
Proof.
  destruct (compress_contexts (H := Demo.externals) (Demo.cfg "mean" "exclude" false true)
      Demo.two_score_rows Demo.two_token_rows Demo.two_passages 10 None "q" "context:")
    as [s|err] eqn:Hrun; [|by vm_compute in Hrun].
  exists s. split; [done|].
  destruct (greedy_with_comp_sent (H := Demo.externals)
              (Demo.cfg "mean" "exclude" false true) _ _ _ _ _ _ _ eq_refl Hrun)
    as (scores & Hscores & Hsome & _).
  apply Hsome. intros ->. by vm_compute in Hscores.
Defined.

(** ** Sentence selection: which sentences go, and the accounting *)

(** Cutting the ascending order of the mean scores at [k] and sorting what
    is left, as a turn of the main loop does: the kept sentences are in
    their original order, without repetition, every sentence is either
    dropped or kept, and no dropped sentence scores above a kept one. *)
Theorem lowest_sentences_dropped_first (means : list npfloat) (k : nat) :
  let order := NP.argsort means in
  let kept := Py.sorted_nat (drop k order) in
  StronglySorted lt kept
  /\ length kept = (length means - k)%nat
  /\ (forall j, j ∈ kept -> (j < length means)%nat /\ j ∉ take k order)
  /\ (forall j, (j < length means)%nat -> j ∈ take k order \/ j ∈ kept)
  /\ (forall d j, d ∈ take k order -> j ∈ kept -> score_le means d j).
Proof.
  intros order kept. subst kept.
  pose proof (argsort_NoDup means) as Hnd. fold order in Hnd.
  rewrite <- (take_drop k order) in Hnd. apply NoDup_app in Hnd as (_ & Hdisj & Hnd).
  split; [by apply sorted_nat_NoDup_lt|].
  split; [by rewrite sorted_nat_perm, length_drop; unfold order; rewrite argsort_length|].
  split; [|split].
  - intros j Hj. rewrite sorted_nat_perm in Hj. split.
    + apply argsort_lt. eapply elem_of_sublist; [exact Hj | apply sublist_drop].
    + intros Hin. by apply (Hdisj j).
  - intros j Hj.
    assert (j ∈ order) as Hin
      by (unfold order; rewrite argsort_perm, elem_of_seq; lia).
    rewrite <- (take_drop k order) in Hin. apply elem_of_app in Hin as [Hin|Hin].
    + by left.
    + right. by rewrite sorted_nat_perm.
  - intros d j Hd Hj. rewrite sorted_nat_perm in Hj.
    pose proof (argsort_sorted means) as Hs. fold order in Hs.
    rewrite <- (take_drop k order) in Hs.
    by apply (StronglySorted_app_1_elem_of _ _ _ d j) in Hs.
Qed.

Section Accounting.
Context `{Externals}.

Lemma drop_loop_total e comp_len split_tokens sents todo r cur total r' cur' total' :
  drop_loop e comp_len split_tokens sents todo r cur total = Ok (r', cur', total') ->
  total' - cur' = total - cur.
Proof.
  revert r cur total. induction todo as [|s todo IH]; intros r cur total; simpl.
  { intros [= <- <- <-]. lia. }
  intros Hrun. bind_inv Hrun as len Hlen.
  destruct (_ >=? _).
  - destruct (_ <? _); injection Hrun as <- <- <-; lia.
  - destruct (_ >=? _); [injection Hrun as <- <- <-; lia|].
    apply IH in Hrun. lia.
Qed.

(** The sentence-dropping loop counts what it drops: the sentences it
    leaves dropped are the first of [todo], [cur_comp_len] and
    [total_comp_len] both grow by the sum of their lengths, and after each
    drop but the last both were still under their targets. *)
Theorem drop_loop_accounting e comp_len split_tokens sents todo r cur total r' cur' total' :
  drop_loop e comp_len split_tokens sents todo r cur total = Ok (r', cur', total') ->
  exists lens,
    rmap (cur_sent_len_of split_tokens sents) (take (Z.to_nat (r' + 1 - r)) todo) = Ok lens
    /\ cur' = cur + sum_Z lens
    /\ total' = total + sum_Z lens
    /\ (forall j, (0 < j < length lens)%nat ->
          total + sum_Z (take j lens) < sent_comp_len e
          /\ cur + sum_Z (take j lens) < comp_len).
Proof.
  revert r cur total. induction todo as [|s todo IH]; intros r cur total; simpl.
  { intros [= <- <- <-]. exists []. replace (r - 1 + 1 - r) with 0 by lia. simpl.
    split; [done|]. split; [lia|]. split; [lia|].
    intros j Hj. simpl in Hj. lia. }
  intros Hrun. bind_inv Hrun as len Hlen.
  destruct (Z.geb_spec (total + len) (sent_comp_len e)) as [Hglobal|Hglobal].
  - destruct (Z.ltb_spec (Z.abs (total + len - len - sent_comp_len e))
                (Z.abs (total + len - sent_comp_len e))) as [Hrestore|Hkeep].
    + injection Hrun as <- <- <-. exists [].
      replace (r - 1 + 1 - r) with 0 by lia. simpl.
      split; [done|]. split; [lia|]. split; [lia|]. intros j Hj. simpl in Hj. lia.
    + injection Hrun as <- <- <-. exists [len].
      replace (r + 1 - r) with 1 by lia. simpl. rewrite Hlen. simpl.
      split; [done|]. split; [lia|]. split; [lia|]. intros j Hj. simpl in Hj. lia.
  - destruct (Z.geb_spec (cur + len) comp_len) as [Hlocal|Hlocal].
    + injection Hrun as <- <- <-. exists [len].
      replace (r + 1 - r) with 1 by lia. simpl. rewrite Hlen. simpl.
      split; [done|]. split; [lia|]. split; [lia|]. intros j Hj. simpl in Hj. lia.
    + pose proof (drop_loop_bounds _ _ _ _ _ _ _ _ _ _ _ Hrun) as Hr.
      apply IH in Hrun as (lens & Hlens & -> & -> & Hbelow).
      exists (len :: lens).
      replace (Z.to_nat (r' + 1 - r)) with (S (Z.to_nat (r' + 1 - (r + 1)))) by lia.
      simpl. rewrite Hlen. simpl. rewrite Hlens. simpl.
      split; [done|]. split; [lia|]. split; [lia|].
      intros [|j] Hj; [lia|]. simpl.
      destruct j as [|j]; [rewrite take_0; simpl; lia|].
      specialize (Hbelow (S j)). simpl in *. lia.
Qed.

Lemma reconcile_total comp_lens rank comp_len cur actual total total' comp_lens' :
  reconcile comp_lens rank comp_len cur actual total = Ok (total', comp_lens') ->
  total' = total - (cur - actual) /\ length comp_lens' = length comp_lens.
Proof.
  unfold reconcile. destruct (comp_len <? actual).
  - intros [= <- <-]. split; [done|].
    destruct (Z.le_gt_cases 0 (actual - comp_len)) as [Hpos|Hneg].
    + by destruct (reduce_from_top_spec comp_lens 0 rank (actual - comp_len))
        as (Hl & _); [lia..|].
    + clear. generalize 0%nat. generalize (actual - comp_len).
      induction comp_lens as [|c l IH]; intros x n; simpl; [done|].
      destruct (_ || _); [done|]. destruct (0 <? c); simpl; by rewrite IH.
  - destruct (rank =? 0)%nat; [by intros [= <- <-]|].
    intros Hrun. bind_inv Hrun as prev Hprev. injection Hrun as <- <-.
    split; [done|]. apply length_insert.
Qed.

(** A turn of the main loop keeps [total_comp_len] equal to what has
    really been saved: it grows by the whole length of a passage that lost
    all its sentences, and otherwise by the measured difference between the
    passage before and after (nothing for a passage left as it is). A
    passage without scored sentence is marked for removal too, and nothing
    is counted for it: its text, the budgets and the total stay as they
    are. The ranks keep one budget each. *)
Theorem sentence_step_accounting e st idx st' :
  sentence_step e st idx = Ok st' ->
  exists i c ps,
    ctx_idx2ctx_i e !! idx = Some i
    /\ st_ctxs st !! i = Some c
    /\ pooled_ctxs e !! i = Some ps
    /\ length (comp_len_per_ctx st') = length (comp_len_per_ctx st)
    /\ length (st_ctxs st') = length (st_ctxs st)
    /\ ((ps = []
         /\ ctx_removal_indices st' = ctx_removal_indices st ++ [i]
         /\ total_comp_len st' = total_comp_len st
         /\ comp_len_per_ctx st' = comp_len_per_ctx st
         /\ st_ctxs st' = st_ctxs st)
        \/ (ps <> []
            /\ ctx_removal_indices st' = ctx_removal_indices st ++ [i]
            /\ total_comp_len st' = total_comp_len st + passage_len c (text c))
        \/ (ps <> []
            /\ ctx_removal_indices st' = ctx_removal_indices st
            /\ exists c', st_ctxs st' !! i = Some c'
                 /\ total_comp_len st'
                    = total_comp_len st + passage_len c (text c) - passage_len c' (text c'))).
Proof.
  unfold sentence_step. intros Hrun.
  bind_inv Hrun as rank Hrank.
  bind_inv Hrun as i Hi. apply of_option_Ok in Hi.
  bind_inv Hrun as c Hc. apply getitem_Ok in Hc.
  bind_inv Hrun as ps Hps. apply getitem_Ok in Hps.
  bind_inv Hrun as sents0 Hsents.
  exists i, c, ps. split; [done|]. split; [done|]. split; [done|].
  rewrite length_map in Hrun.
  destruct (Nat.eqb_spec (length ps) 0) as [Hz|Hnz].
  { injection Hrun as <-. simpl. split; [done|]. split; [done|].
    left. split; [by apply nil_length_inv | done]. }
  assert (ps <> []) as Hne by (intros ->; simpl in *; lia).
  bind_inv Hrun as comp_len Hcomp.
  destruct (_ || _).
  { bind_inv Hrun as sc Hsc. bind_inv Hrun as ids Hids. injection Hrun as <-. simpl.
    split; [done|]. split; [done|]. right. right.
    split; [done|]. split; [done|]. exists c. split; [done | lia]. }
  bind_inv Hrun as split_tokens Hsplit.
  bind_inv Hrun as [[r cur] total] Hloop. simpl in Hrun.
  apply drop_loop_total in Hloop.
  destruct (cut_index e _ r =? _).
  - bind_inv Hrun as [total' comp_lens] Hrec. injection Hrun as <-. simpl.
    apply reconcile_total in Hrec as [-> Hlen].
    split; [done|]. split; [done|]. right. left.
    split; [done|]. split; [done | lia].
  - bind_inv Hrun as txt Htxt.
    bind_inv Hrun as sel Hsel. bind_inv Hrun as u Hu.
    bind_inv Hrun as [total' comp_lens] Hrec. injection Hrun as <-. simpl.
    apply reconcile_total in Hrec as [-> Hlen].
    split; [done|]. split; [apply length_insert|]. right. right.
    split; [done|]. split; [done|]. exists (set_text c txt). split.
    + apply list_lookup_insert_eq. by eapply lookup_lt_Some.
    + unfold passage_len. simpl. lia.
Qed.

(** Once [total_comp_len] has reached [sent_comp_len], a turn changes no
    text, no budget and not the total. *)
Lemma sentence_step_budget_met e st idx st' :
  sent_comp_len e <= total_comp_len st ->
  sentence_step e st idx = Ok st' ->
  st_ctxs st' = st_ctxs st
  /\ total_comp_len st' = total_comp_len st
  /\ comp_len_per_ctx st' = comp_len_per_ctx st.
Proof.
  intros Hmet. unfold sentence_step. intros Hrun.
  bind_inv Hrun as rank Hrank. bind_inv Hrun as i Hi.
  bind_inv Hrun as c Hc. bind_inv Hrun as ps Hps. bind_inv Hrun as sents0 Hsents.
  destruct (_ =? 0)%nat; [by injection Hrun as <-|].
  bind_inv Hrun as comp_len Hcomp.
  destruct (Z.geb_spec (total_comp_len st) (sent_comp_len e)) as [_|?]; [|lia].
  simpl in Hrun. bind_inv Hrun as sc Hsc. bind_inv Hrun as ids Hids.
  by injection Hrun as <-.
Qed.

Lemma sentence_loop_budget_met e st todo st' :
  sent_comp_len e <= total_comp_len st ->
  sentence_loop e st todo = Ok st' ->
  st_ctxs st' = st_ctxs st.
Proof.
  revert st. induction todo as [|idx todo IH]; intros st Hmet; simpl.
  - by intros [= <-].
  - intros Hrun. bind_inv Hrun as st1 Hst1.
    apply sentence_step_budget_met in Hst1 as (Hctxs & Htotal & _); [|done].
    rewrite <- Hctxs. apply IH; [lia | done].
Qed.

(** With a budget of zero or less, [compress_sentences] rewrites nothing:
    the passages it returns are passages of the input, unchanged and in
    the same order. *)
Theorem compress_sentences_no_budget bs bt ctxs cis scl adaptive q p pow c1s ns nt out :
  scl <= 0 ->
  compress_sentences bs bt ctxs cis scl adaptive q p pow c1s = Ok (ns, nt, out) ->
  out `sublist_of` ctxs /\ length ns = length out /\ length nt = length out.
Proof.
  intros Hscl. unfold compress_sentences. intros Hrun.
  bind_inv Hrun as starts Hstarts. bind_inv Hrun as eos Heos.
  bind_inv Hrun as sc Hsc. bind_inv Hrun as ids Hids.
  bind_inv Hrun as comp Hcomp. bind_inv Hrun as st Hloop.
  bind_inv Hrun as new_sc Hnsc. bind_inv Hrun as new_ids Hnids.
  injection Hrun as <- <- <-.
  apply sentence_loop_budget_met in Hloop; [|simpl; lia]. simpl in Hloop.
  rewrite Hloop in *.
  split; [apply remove_ctxs_sublist|].
  split; by eapply rmap_Ok_length.
Qed.

End Accounting.

Lemma drop_loop_accounting_witness :
  exists r cur total,
    drop_loop (H := Demo.externals) (Demo.one_passage_env false) 100
      ["" ; " "] ["Aa."; "Bb."] [1%nat; 0%nat] 0 0 0 = Ok (r, cur, total)
    /\ total = 0 + cur.
Proof.
  destruct (drop_loop (H := Demo.externals) (Demo.one_passage_env false) 100
              ["" ; " "] ["Aa."; "Bb."] [1%nat; 0%nat] 0 0 0)
    as [[[r cur] total]|err] eqn:Hrun; [|by vm_compute in Hrun].
  exists r, cur, total. split; [done|].
  destruct (drop_loop_accounting (H := Demo.externals) _ _ _ _ _ _ _ _ _ _ _ Hrun)
    as (lens & _ & Hcur & Htotal & _).
  lia.
Defined.

Lemma sentence_step_accounting_witness :
  exists st',
    sentence_step (H := Demo.externals) (Demo.one_passage_env false)
      Demo.one_passage_state 0 = Ok st'
    /\ length (comp_len_per_ctx st') = 1%nat.
Proof.
  destruct (sentence_step (H := Demo.externals) (Demo.one_passage_env false)
              Demo.one_passage_state 0) as [st'|err] eqn:Hrun; [|by vm_compute in Hrun].
  exists st'. split; [done|].
  destruct (sentence_step_accounting (H := Demo.externals) _ _ _ _ Hrun)
    as (i & c & ps & _ & _ & _ & Hlen & _).
  exact Hlen.
Defined.

Lemma compress_sentences_no_budget_witness :
  exists ns nt out,
    compress_sentences (H := Demo.externals) Demo.two_score_rows Demo.two_token_rows
      Demo.two_passages [0; 1] 0 false "q" "context:" (Real 1%Qc) false = Ok (ns, nt, out)
    /\ out `sublist_of` Demo.two_passages.
Proof.
  destruct (compress_sentences (H := Demo.externals) Demo.two_score_rows
              Demo.two_token_rows Demo.two_passages [0; 1] 0 false "q" "context:"
              (Real 1%Qc) false) as [[[ns nt] out]|err] eqn:Hrun;
    [|by vm_compute in Hrun].
  exists ns, nt, out. split; [done|].
  by destruct (compress_sentences_no_budget (H := Demo.externals)
                 _ _ _ _ 0 _ _ _ _ _ _ _ _ ltac:(lia) Hrun) as [Hsub _].
Defined.

(** ** Sentence selection: budgets and failures *)

Lemma sorted_Z_perm l : Py.sorted_Z l ≡ₚ l.
Proof. apply sort_by_perm. Qed.

Lemma sorted_Z_sorted l : StronglySorted Z.le (Py.sorted_Z l).
Proof.
  eapply StronglySorted_mono; [|apply (sort_by_sorted Z.leb)].
  - intros x y Hxy. by apply Z.leb_le.
  - intros x y. rewrite !Z.leb_le. lia.
  - intros x y z. rewrite !Z.leb_le. lia.
Qed.

Lemma sum_Z_replicate n x : sum_Z (replicate n x) = Z.of_nat n * x.
Proof. induction n as [|n IH]; simpl; [done|]. rewrite IH. lia. Qed.

Lemma rmap_const {A B} (m : result B) (l : list A) (b : B) :
  m = Ok b -> rmap (fun _ => m) l = Ok (replicate (length l) b).
Proof. intros ->. induction l as [|a l IH]; simpl; [done|]. by rewrite IH. Qed.

Lemma rmap_const_inv {A B} (m : result B) (l : list A) bs :
  rmap (fun _ => m) l = Ok bs ->
  (l = [] /\ bs = []) \/ exists b, m = Ok b /\ bs = replicate (length l) b.
Proof.
  destruct m as [b|e].
  - rewrite (rmap_const (Ok b) l b eq_refl). intros [= <-]. eauto.
  - destruct l as [|a l]; simpl; [|done]. intros [= <-]. by left.
Qed.

(** The budgets of the ranks before the main loop. Without
    [adaptive_sent_comp], or with one passage at most, every rank gets the
    same budget, [int(sent_comp_len / num_ctxs)]. For [sent_comp_len]
    from 0 to [2^52] the float quotient truncates to the integer quotient:
    the budgets never add up to more than [sent_comp_len], and fall short
    of it by less than the number of passages. Further up the division
    rounds: at [2^53 + 3] a single passage is asked for [2^53 + 4].
    With [adaptive_sent_comp] and two passages or more, a passage without
    [ctx_score] raises [KeyError]; otherwise there is one budget per
    passage and the budgets are in ascending order, the smallest for rank
    0, whatever numpy's arithmetic gives. *)
Theorem initial_budgets `{Externals} :
  forall (ctxs : list ctx) (sent_comp_len : Z) (adaptive_sent_comp : bool) (pow : npfloat),
    let n := length ctxs in
    let r := initial_comp_len_per_ctx ctxs sent_comp_len adaptive_sent_comp pow in
    (adaptive_sent_comp = false \/ (n <= 1)%nat ->
     (forall budgets, r = Ok budgets ->
        exists b, budgets = replicate n b
                  /\ (ctxs <> [] ->
                      F64.true_divide sent_comp_len (Z.of_nat n) ≫= F64.to_int = Ok b))
     /\ (0 <= sent_comp_len <= 2 ^ 52 ->
         r = Ok (replicate n (sent_comp_len / Z.of_nat n))
         /\ (ctxs <> [] ->
             sent_comp_len - Z.of_nat n
             < sum_Z (replicate n (sent_comp_len / Z.of_nat n)) <= sent_comp_len)))
    /\ (forall c, initial_comp_len_per_ctx [c] (2 ^ 53 + 3) false pow = Ok [2 ^ 53 + 4])
    /\ (adaptive_sent_comp = true -> (2 <= n)%nat ->
        (Exists (fun c => ctx_score c = None) ctxs -> r = Err KeyError)
        /\ (Forall (fun c => is_Some (ctx_score c)) ctxs ->
            exists budgets, r = Ok budgets /\ length budgets = n
                            /\ StronglySorted Z.le budgets)).
Proof.
  intros ctxs S adaptive pow n r. subst r.
  split; [|split; [intros c; by vm_compute|]]; unfold initial_comp_len_per_ctx; fold n.
  - intros Huniform.
    assert (adaptive && (1 <? n)%nat = false) as ->.
    { destruct Huniform as [->|Hn]; [done|].
      destruct (Nat.ltb_spec 1 n); [lia | by destruct adaptive]. }
    split.
    + intros budgets Hrun. apply rmap_const_inv in Hrun as [[Hnil ->]|(b & Hb & ->)].
      * exists 0. apply (f_equal length) in Hnil. rewrite length_seq in Hnil.
        rewrite Hnil. split; [done|]. intros Hne. destruct ctxs; [done|].
        subst n. simpl in Hnil. lia.
      * exists b. by rewrite length_seq.
    + intros HS.
      destruct (Nat.eq_dec n 0%nat) as [Hn0|Hn0].
      { rewrite Hn0. split; [done|]. intros Hne. by destruct ctxs. }
      destruct (round_quotient S (Z.of_nat n) HS ltac:(lia)) as (q & Hq & Htrunc).
      split.
      * rewrite (rmap_const _ _ (S / Z.of_nat n)); [by rewrite length_seq|].
        unfold F64.true_divide. destruct (Z.eqb_spec (Z.of_nat n) 0); [lia|].
        rewrite Hq. cbn [mbind result_bind rbind F64.to_int]. by rewrite Htrunc.
      * intros _. rewrite sum_Z_replicate.
        pose proof (Z.mul_div_le S (Z.of_nat n) ltac:(lia)).
        pose proof (Z.mul_succ_div_gt S (Z.of_nat n) ltac:(lia)). lia.
  - intros -> Hn.
    assert ((1 <? n)%nat = true) as -> by (apply Nat.ltb_lt; lia). simpl.
    split.
    + intros Hex.
      assert (rmap (fun c => of_option KeyError (ctx_score c)) ctxs = Err KeyError) as ->;
        [|done].
      clear Hn. induction Hex as [c l Hc|c l _ IH]; simpl.
      * by rewrite Hc.
      * rewrite IH. by destruct (ctx_score c).
    + intros Hall.
      destruct (rmap_total (fun c => of_option KeyError (ctx_score c)) ctxs)
        as [scores Hscores].
      { eapply Forall_impl; [exact Hall|]. intros c [s Hs]. rewrite Hs. simpl. eauto. }
      rewrite Hscores. cbn [mbind result_bind rbind].
      eexists. split; [reflexivity|]. split; [|apply sorted_Z_sorted].
      rewrite sorted_Z_perm, !length_map. by eapply rmap_Ok_length.
Qed.

Lemma initial_budgets_witness :
  initial_comp_len_per_ctx (H := Demo.externals) Demo.two_passages 7 false (Real 1%Qc)
    = Ok [3; 3]
  /\ initial_comp_len_per_ctx (H := Demo.externals) Demo.two_passages 7 true (Real 1%Qc)
     = Err KeyError.
Proof.
  destruct (initial_budgets (H := Demo.externals) Demo.two_passages 7 false (Real 1%Qc))
    as [Huniform _].
  destruct (initial_budgets (H := Demo.externals) Demo.two_passages 7 true (Real 1%Qc))
    as (_ & _ & Hadaptive).
  split.
  - destruct Huniform as [_ Hsmall]; [by left|].
    destruct Hsmall as [Hr _]; [by vm_compute | exact Hr].
  - destruct Hadaptive as [Hkey _]; [done | simpl; lia |].
    apply Hkey. by left.
Defined.

(** Floats at work: above [2^53] the quotient of two integers is rounded
    before it is truncated, and the adaptive budgets of two passages of
    scores 0.6 and 0.4 for ten tokens are 3 and 6, not 4 and 6. *)
Example budgets_are_rounded :
  initial_comp_len_per_ctx (H := Demo.externals) [Demo.passage 1 "A"]
    (2 ^ 53 + 3) false (Real 1%Qc) = Ok [2 ^ 53 + 4]
  /\ initial_comp_len_per_ctx (H := Demo.externals)
       [set_ctx_score (Demo.passage 1 "A") (F64.round (Q2Qc (6 # 10)));
        set_ctx_score (Demo.passage 2 "B") (F64.round (Q2Qc (4 # 10)))]
       10 true (Real 1%Qc) = Ok [3; 6].
Proof. by vm_compute. Qed.

Lemma rmap_Err_all {A B} (f : A -> result B) l err :
  (forall a e, f a = Err e -> e = err) ->
  Exists (fun a => exists e, f a = Err e) l ->
  rmap f l = Err err.
Proof.
  intros Honly. induction 1 as [a l [e He]|a l _ IH]; simpl.
  - rewrite He. simpl. by rewrite (Honly _ _ He).
  - destruct (f a) as [b|e] eqn:Hfa; simpl.
    + by rewrite IH.
    + by rewrite (Honly _ _ Hfa).
Qed.

Lemma last_eos_None (token_ids : list Z) :
  1 ∉ token_ids -> last_eos token_ids = Err IndexError.
Proof.
  intros Hnot. unfold last_eos.
  destruct (NP.where_true _) as [|j l _] eqn:Hw using rev_ind; [done|].
  exfalso. assert (j ∈ NP.where_true (map (fun t => bool_decide (t = 1)) token_ids))
    as Hj by (rewrite Hw; apply elem_of_app; right; by left).
  apply elem_of_where_true in Hj. rewrite list_lookup_fmap in Hj.
  destruct (token_ids !! j) as [t|] eqn:Ht; [|done]. simpl in Hj.
  injection Hj as Hj. apply bool_decide_eq_true in Hj as ->.
  apply Hnot. apply list_elem_of_lookup. eauto.
Qed.

(** [compress_sentences] raises [IndexError] on an empty list of passages
    (it reads the title of the first one), and again when the titles are
    read without error but some token row holds no end-of-sequence id 1. *)
Theorem compress_sentences_index_errors `{Externals} :
  forall bs bt ctxs cis scl adaptive q p pow c1s,
    (ctxs = [] ->
     compress_sentences bs bt ctxs cis scl adaptive q p pow c1s = Err IndexError)
    /\ ((exists starts, get_ctx_start_indices q (map title ctxs) p = Ok starts) ->
        Exists (fun row => 1 ∉ row) bt ->
        compress_sentences bs bt ctxs cis scl adaptive q p pow c1s = Err IndexError).
Proof.
  intros bs bt ctxs cis scl adaptive q p pow c1s. split.
  - intros ->. reflexivity.
  - intros [starts Hstarts] Hrow. unfold compress_sentences. rewrite Hstarts.
    cbn [mbind result_bind rbind].
    assert (eos_positions bt starts = Err IndexError) as ->; [|done].
    unfold eos_positions. apply rmap_Err_all.
    + intros [k row] e Hrun. simpl in Hrun.
      unfold last_eos, getitem in Hrun.
      destruct (last _); simpl in Hrun; [|by injection Hrun as <-].
      destruct (starts !! k); simpl in Hrun; [done | by injection Hrun as <-].
    + apply Exists_exists in Hrow as (row & Hin & Hnot).
      apply list_elem_of_lookup in Hin as [k Hk].
      apply Exists_exists. exists (k, row). split.
      * by apply elem_of_enumerate.
      * exists IndexError. simpl. by rewrite last_eos_None.
Qed.

Lemma compress_sentences_index_errors_witness :
  compress_sentences (H := Demo.externals) Demo.two_score_rows [[5; 6]; [7; 1]]
    Demo.two_passages [0; 1] 6 false "q" "context:" (Real 1%Qc) false = Err IndexError.
Proof.
  destruct (compress_sentences_index_errors (H := Demo.externals) Demo.two_score_rows
              [[5; 6]; [7; 1]] Demo.two_passages [0; 1] 6 false "q" "context:"
              (Real 1%Qc) false) as [_ Hrow].
  apply Hrow.
  - eexists. reflexivity.
  - left. intros Hin.
    repeat (apply elem_of_cons in Hin as [Heq|Hin]; [discriminate|]).
    by apply elem_of_nil in Hin.
Defined.

(** ** Sentence separators: the text is rebuilt *)

Lemma prefix_append a s : String.prefix a s = true -> exists b, s = a +:+ b.
Proof.
  revert a. induction s as [|y s IH]; intros a.
  - destruct a as [|x a]; [by exists EmptyString | done].
  - destruct a as [|x a]; [by exists (String y s)|]. simpl.
    destruct (Ascii.ascii_dec x y) as [->|_]; [|done].
    intros Hp. destruct (IH _ Hp) as [b ->]. by exists b.
Qed.

Lemma find_from_eq sub s i :
  Py.find_from sub s i
  = if String.prefix sub s then Some i
    else match s with
         | EmptyString => None
         | String _ s' => Py.find_from sub s' (S i)
         end.
Proof. by destruct s. Qed.

Lemma find_from_spec sub s i k :
  Py.find_from sub s i = Some k ->
  exists pre post, s = pre +:+ sub +:+ post /\ k = (i + String.length pre)%nat.
Proof.
  revert i. induction s as [|y s IH]; intros i; rewrite find_from_eq.
  - destruct (String.prefix sub EmptyString) eqn:Hp; [|done].
    intros [= <-]. apply prefix_append in Hp as [b Hb].
    exists EmptyString, b. split; [done | simpl; lia].
  - destruct (String.prefix sub (String y s)) eqn:Hp.
    + intros [= <-]. apply prefix_append in Hp as [b Hb].
      exists EmptyString, b. split; [done | simpl; lia].
    + intros Hrun. apply IH in Hrun as (pre & post & -> & ->).
      exists (String y pre), post. split; [done | simpl; lia].
Qed.

Lemma list_ascii_append a b :
  list_ascii_of_string (a +:+ b) = list_ascii_of_string a ++ list_ascii_of_string b.
Proof.
  induction a as [|x a IH]; [done|].
  change (x :: list_ascii_of_string (a +:+ b)
          = x :: (list_ascii_of_string a ++ list_ascii_of_string b)).
  by rewrite IH.
Qed.

Lemma length_list_ascii s : length (list_ascii_of_string s) = String.length s.
Proof. induction s as [|x s IH]; simpl; [done|]. by rewrite IH. Qed.

Lemma str_slice_after a b :
  Py.str_slice (a +:+ b) (Some (Z.of_nat (String.length a))) None = b.
Proof.
  unfold Py.str_slice. rewrite slice_from, list_ascii_append.
  rewrite <- length_list_ascii, drop_app_length.
  apply string_of_list_ascii_of_string.
Qed.

Lemma str_slice_middle a b c :
  Py.str_slice (a +:+ b +:+ c) (Some (Z.of_nat (String.length a)))
    (Some (Z.of_nat (String.length a) + Z.of_nat (String.length b))) = b.
Proof.
  unfold Py.str_slice.
  replace (Z.of_nat (String.length a) + Z.of_nat (String.length b))
    with (Z.of_nat (String.length a + String.length b)) by lia.
  rewrite slice_between, !list_ascii_append.
  rewrite <- !length_list_ascii, drop_app_length.
  replace (length (list_ascii_of_string a) + length (list_ascii_of_string b)
           - length (list_ascii_of_string a))%nat
    with (length (list_ascii_of_string b)) by lia.
  rewrite take_app_length. apply string_of_list_ascii_of_string.
Qed.

Lemma join_empty_cons w ws :
  Py.join EmptyString (w :: ws) = w +:+ Py.join EmptyString ws.
Proof. destruct ws as [|w' ws]; simpl; [by rewrite append_nil_r | done]. Qed.

Lemma length_append a b :
  Z.of_nat (String.length (a +:+ b))
  = Z.of_nat (String.length a) + Z.of_nat (String.length b).
Proof. rewrite <- !length_list_ascii, list_ascii_append, length_app. lia. Qed.

Lemma split_token_loop_covers tail prev rest :
  sentences_found (prev +:+ tail) prev rest ->
  length (split_token_loop (prev +:+ tail) prev rest) = length rest
  /\ exists final,
       tail = Py.join EmptyString
                (zip_with append (split_token_loop (prev +:+ tail) prev rest) rest)
              +:+ final.
Proof.
  revert tail prev. induction rest as [|cur rest IH]; intros tail prev.
  - intros _. split; [done|]. by exists tail.
  - cbn [sentences_found split_token_loop]. rewrite str_slice_after.
    intros [Hj Hfound]. unfold Py.find in *.
    destruct (Py.find_from cur tail 0) as [k|] eqn:Hfind; [|lia].
    apply find_from_spec in Hfind as (pre & post & -> & ->).
    change (0 + String.length pre)%nat with (String.length pre) in *.
    rewrite <- length_append in *.
    rewrite <- (append_assoc prev pre (cur +:+ post)) in *.
    rewrite str_slice_after in *.
    destruct (IH post cur Hfound) as (Hlen & final & Hfinal).
    assert (Py.str_slice ((prev +:+ pre) +:+ cur +:+ post)
              (Some (Z.of_nat (String.length prev)))
              (Some (Z.of_nat (String.length (prev +:+ pre)))) = pre) as ->.
    { rewrite append_assoc, length_append. apply str_slice_middle. }
    split; [cbn [length]; by rewrite Hlen|]. exists final.
    cbn [zip_with]. rewrite join_empty_cons, !append_assoc. by rewrite <- Hfinal.
Qed.

Lemma rebuild_all_from (pre_sps pre_ss sps ss : list string) :
  length pre_sps = length pre_ss -> length sps = length ss ->
  rmap (fun sent_index =>
          sp ← getitem (pre_sps ++ sps) sent_index;
          s ← getitem (pre_ss ++ ss) sent_index;
          Ok (sp +:+ s))
       (seq (length pre_ss) (length ss))
  = Ok (zip_with append sps ss).
Proof.
  revert pre_sps pre_ss sps. induction ss as [|s ss IH]; intros pre_sps pre_ss sps Hpre Hlen.
  - by destruct sps.
  - destruct sps as [|sp sps]; [done|]. cbn [length seq rmap].
    assert (getitem (pre_sps ++ sp :: sps) (length pre_ss) = Ok sp) as ->.
    { unfold getitem. rewrite lookup_app_r by lia. by rewrite Hpre, Nat.sub_diag. }
    assert (getitem (pre_ss ++ s :: ss) (length pre_ss) = Ok s) as ->.
    { unfold getitem. rewrite lookup_app_r by lia. by rewrite Nat.sub_diag. }
    cbn [mbind result_bind rbind].
    specialize (IH (pre_sps ++ [sp]) (pre_ss ++ [s]) sps).
    rewrite !length_app, <- !app_assoc in IH. cbn [length app] in IH.
    rewrite !Nat.add_1_r in IH. rewrite IH; [done|lia|]. cbn [length] in Hlen. lia.
Qed.

(** When the text of a passage begins with its first sentence and every
    further sentence is found after the one before, the separators that
    [compress_sentences] records put the text back together: with every
    sentence kept, the rebuilt text is the original one up to the end of
    its last sentence (what follows the last sentence is not kept). *)
Theorem separators_rebuild_text (c : ctx) (first : string) (rest : list string) :
  String.prefix first (text c) = true ->
  sentences_found (text c) first rest ->
  exists body final,
    rebuild_text (split_token_ctx c (first :: rest)) (first :: rest)
      (seq 0 (length (first :: rest))) None = Ok body
    /\ text c = body +:+ final
    /\ length (split_token_ctx c (first :: rest)) = length (first :: rest).
Proof.
  intros Hprefix Hfound. apply prefix_append in Hprefix as [tail Htail].
  rewrite Htail in *. unfold split_token_ctx. rewrite Htail.
  destruct (split_token_loop_covers tail first rest Hfound) as (Hlen & final & Hfinal).
  unfold rebuild_text.
  pose proof (rebuild_all_from [] [] (EmptyString :: split_token_loop (first +:+ tail) first rest)
                (first :: rest) eq_refl) as Hall.
  simpl in Hall. simpl. rewrite Hall by (by rewrite Hlen).
  cbn [mbind result_bind rbind]. rewrite app_nil_r.
  eexists _, final. split; [reflexivity|].
  split; [|simpl; by rewrite Hlen].
  simpl zip_with. rewrite join_empty_cons.
  change (EmptyString +:+ first) with first.
  rewrite append_assoc. by rewrite <- Hfinal.
Qed.

Lemma separators_rebuild_text_witness :
  exists body final,
    rebuild_text (split_token_ctx (Demo.passage 1 "Aa. Bb.  Cc. ") ["Aa."; "Bb."; "Cc."])
      ["Aa."; "Bb."; "Cc."] [0; 1; 2]%nat None = Ok body
    /\ "Aa. Bb.  Cc. " = body +:+ final.
Proof.
  destruct (separators_rebuild_text (Demo.passage 1 "Aa. Bb.  Cc. ") "Aa." ["Bb."; "Cc."])
    as (body & final & Hbody & Htext & _).
  - reflexivity.
  - vm_compute. repeat split; discriminate.
  - exists body, final. split; [exact Hbody | exact Htext].
Defined.

(** ** Token selection: what is left of a passage *)

Lemma sum_list_snoc l n : sum_list (l ++ [n]) = (sum_list l + n)%nat.
Proof. induction l as [|x l IH]; simpl; [lia|]. rewrite IH. lia. Qed.

Lemma sum_list_take_S lens k n :
  lens !! k = Some n ->
  sum_list (take (S k) lens) = (sum_list (take k lens) + n)%nat.
Proof. intros Hk. by rewrite (take_S_r _ _ _ Hk), sum_list_snoc. Qed.

Lemma concat_row {A} (rows : list (list A)) k row :
  rows !! k = Some row ->
  take (length row) (drop (sum_list (take k (map length rows))) (concat rows)) = row
  /\ (sum_list (take k (map length rows)) + length row <= length (concat rows))%nat.
Proof.
  revert k. induction rows as [|r rows IH]; intros [|k] Hk; simplify_eq/=.
  - rewrite drop_0, take_app_length, length_app. split; [done | lia].
  - rewrite drop_app_add, length_app. destruct (IH k Hk) as [Hrow Hlen].
    split; [done | lia].
Qed.

Lemma same_shape_lengths {A B} (xs : list (list A)) (ys : list (list B)) :
  Forall2 (fun x y => length x = length y) xs ys -> map length xs = map length ys.
Proof. induction 1 as [|x y xs ys Hxy _ IH]; simpl; [done|]. by rewrite Hxy, IH. Qed.

Lemma filter_sublist {A} (P : A -> Prop) `{!forall x, Decision (P x)} (l1 l2 : list A) :
  l1 `sublist_of` l2 -> filter P l1 `sublist_of` filter P l2.
Proof.
  induction 1 as [|x l1 l2 _ IH|x l1 l2 _ IH]; [done | |].
  - destruct (decide (P x)).
    + rewrite !filter_cons_True by done. by constructor.
    + by rewrite !filter_cons_False by done.
  - destruct (decide (P x)).
    + rewrite filter_cons_True by done. by constructor.
    + by rewrite filter_cons_False by done.
Qed.

Lemma cur_target_indices_sorted targets (ids : list Z) start stop :
  StronglySorted lt (cur_target_indices targets ids start stop).
Proof. unfold cur_target_indices. apply sorted_nat_NoDup_lt, union1d_NoDup. Qed.

Lemma take_indices_sublist_between {A} (l : list A) idxs a b sel :
  StronglySorted lt idxs ->
  Forall (fun i => (a <= i < b)%nat) idxs ->
  NP.take_indices l idxs = Ok sel ->
  sel `sublist_of` take (b - a) (drop a l).
Proof.
  intros Hs Hin Hrun. rewrite <- skipn_firstn_comm.
  apply (take_indices_sublist_from _ idxs); [done | |].
  - eapply Forall_impl; [exact Hin|]. simpl. lia.
  - rewrite <- Hrun. unfold NP.take_indices. apply rmap_ext.
    eapply Forall_impl; [exact Hin|]. simpl. intros i Hi.
    unfold getitem. by rewrite lookup_take_lt by lia.
Qed.

(** The positions of a span that hold a token of some kind, in ascending
    order, select the tokens of that kind of the span. *)
Lemma take_indices_of_kind (ids : list Z) (Q : Z -> Prop) `{!forall t, Decision (Q t)}
    n start idxs :
  StronglySorted lt idxs ->
  (forall p, p ∈ idxs <-> (start <= p < start + n)%nat
                          /\ exists t, ids !! p = Some t /\ Q t) ->
  NP.take_indices ids idxs = Ok (filter Q (take n (drop start ids))).
Proof.
  unfold NP.take_indices. revert start idxs.
  induction n as [|n IH]; intros start idxs Hs Hin.
  { destruct idxs as [|i idxs]; [done|].
    destruct (proj1 (Hin i)) as [Hi _]; [left | lia]. }
  destruct (ids !! start) as [t|] eqn:Hstart.
  - rewrite (drop_S _ _ _ Hstart). cbn [take].
    assert (forall idxs', StronglySorted lt idxs' ->
              (forall p, p ∈ idxs' <-> (S start <= p < start + S n)%nat
                                       /\ exists t, ids !! p = Some t /\ Q t) ->
              rmap (getitem ids) idxs' = Ok (filter Q (take n (drop (S start) ids))))
      as IH'.
    { intros idxs' Hs' Hin'. apply IH; [done|]. intros p. rewrite Hin'.
      replace (S start + n)%nat with (start + S n)%nat by lia. done. }
    destruct (decide (Q t)) as [HQ|HQ].
    + rewrite filter_cons_True by done.
      assert (start ∈ idxs) as Hmem by (apply Hin; split; [lia | eauto]).
      destruct idxs as [|i idxs]; [by apply elem_of_nil in Hmem|].
      apply StronglySorted_inv in Hs as [Hs Hi].
      assert (i = start) as ->.
      { apply elem_of_cons in Hmem as [->|Hmem]; [done|].
        eapply Forall_forall in Hi; [|exact Hmem].
        destruct (proj1 (Hin i)) as [Hge _]; [left | lia]. }
      cbn [rmap]. rewrite (proj2 (getitem_Ok ids start t) Hstart).
      cbn [mbind result_bind rbind].
      rewrite (IH' idxs Hs); [done|]. intros p. split.
      * intros Hp. eapply Forall_forall in Hi; [|exact Hp].
        destruct (proj1 (Hin p)) as [Hge Hex]; [by right|]. split; [lia | done].
      * intros [Hp Hex].
        assert (p ∈ start :: idxs) as Hmem' by (apply Hin; split; [lia | done]).
        apply elem_of_cons in Hmem' as [->|Hmem']; [lia | done].
    + rewrite filter_cons_False by done.
      apply IH'; [done|]. intros p. rewrite Hin. split.
      * intros [Hp (t' & Ht' & HQ')]. split; [|eauto].
        destruct (decide (p = start)) as [->|]; [|lia]. congruence.
      * intros [Hp Hex]. split; [lia | done].
  - rewrite drop_ge by (by apply lookup_ge_None). rewrite take_nil.
    destruct idxs as [|i idxs]; [done|].
    destruct (proj1 (Hin i)) as [Hi (t & Ht & _)]; [left|].
    apply lookup_ge_None in Hstart. apply lookup_lt_Some in Ht. lia.
Qed.

Lemma sorted_target_indices_all scores t p :
  Z.of_nat (length scores) <= t ->
  p ∈ sorted_target_indices scores t <-> (p < length scores)%nat.
Proof.
  intros Ht. unfold sorted_target_indices. rewrite sorted_nat_perm.
  rewrite <- (Z2Nat.id t) by lia.
  rewrite slice_to, take_ge by (rewrite length_rev, argsort_length; lia).
  rewrite elem_of_rev, argsort_perm, elem_of_seq. lia.
Qed.

Lemma sorted_target_indices_none scores : sorted_target_indices scores 0 = [].
Proof.
  unfold sorted_target_indices. change 0 with (Z.of_nat 0). by rewrite slice_to.
Qed.

Section TokensMore.
Context `{Externals}.

(** What [compress_tokens] does to passage [k] when the score rows and
    the token rows have the same shape. *)
Lemma compress_tokens_passage bs bt ctxs lamb out k c' row :
  Forall2 (fun s t => length s = length t) bs bt ->
  compress_tokens bs bt ctxs lamb = Ok out ->
  out !! k = Some c' -> bt !! k = Some row ->
  exists c kept start t,
    ctxs !! k = Some c
    /\ target_len (length (concat bs)) lamb = Ok t
    /\ kept_token_ids (sorted_target_indices (concat bs) t) (concat bt)
         start (start + length row) = Ok kept
    /\ c' = set_text c (Py.collapse_spaces (tok_decode kept))
    /\ take (length row) (drop start (concat bt)) = row
    /\ (start + length row <= length (concat bt))%nat
    /\ length (concat bs) = length (concat bt).
Proof.
  intros Hshape Hrun Hout Hrow.
  pose proof (same_shape_lengths _ _ Hshape) as Hlens.
  unfold compress_tokens in Hrun.
  bind_inv Hrun as scores Hscores. bind_inv Hrun as ids Hids.
  assert (scores = concat bs) as ->
    by (unfold np_concatenate in Hscores; destruct bs; by simplify_eq).
  assert (ids = concat bt) as ->
    by (unfold np_concatenate in Hids; destruct bt; by simplify_eq).
  bind_inv Hrun as t Ht.
  rewrite <- (map_add_0 (cum_len_list _)) in Hrun.
  apply token_loop_spec in Hrun as [_ Hpass].
  assert (map length bt !! k = Some (length row)) as Hlen
    by (by rewrite list_lookup_fmap, Hrow).
  destruct (Hpass k c' Hout) as (c & kept & Hc & Hkept & ->).
  { rewrite Hlens. by eapply lookup_lt_Some. }
  rewrite Hlens, (sum_list_take_S _ _ _ Hlen) in Hkept. cbn [Nat.add] in Hkept.
  destruct (concat_row _ _ _ Hrow) as [Htake Hle].
  exists c, kept, (sum_list (take k (map length bt))), t.
  split; [done|]. split; [done|]. split; [done|]. split; [done|]. split; [done|].
  split; [done|]. by apply length_concat_same_shape.
Qed.

(** Token selection only takes tokens out: on arrays of the same shape,
    the text of every passage is decoded from a subsequence of the
    passage's own token ids, in their order, none of them the id 2. *)
Theorem compress_tokens_keeps_token_order bs bt ctxs lamb out k c' row :
  Forall2 (fun s t => length s = length t) bs bt ->
  compress_tokens bs bt ctxs lamb = Ok out ->
  out !! k = Some c' -> bt !! k = Some row ->
  exists kept,
    text c' = Py.collapse_spaces (tok_decode kept)
    /\ kept `sublist_of` filter (fun t => t ≠ 2) row.
Proof.
  intros Hshape Hrun Hout Hrow.
  destruct (compress_tokens_passage _ _ _ _ _ _ _ _ Hshape Hrun Hout Hrow)
    as (c & kept & start & t & _ & _ & Hkept & -> & Htake & _ & _).
  exists kept. split; [done|].
  unfold kept_token_ids in Hkept. bind_inv Hkept as new_ids Hnew.
  injection Hkept as <-. apply filter_sublist. rewrite <- Htake.
  replace (length row) with (start + length row - start)%nat by lia.
  eapply take_indices_sublist_between; [apply cur_target_indices_sorted | | exact Hnew].
  apply Forall_forall. intros p Hp. by apply elem_of_cur_target_indices in Hp as [Hp _].
Qed.

(** The two ends of [token_lamb], on arrays of the same shape: from 1 on,
    a passage keeps all its tokens but the ids 2 (as long as the number of
    tokens is a float, which it is up to [2^53]); at 0 it keeps its tokens
    of id 3 and nothing else. *)
Theorem compress_tokens_extreme_fractions bs bt ctxs lamb out k c' row :
  Forall2 (fun s t => length s = length t) bs bt ->
  compress_tokens bs bt ctxs lamb = Ok out ->
  out !! k = Some c' -> bt !! k = Some row ->
  ((1 <= lamb)%Qc -> Z.of_nat (length (concat bt)) <= 2 ^ 53 ->
   text c' = Py.collapse_spaces (tok_decode (filter (fun t => t ≠ 2) row)))
  /\ (lamb = 0%Qc ->
      text c' = Py.collapse_spaces (tok_decode (filter (fun t => t = 3) row))).
Proof.
  intros Hshape Hrun Hout Hrow.
  destruct (compress_tokens_passage _ _ _ _ _ _ _ _ Hshape Hrun Hout Hrow)
    as (c & kept & start & n_targets & _ & Htargets & Hkept & -> & Htake & Hle & Hsame).
  unfold kept_token_ids in Hkept. bind_inv Hkept as new_ids Hnew.
  injection Hkept as <-. cbn [text set_text]. split.
  - intros Hl Hsize. rewrite <- Hsame in Hsize.
    pose proof (target_len_all _ _ _ Hl Hsize Htargets) as Hall.
    rewrite (take_indices_of_kind (concat bt) (fun _ => True) (length row) start) in Hnew.
    + injection Hnew as <-. rewrite Htake. do 3 f_equal.
      clear. induction row as [|t row IH]; [done|]. by rewrite filter_cons_True, IH.
    + apply cur_target_indices_sorted.
    + intros p. rewrite elem_of_cur_target_indices, sorted_target_indices_all by done.
      rewrite Hsame. split.
      * intros [Hp _]. split; [done|].
        destruct (lookup_lt_is_Some_2 (concat bt) p) as [t Ht]; [lia | eauto].
      * intros [Hp (t & Ht & _)]. split; [done|]. left. by eapply lookup_lt_Some.
  - intros ->. apply target_len_zero in Htargets as ->.
    rewrite (take_indices_of_kind (concat bt) (fun t => t = 3) (length row) start) in Hnew.
    + injection Hnew as <-. rewrite Htake. do 2 f_equal.
      clear. induction row as [|t row IH]; [done|].
      destruct (decide (t = 3)) as [->|Hne].
      * rewrite (filter_cons_True (fun t => t = 3)) by done.
        rewrite filter_cons_True by done. by rewrite IH.
      * by rewrite (filter_cons_False (fun t => t = 3)) by done.
    + apply cur_target_indices_sorted.
    + intros p. rewrite elem_of_cur_target_indices, sorted_target_indices_none.
      split.
      * intros [Hp [Hin|Hid]]; [by apply elem_of_nil in Hin|]. eauto.
      * intros [Hp (t & Ht & ->)]. auto.
Qed.

Lemma token_loop_texts_only targets (ids : list Z) cums ctxs start out :
  token_loop targets ids cums ctxs start = Ok out ->
  Forall2 (fun c' c => title c' = title c /\ org_idx c' = org_idx c
                       /\ ctx_score c' = ctx_score c /\ ctx_id c' = ctx_id c) out ctxs
  /\ drop (length cums) out = drop (length cums) ctxs.
Proof.
  revert ctxs start out. induction cums as [|cum cums IH]; intros ctxs start out.
  - cbn [token_loop]. intros [= <-]. split; [|done].
    apply Forall_Forall2_diag, Forall_forall. done.
  - destruct ctxs as [|c ctxs]; cbn [token_loop].
    { intros [= <-]. split; [constructor | by rewrite !drop_nil]. }
    intros Hrun. bind_inv Hrun as kept Hkept. bind_inv Hrun as rest Hrest.
    injection Hrun as <-. apply IH in Hrest as [Hall Hdrop].
    split; [by constructor | exact Hdrop].
Qed.

(** [compress_tokens] fails on an empty batch, of scores or of token ids.
    When it returns, it has rewritten texts only: every passage keeps its
    title, index, score and id, and the passages beyond the score rows
    are returned as they came. *)
Theorem compress_tokens_rewrites_texts_only bs bt ctxs lamb :
  (bs = [] \/ bt = [] -> compress_tokens bs bt ctxs lamb = Err NumpyValueError)
  /\ (forall out,
        compress_tokens bs bt ctxs lamb = Ok out ->
        Forall2 (fun c' c => title c' = title c /\ org_idx c' = org_idx c
                             /\ ctx_score c' = ctx_score c /\ ctx_id c' = ctx_id c)
                out ctxs
        /\ drop (length bs) out = drop (length bs) ctxs).
Proof.
  split.
  - unfold compress_tokens, np_concatenate. intros [-> | ->]; [done|].
    by destruct bs.
  - intros out Hrun. unfold compress_tokens in Hrun.
    bind_inv Hrun as scores Hscores. bind_inv Hrun as ids Hids.
    bind_inv Hrun as n_targets Htargets.
    apply token_loop_texts_only in Hrun.
    by rewrite length_cum_len_list, length_map in Hrun.
Qed.

Lemma collapse_spaces_no_double s : double_space (Py.collapse_spaces s) = false.
Proof.
  induction s as [|a s IH]; [done|].
  cbn [Py.collapse_spaces]. destruct (Ascii.eqb a " ") eqn:Ha.
  - destruct s as [|b s]; [done|].
    destruct (Ascii.eqb b " ") eqn:Hb; [exact IH|].
    assert (Py.collapse_spaces (String b s) = String b (Py.collapse_spaces s)) as Heq
      by (cbn [Py.collapse_spaces]; by rewrite Hb).
    rewrite Heq in *. cbn [double_space] in *.
    rewrite Hb, andb_false_r. rewrite Hb in IH. exact IH.
  - destruct (Py.collapse_spaces s) as [|y Y]; [done|].
    cbn [double_space]. cbn [double_space] in IH. by rewrite Ha.
Qed.

(** No text written by [compress_tokens] has two blanks side by side. *)
Theorem compressed_text_has_no_repeated_blank bs bt ctxs lamb out k c' :
  compress_tokens bs bt ctxs lamb = Ok out ->
  out !! k = Some c' -> (k < length bs)%nat ->
  double_space (text c') = false.
Proof.
  unfold compress_tokens. intros Hrun Hout Hk.
  bind_inv Hrun as scores Hscores. bind_inv Hrun as ids Hids.
  bind_inv Hrun as n_targets Htargets.
  rewrite <- (map_add_0 (cum_len_list _)) in Hrun.
  apply token_loop_spec in Hrun as [_ Hpass].
  destruct (Hpass k c' Hout) as (c & kept & _ & _ & ->); [by rewrite length_map|].
  apply collapse_spaces_no_double.
Qed.

End TokensMore.

Lemma compress_tokens_keeps_token_order_witness :
  exists out c' kept,
    compress_tokens (H := Demo.externals)
      [[Demo.score 1 2; Demo.score 1 3; Demo.score 1 4]; [Demo.score 1 5; Demo.score 9 10]]
      [[65; 3; 66]; [67; 2]]
      [Demo.passage 1 "A B"; Demo.passage 2 "C"] (Q2Qc (1 # 2)) = Ok out
    /\ out !! 0%nat = Some c'
    /\ text c' = Py.collapse_spaces (Demo.decode kept)
    /\ kept `sublist_of` [65; 3; 66].
Proof.
  eassert (compress_tokens (H := Demo.externals)
      [[Demo.score 1 2; Demo.score 1 3; Demo.score 1 4]; [Demo.score 1 5; Demo.score 9 10]]
      [[65; 3; 66]; [67; 2]]
      [Demo.passage 1 "A B"; Demo.passage 2 "C"] (Q2Qc (1 # 2)) = Ok (?[c0] :: ?[rest]))
    as Hrun by (vm_compute; reflexivity).
  assert (Forall2 (fun (s : list npfloat) (t : list Z) => length s = length t)
            [[Demo.score 1 2; Demo.score 1 3; Demo.score 1 4];
             [Demo.score 1 5; Demo.score 9 10]]
            [[65; 3; 66]; [67; 2]]) as Hshape by repeat constructor.
  destruct (compress_tokens_keeps_token_order (H := Demo.externals) _ _ _ _ _ 0%nat _
              [65; 3; 66] Hshape Hrun eq_refl eq_refl)
    as (kept & Htext & Hsub).
  eexists _, _, kept. split; [exact Hrun|]. split; [reflexivity|]. by split.
Defined.

Lemma compress_tokens_extreme_fractions_witness :
  exists out c',
    compress_tokens (H := Demo.externals)
      [[Demo.score 1 2; Demo.score 1 3; Demo.score 1 4]; [Demo.score 1 5; Demo.score 9 10]]
      [[65; 3; 66]; [67; 2]]
      [Demo.passage 1 "A B"; Demo.passage 2 "C"] 1%Qc = Ok out
    /\ out !! 1%nat = Some c'
    /\ text c' = Py.collapse_spaces (Demo.decode [67]).
Proof.
  eassert (compress_tokens (H := Demo.externals)
      [[Demo.score 1 2; Demo.score 1 3; Demo.score 1 4]; [Demo.score 1 5; Demo.score 9 10]]
      [[65; 3; 66]; [67; 2]]
      [Demo.passage 1 "A B"; Demo.passage 2 "C"] 1%Qc = Ok [?[c0]; ?[c1]])
    as Hrun by (vm_compute; reflexivity).
  assert (Forall2 (fun (s : list npfloat) (t : list Z) => length s = length t)
            [[Demo.score 1 2; Demo.score 1 3; Demo.score 1 4];
             [Demo.score 1 5; Demo.score 9 10]]
            [[65; 3; 66]; [67; 2]]) as Hshape by repeat constructor.
  destruct (compress_tokens_extreme_fractions (H := Demo.externals) _ _ _ _ _ 1%nat _
              [67; 2] Hshape Hrun eq_refl eq_refl)
    as [Hone _].
  eexists _, _. split; [exact Hrun|]. split; [reflexivity|]. apply Hone; by vm_compute.
Defined.

Lemma compress_tokens_rewrites_texts_only_witness :
  compress_tokens (H := Demo.externals) [] [[65]] [Demo.passage 1 "A"] 1%Qc
  = Err NumpyValueError.
Proof.
  destruct (compress_tokens_rewrites_texts_only (H := Demo.externals)
              [] [[65]] [Demo.passage 1 "A"] 1%Qc) as [Hempty _].
  apply Hempty. by left.
Defined.

Lemma compressed_text_has_no_repeated_blank_witness :
  exists out c',
    compress_tokens (H := Demo.externals)
      [[Demo.score 1 2; Demo.score 1 3; Demo.score 1 4; Demo.score 1 5]]
      [[65; 32; 32; 66]] [Demo.passage 1 "A  B"] 1%Qc = Ok out
    /\ out !! 0%nat = Some c'
    /\ double_space (text c') = false.
Proof.
  eassert (compress_tokens (H := Demo.externals)
      [[Demo.score 1 2; Demo.score 1 3; Demo.score 1 4; Demo.score 1 5]]
      [[65; 32; 32; 66]] [Demo.passage 1 "A  B"] 1%Qc = Ok [?[c0]])
    as Hrun by (vm_compute; reflexivity).
  eexists _, _. split; [exact Hrun|]. split; [reflexivity|].
  apply (compressed_text_has_no_repeated_blank (H := Demo.externals) _ _ _ _ _ 0%nat _
           Hrun eq_refl).
  simpl. lia.
Defined.

(** ** [gini] *)

Lemma of_nat_S n :
  Q2Qc (inject_Z (Z.of_nat (S n))) = (Q2Qc (inject_Z (Z.of_nat n)) + 1)%Qc.
Proof.
  apply Qc_is_canon. simpl. rewrite !Qred_correct.
  rewrite Nat2Z.inj_succ. unfold Z.succ. rewrite inject_Z_plus. reflexivity.
Qed.

Lemma of_nat_ne0 n : (0 < n)%nat -> Q2Qc (inject_Z (Z.of_nat n)) <> 0%Qc.
Proof.
  intros Hn Heq. apply (f_equal this) in Heq. simpl in Heq.
  apply Qred_eq_iff in Heq. unfold Qeq in Heq. simpl in Heq. lia.
Qed.

Lemma sum_of_equal_values a n c :
  foldl NP.add (Real a) (replicate n (Real c))
  = Real (a + Q2Qc (inject_Z (Z.of_nat n)) * c)%Qc.
Proof.
  revert a. induction n as [|n IH]; intros a.
  - simpl. f_equal. change (Q2Qc (inject_Z (Z.of_nat 0))) with 0%Qc. ring.
  - cbn [replicate foldl NP.add]. rewrite IH, of_nat_S. f_equal. ring.
Qed.

Lemma sum_of_zeros l : Forall (fun a => a = Real 0%Qc) l -> NP.sum l = Real 0%Qc.
Proof.
  unfold NP.sum, NP.zero. induction 1 as [|a l -> _ IH]; [done|].
  cbn [foldl NP.add]. by rewrite Qcplus_0_l.
Qed.

Lemma length_subtract_outer x y :
  length (concat (subtract_outer x y)) = (length x * length y)%nat.
Proof.
  unfold subtract_outer. induction x as [|a x IH]; [done|].
  cbn [map concat length]. rewrite length_app, length_map, IH. lia.
Qed.

Lemma differences_of_equal_values n c :
  Forall (fun a => a = Real 0%Qc)
    (map np_abs (concat (subtract_outer (replicate n (Real c)) (replicate n (Real c))))).
Proof.
  apply Forall_forall. intros a Ha.
  apply list_elem_of_fmap in Ha as (d & -> & Hd).
  apply list_elem_of_In, in_concat in Hd as (row & Hrow & Hd).
  apply list_elem_of_In in Hrow, Hd.
  apply list_elem_of_fmap in Hrow as (x & -> & Hx).
  apply list_elem_of_fmap in Hd as (y & -> & Hy).
  apply elem_of_replicate in Hx as [-> _]. apply elem_of_replicate in Hy as [-> _].
  unfold np_sub. cbn [NP.neg NP.add np_abs]. rewrite Qcplus_opp_r. done.
Qed.

(** The Gini coefficient of [n] equal values is 0; when the values are 0,
    or when there is none, the mean is 0 or missing and the result is NaN. *)
Theorem gini_of_equal_values (n : nat) (c : Qc) :
  gini (replicate n (Real c))
  = if bool_decide (n = 0%nat \/ c = 0%Qc) then NaN else Real 0%Qc.
Proof.
  destruct n as [|n].
  { rewrite bool_decide_eq_true_2 by by left. reflexivity. }
  set (m := S n). assert (0 < m)%nat as Hm by (unfold m; lia).
  unfold gini, NP.mean. rewrite (sum_of_zeros _ (differences_of_equal_values m c)).
  unfold NP.sum, NP.zero. rewrite sum_of_equal_values.
  rewrite length_replicate, length_map.
  assert (length (concat (subtract_outer (replicate m (Real c)) (replicate m (Real c))))
          = (m * m)%nat) as ->.
  { rewrite length_subtract_outer, length_replicate. done. }
  unfold NP.of_nat, NP.of_Z. cbn [NP.div].
  rewrite (bool_decide_eq_false_2 (Q2Qc (inject_Z (Z.of_nat (m * m))) = 0%Qc))
    by (apply of_nat_ne0; nia).
  rewrite (bool_decide_eq_false_2 (Q2Qc (inject_Z (Z.of_nat m)) = 0%Qc))
    by by apply of_nat_ne0.
  assert ((0 + Q2Qc (inject_Z (Z.of_nat m)) * c) / Q2Qc (inject_Z (Z.of_nat m)) = c)%Qc
    as -> by (field; by apply of_nat_ne0).
  assert (0 / Q2Qc (inject_Z (Z.of_nat (m * m))) = 0)%Qc as ->
    by (field; apply of_nat_ne0; nia).
  destruct (decide (c = 0%Qc)) as [->|Hc].
  - rewrite bool_decide_eq_true_2 by by right. reflexivity.
  - cbn [NP.div]. rewrite (bool_decide_eq_false_2 (c = 0%Qc)) by done.
    rewrite bool_decide_eq_false_2 by (intros [?|?]; [lia | done]).
    cbn [NP.mul]. f_equal.
    assert (0 / c = 0)%Qc as -> by (by field). ring.
Qed.

(** ** Sentence selection: the indices the caller gives *)

Lemma rmap_Ok_elem {A B} (f : A -> result B) l bs a :
  rmap f l = Ok bs -> a ∈ l -> exists b, f a = Ok b.
Proof.
  revert bs. induction l as [|x l IH]; intros bs Hrun Ha; [by apply elem_of_nil in Ha|].
  simpl in Hrun. bind_inv Hrun as b Hb. bind_inv Hrun as bs' Hbs.
  apply elem_of_cons in Ha as [->|Ha]; [eauto|]. by eapply IH.
Qed.

Lemma dict_of_lookup {V} (kvs : list (Z * V)) k v :
  dict_of kvs !! k = Some v -> (k, v) ∈ kvs.
Proof.
  unfold dict_of.
  assert (forall d0 : gmap Z V,
            foldl (fun d kv => <[kv.1 := kv.2]> d) d0 kvs !! k = Some v ->
            (k, v) ∈ kvs \/ d0 !! k = Some v) as Hgen.
  { induction kvs as [|[k' v'] kvs IH]; intros d0; simpl; [auto|].
    intros Hk. apply IH in Hk as [Hk|Hk]; [left; by right|].
    apply lookup_insert_Some in Hk as [[<- <-]|[_ Hk]]; [left; by left | by right]. }
  intros Hk. by destruct (Hgen ∅ Hk) as [?|?].
Qed.

Section IndexContract.
Context `{Externals}.

Lemma sentence_step_keys e st idx st' :
  sentence_step e st idx = Ok st' ->
  is_Some (ctx_idx2ctx_i e !! idx)
  /\ forall k, is_Some (new_scores_ctxs st' !! k) ->
       k = idx \/ is_Some (new_scores_ctxs st !! k).
Proof.
  unfold sentence_step. intros Hrun.
  bind_inv Hrun as rank Hrank. bind_inv Hrun as i Hi. apply of_option_Ok in Hi.
  split; [eauto|].
  bind_inv Hrun as c Hc. bind_inv Hrun as ps Hps. bind_inv Hrun as sents0 Hsents.
  destruct (_ =? 0)%nat; [injection Hrun as <-; simpl; auto|].
  bind_inv Hrun as comp_len Hcomp.
  destruct (_ || _).
  { bind_inv Hrun as sc Hsc. bind_inv Hrun as ids Hids. injection Hrun as <-. simpl.
    intros k Hk. apply lookup_insert_is_Some in Hk as [<-|[_ Hk]]; auto. }
  bind_inv Hrun as split_tokens Hsplit.
  bind_inv Hrun as [[r cur] total] Hloop. simpl in Hrun.
  destruct (_ =? _).
  - bind_inv Hrun as [total' comp_lens] Hrec. injection Hrun as <-. simpl. auto.
  - bind_inv Hrun as txt Htxt.
    bind_inv Hrun as sel Hsel. bind_inv Hrun as u Hu.
    bind_inv Hrun as [total' comp_lens] Hrec. injection Hrun as <-. simpl.
    intros k Hk. apply lookup_insert_is_Some in Hk as [<-|[_ Hk]]; auto.
Qed.

Lemma sentence_loop_keys e st todo st' :
  sentence_loop e st todo = Ok st' ->
  (forall idx, idx ∈ todo -> is_Some (ctx_idx2ctx_i e !! idx))
  /\ (forall k, is_Some (new_scores_ctxs st' !! k) ->
        k ∈ todo \/ is_Some (new_scores_ctxs st !! k)).
Proof.
  revert st. induction todo as [|idx todo IH]; intros st; simpl.
  - intros [= <-]. split; [|auto]. intros idx Hidx. by apply elem_of_nil in Hidx.
  - intros Hrun. bind_inv Hrun as st1 Hst1.
    apply sentence_step_keys in Hst1 as [Hidx Hstep].
    apply IH in Hrun as [Hall Hdom]. split.
    + intros idx' [->|Hin]%elem_of_cons; auto.
    + intros k Hk. destruct (Hdom k Hk) as [Hin|Hk1]; [left; by right|].
      destruct (Hstep k Hk1) as [->|Hk0]; [left; by left | by right].
Qed.

(** [compress_sentences] returns only when [ctx_indices_sorted] names the
    passages by [org_idx - 1]: every index of the list is the one of an
    input passage, and every passage that is returned has its index in the
    list. *)
Theorem compress_sentences_index_contract bs bt ctxs cis scl adaptive q p pow c1s ns nt out :
  compress_sentences bs bt ctxs cis scl adaptive q p pow c1s = Ok (ns, nt, out) ->
  (forall idx, idx ∈ cis -> exists c, c ∈ ctxs /\ org_idx c - 1 = idx)
  /\ (forall c, c ∈ out -> org_idx c - 1 ∈ cis).
Proof.
  unfold compress_sentences. intros Hrun.
  bind_inv Hrun as starts Hstarts. bind_inv Hrun as eos Heos.
  bind_inv Hrun as sc Hsc. bind_inv Hrun as ids Hids.
  bind_inv Hrun as comp Hcomp. bind_inv Hrun as st Hloop.
  bind_inv Hrun as new_sc Hnsc. bind_inv Hrun as new_ids Hnids.
  injection Hrun as <- <- <-.
  apply sentence_loop_keys in Hloop as [Hall Hdom]. simpl in Hall, Hdom. split.
  - intros idx Hidx.
    destruct (Hall idx) as [i Hi]; [by apply (proj2 (elem_of_rev _ _))|].
    apply dict_of_lookup, list_elem_of_fmap in Hi as ([j c] & [= -> ->] & Hin).
    apply elem_of_enumerate in Hin. simpl in *. exists c. split; [|done].
    apply list_elem_of_lookup. eauto.
  - intros c Hc. destruct (rmap_Ok_elem _ _ _ _ Hnsc Hc) as [v Hv].
    apply of_option_Ok in Hv.
    destruct (Hdom (org_idx c - 1)) as [Hin|Hemp];
      [eauto | by apply (proj1 (elem_of_rev _ _)) in Hin|].
    rewrite lookup_empty in Hemp. by destruct Hemp.
Qed.

End IndexContract.

Lemma compress_sentences_index_contract_witness :
  exists ns nt out,
    compress_sentences (H := Demo.externals) Demo.two_score_rows Demo.two_token_rows
      Demo.two_passages [0; 1] 0 false "q" "context:" (Real 1%Qc) false = Ok (ns, nt, out)
    /\ forall c, c ∈ out -> org_idx c - 1 ∈ [0; 1].
Proof.
  destruct (compress_sentences (H := Demo.externals) Demo.two_score_rows
              Demo.two_token_rows Demo.two_passages [0; 1] 0 false "q" "context:"
              (Real 1%Qc) false) as [[[ns nt] out]|err] eqn:Hrun;
    [|by vm_compute in Hrun].
  exists ns, nt, out. split; [done|].
  by destruct (compress_sentences_index_contract (H := Demo.externals)
                 _ _ _ _ _ _ _ _ _ _ _ _ _ Hrun) as [_ Hout].
Defined.
